(** * pkg/proxy/proxy.go: the redirect manager and its proxy-port allocator

    A shallow embedding of [Proxy], [allocatePort], [CreateOrUpdateRedirect],
    [RemoveRedirect], the goroutines they start and the status model
    ([GetStatusModel]), with the properties of the redirect lifecycle
    proved over it.

    Conventions.
    - [uint16] values are integers in [0, 65536); every [uint16] operation
      of the source is written with its wrap-around ([wrap16]).
    - A [*Redirect] is a location in [heap]; both index maps of the manager
      hold locations, so the two maps alias one record as they do in Go.
    - [time.Now()] reads the logical clock [clock] (nanoseconds).
    - Calls into collaborators (backend factories, [UpdateRules], [Close],
      the logger, the proxymap) are recorded in [trace]; what they answer
      is supplied by a [Backend] record, one per call. *)

From Stdlib Require Import ZArith Lia List Ascii.
From stdpp Require Import base option list gmap strings pretty.
From Equations Require Import Equations.
From Equations.Prop Require Import Logic.

Local Open Scope Z_scope.

(** ** Machine integers and constants *)

(** Truncation to [uint16]. *)
Definition wrap16 (z : Z) : Z := z mod 65536.

Definition is_uint16 (z : Z) : Prop := 0 <= z < 65536.

(** [time.Duration(5) * time.Minute], in nanoseconds. *)
Definition portReleaseDelay : Z := 5 * (60 * 1000000000).

(** The sleep of the eviction loop, [time.Duration(10) * time.Second]. *)
Definition gcInterval : Z := 10 * 1000000000.

Definition redirectCreationAttempts : nat := 5.

(** ** The policy filter and the redirect record *)

(** Modelled from the spec: [policy.L7ParserType] and its two constants are
    declared in pkg/policy, which is not part of the sources; the parser type
    is the "enumerated protocol kind (HTTP, Kafka, ...)", a string type in
    the source (it is printed with [%q] and converted with [string(...)]). *)
Definition L7ParserType := string.
Definition ParserTypeHTTP : L7ParserType := "http"%string.
Definition ParserTypeKafka : L7ParserType := "kafka"%string.

(** Modelled from the spec: the rule set ([policy.L7DataMap]) is opaque to
    the manager; it is kept as a finite map from selectors to rules. *)
Definition L7DataMap := gmap string string.

(** The fields of [policy.L4Filter] that the manager reads. *)
Record L4Filter := {
  Port : Z;
  L7Parser : L7ParserType;
  Ingress : bool;
  L7RulesPerEp : L7DataMap
}.

(** What a [logger.EndpointInfoSource] answers. *)
Record EndpointInfoSource := {
  GetID : Z;
  GetIdentity : Z;
  GetLabels : list string;
  GetLabelsSHA : string
}.

(** A [RedirectImplementation] is a handle on a backend instance. *)
Definition RedirectImplementation := nat.

Definition loc := nat.

(** Modelled from the spec: the [Redirect] struct is declared in
    redirect.go, which is not part of the sources.  The fields are the ones
    proxy.go reads and writes, under the names it uses; the per-redirect
    mutex is not a field here (each manager operation below is one critical
    section). *)
Record Redirect := {
  redirectID : string;
  port : Z;
  source : EndpointInfoSource;
  ProxyPort : Z;
  endpointID : Z;
  ingress : bool;
  parserType : L7ParserType;
  rules : L7DataMap;
  implementation : option RedirectImplementation;
  created : Z;
  lastUpdated : Z
}.

Definition set_ProxyPort (to : Z) (r : Redirect) : Redirect :=
  {| redirectID := redirectID r; port := port r; source := source r;
     ProxyPort := to; endpointID := endpointID r; ingress := ingress r;
     parserType := parserType r; rules := rules r;
     implementation := implementation r; created := created r;
     lastUpdated := lastUpdated r |}.

Definition set_endpointID (e : Z) (r : Redirect) : Redirect :=
  {| redirectID := redirectID r; port := port r; source := source r;
     ProxyPort := ProxyPort r; endpointID := e; ingress := ingress r;
     parserType := parserType r; rules := rules r;
     implementation := implementation r; created := created r;
     lastUpdated := lastUpdated r |}.

Definition set_ingress (b : bool) (r : Redirect) : Redirect :=
  {| redirectID := redirectID r; port := port r; source := source r;
     ProxyPort := ProxyPort r; endpointID := endpointID r; ingress := b;
     parserType := parserType r; rules := rules r;
     implementation := implementation r; created := created r;
     lastUpdated := lastUpdated r |}.

Definition set_parserType (t : L7ParserType) (r : Redirect) : Redirect :=
  {| redirectID := redirectID r; port := port r; source := source r;
     ProxyPort := ProxyPort r; endpointID := endpointID r; ingress := ingress r;
     parserType := t; rules := rules r;
     implementation := implementation r; created := created r;
     lastUpdated := lastUpdated r |}.

Definition set_rules (m : L7DataMap) (r : Redirect) : Redirect :=
  {| redirectID := redirectID r; port := port r; source := source r;
     ProxyPort := ProxyPort r; endpointID := endpointID r; ingress := ingress r;
     parserType := parserType r; rules := m;
     implementation := implementation r; created := created r;
     lastUpdated := lastUpdated r |}.

Definition set_implementation (i : RedirectImplementation) (r : Redirect) : Redirect :=
  {| redirectID := redirectID r; port := port r; source := source r;
     ProxyPort := ProxyPort r; endpointID := endpointID r; ingress := ingress r;
     parserType := parserType r; rules := rules r;
     implementation := Some i; created := created r;
     lastUpdated := lastUpdated r |}.

Definition set_lastUpdated (t : Z) (r : Redirect) : Redirect :=
  {| redirectID := redirectID r; port := port r; source := source r;
     ProxyPort := ProxyPort r; endpointID := endpointID r; ingress := ingress r;
     parserType := parserType r; rules := rules r;
     implementation := implementation r; created := created r;
     lastUpdated := t |}.

(** Modelled from the spec: [newRedirect] is defined in redirect.go, which is
    not part of the sources.  It builds the record from the declared port,
    the endpoint source and the identifier, with both timestamps set to the
    time of the call. *)
Definition newRedirect (p : Z) (src : EndpointInfoSource) (id : string) (now : Z) : Redirect :=
  {| redirectID := id; port := p; source := src;
     ProxyPort := 0; endpointID := 0; ingress := false;
     parserType := ""%string; rules := ∅;
     implementation := None; created := now; lastUpdated := now |}.

(** Modelled from the spec: [Redirect.updateRules] is defined in redirect.go,
    which is not part of the sources.  The rule set is "replaced wholesale
    on update" by the filter's rules; no other field is written. *)
Definition updateRules (l4 : L4Filter) (r : Redirect) : Redirect :=
  set_rules (L7RulesPerEp l4) r.

(** ** Errors *)

Inductive error :=
| ErrNoAvailablePorts
| ErrInvalidType (requested existing : L7ParserType)
| ErrUnsupportedParser (t : L7ParserType)
| ErrRedirectNotFound (id : string)
| ErrBackend (msg : string).

Inductive result (A : Type) :=
| Ok (a : A)
| Err (e : error).
Arguments Ok {A} a.
Arguments Err {A} e.

(** ** The manager *)

Record Proxy := {
  stateDir : string;
  rangeMin : Z;
  rangeMax : Z;
  allocatedPorts : gmap Z loc;
  redirects : gmap string loc
}.

Definition set_allocatedPorts (m : gmap Z loc) (p : Proxy) : Proxy :=
  {| stateDir := stateDir p; rangeMin := rangeMin p; rangeMax := rangeMax p;
     allocatedPorts := m; redirects := redirects p |}.

Definition set_redirects (m : gmap string loc) (p : Proxy) : Proxy :=
  {| stateDir := stateDir p; rangeMin := rangeMin p; rangeMax := rangeMax p;
     allocatedPorts := allocatedPorts p; redirects := m |}.

(** ** The port randomizer

    [portRandomizer] is a [*rand.Rand]; its state is the sequence of draws it
    will still make.  [Intn] and [Perm] follow math/rand: [Perm] fills a
    slice of [n] zeros by the inside-out shuffle
    [for i := 0; i < n; i++ { j := r.Intn(i + 1); m[i] = m[j]; m[j] = i }]. *)

Definition Rand := list nat.

Definition Intn (n : nat) (g : Rand) : nat * Rand :=
  match g with
  | [] => (0%nat, [])
  | x :: g' => ((x mod n)%nat, g')
  end.

Fixpoint permFill (k i : nat) (m : list nat) (g : Rand) : list nat * Rand :=
  match k with
  | O => (m, g)
  | S k' =>
      let '(j, g') := Intn (i + 1) g in
      let m1 := <[i := m !!! j]> m in
      let m2 := <[j := i]> m1 in
      permFill k' (S i) m2 g'
  end.

Definition Perm (n : nat) (g : Rand) : list nat * Rand :=
  permFill n 0 (replicate n 0%nat) g.

(** ** allocatePort *)

(** [resPort := uint16(r) + p.rangeMin], in [uint16]. *)
Definition resPort (rmin : Z) (r : nat) : Z :=
  wrap16 (wrap16 (Z.of_nat r) + rmin).

(** The [for _, r := range ...] loop over the permutation. *)
Fixpoint firstFree (rmin : Z) (allocated : gmap Z loc) (perm : list nat) : option Z :=
  match perm with
  | [] => None
  | r :: rest =>
      match allocated !! resPort rmin r with
      | None => Some (resPort rmin r)
      | Some _ => firstFree rmin allocated rest
      end
  end.

(** The length of the permutation: [int(p.rangeMax - p.rangeMin + 1)],
    computed in [uint16]. *)
Definition rangeSize (p : Proxy) : nat :=
  Z.to_nat (wrap16 (wrap16 (rangeMax p - rangeMin p) + 1)).

Definition allocatePort (p : Proxy) (g : Rand) : result Z * Rand :=
  let '(perm, g') := Perm (rangeSize p) g in
  match firstFree (rangeMin p) (allocatedPorts p) perm with
  | Some resPort => (Ok resPort, g')
  | None => (Err ErrNoAvailablePorts, g')
  end.

(** ** The process: manager, heap, goroutines, clock and trace *)

Definition LogRecordNotifier := nat.
Definition WaitGroup := nat.

(** The calls the manager and its goroutines make on their collaborators,
    and the release of a port by a deferred task (line 259), in the order
    they happen.  A goroutine's events carry its index in [releaseTasks]. *)
Inductive Event :=
| EvSetNotifier (notifier : LogRecordNotifier)
| EvOpenLogfile (path : string)
| EvSetMetadata (labels : list string)
| EvGoSweeper
| EvProxymapGC
| EvCreateKafkaRedirect (redir : Redirect)
| EvCreateEnvoyRedirect (redir : Redirect)
| EvUpdateRules (impl : RedirectImplementation) (wg : WaitGroup)
| EvClose (impl : RedirectImplementation) (wg : WaitGroup)
| EvCleanupOnRedirectClose (tid : nat) (proxyPort : Z)
| EvPortReleased (tid : nat) (proxyPort : Z).

(** Where the goroutine started by [RemoveRedirect] stands:
    started, inside [time.Sleep(portReleaseDelay)] until [wake], past
    [proxymap.CleanupOnRedirectClose], or returned. *)
Inductive ReleasePc :=
| Spawned
| Sleeping (wake : Z)
| Cleaned
| Finished.

(** The closure of that goroutine captures [r] and [id]. *)
Record ReleaseTask := {
  task_redirect : loc;
  task_id : string;
  task_pc : ReleasePc
}.

(** Where the eviction goroutine started by [gcOnce] stands. *)
Inductive SweeperPc :=
| SweeperNone
| SweeperSpawned
| SweeperSleeping (wake : Z).

Record World := {
  proxy : Proxy;
  heap : list Redirect;
  portRandomizer : Rand;
  gcOnce : bool;
  accessLog : string;
  agentLabels : list string;
  clock : Z;
  releaseTasks : list ReleaseTask;
  sweeper : SweeperPc;
  trace : list (Z * Event)
}.

Definition set_proxy (p : Proxy) (w : World) : World :=
  {| proxy := p; heap := heap w; portRandomizer := portRandomizer w;
     gcOnce := gcOnce w; accessLog := accessLog w; agentLabels := agentLabels w;
     clock := clock w; releaseTasks := releaseTasks w; sweeper := sweeper w;
     trace := trace w |}.

Definition set_heap (h : list Redirect) (w : World) : World :=
  {| proxy := proxy w; heap := h; portRandomizer := portRandomizer w;
     gcOnce := gcOnce w; accessLog := accessLog w; agentLabels := agentLabels w;
     clock := clock w; releaseTasks := releaseTasks w; sweeper := sweeper w;
     trace := trace w |}.

Definition set_portRandomizer (g : Rand) (w : World) : World :=
  {| proxy := proxy w; heap := heap w; portRandomizer := g;
     gcOnce := gcOnce w; accessLog := accessLog w; agentLabels := agentLabels w;
     clock := clock w; releaseTasks := releaseTasks w; sweeper := sweeper w;
     trace := trace w |}.

Definition set_gcOnce (b : bool) (w : World) : World :=
  {| proxy := proxy w; heap := heap w; portRandomizer := portRandomizer w;
     gcOnce := b; accessLog := accessLog w; agentLabels := agentLabels w;
     clock := clock w; releaseTasks := releaseTasks w; sweeper := sweeper w;
     trace := trace w |}.

Definition set_clock (t : Z) (w : World) : World :=
  {| proxy := proxy w; heap := heap w; portRandomizer := portRandomizer w;
     gcOnce := gcOnce w; accessLog := accessLog w; agentLabels := agentLabels w;
     clock := t; releaseTasks := releaseTasks w; sweeper := sweeper w;
     trace := trace w |}.

Definition set_releaseTasks (ts : list ReleaseTask) (w : World) : World :=
  {| proxy := proxy w; heap := heap w; portRandomizer := portRandomizer w;
     gcOnce := gcOnce w; accessLog := accessLog w; agentLabels := agentLabels w;
     clock := clock w; releaseTasks := ts; sweeper := sweeper w;
     trace := trace w |}.

Definition set_sweeper (s : SweeperPc) (w : World) : World :=
  {| proxy := proxy w; heap := heap w; portRandomizer := portRandomizer w;
     gcOnce := gcOnce w; accessLog := accessLog w; agentLabels := agentLabels w;
     clock := clock w; releaseTasks := releaseTasks w; sweeper := s;
     trace := trace w |}.

(** Record an event at the current time, after the ones already there. *)
Definition emit (e : Event) (w : World) : World :=
  {| proxy := proxy w; heap := heap w; portRandomizer := portRandomizer w;
     gcOnce := gcOnce w; accessLog := accessLog w; agentLabels := agentLabels w;
     clock := clock w; releaseTasks := releaseTasks w; sweeper := sweeper w;
     trace := trace w ++ [(clock w, e)] |}.

Definition set_task_pc (pc : ReleasePc) (t : ReleaseTask) : ReleaseTask :=
  {| task_redirect := task_redirect t; task_id := task_id t; task_pc := pc |}.

Definition set_pc (tid : nat) (pc : ReleasePc) (w : World) : World :=
  set_releaseTasks (alter (set_task_pc pc) tid (releaseTasks w)) w.

(** [StartProxySupport]: the manager with both maps empty.  (Starting the
    xDS and access-log servers is the collaborators' business.) *)
Definition StartProxySupport (minPort maxPort : Z) (dir : string) : Proxy :=
  {| stateDir := dir; rangeMin := minPort; rangeMax := maxPort;
     allocatedPorts := ∅; redirects := ∅ |}.

(** The process right after [StartProxySupport]: no redirect exists, [gcOnce]
    has not fired, no goroutine runs.  The configuration read through viper,
    the seed of the randomizer and the time of day are whatever they are. *)
Definition startWorld (minPort maxPort : Z) (dir : string)
    (lf : string) (labels : list string) (seed : Rand) (now : Z) : World :=
  {| proxy := StartProxySupport minPort maxPort dir; heap := [];
     portRandomizer := seed; gcOnce := false;
     accessLog := lf; agentLabels := labels; clock := now;
     releaseTasks := []; sweeper := SweeperNone; trace := [] |}.

(** What the collaborators answer during one call of the manager.  The
    factories are asked once per attempt, and may answer differently each
    time; the first argument is the attempt ([nRetry]). *)
Record Backend := {
  createKafkaRedirect : nat -> Redirect -> result RedirectImplementation;
  createEnvoyRedirect : nat -> Redirect -> result RedirectImplementation;
  UpdateRules : RedirectImplementation -> WaitGroup -> option error
}.

(** A call returns, or panics on a nil dereference. *)
Inductive outcome (A : Type) :=
| Returns (a : A)
| Panics.
Arguments Returns {A} a.
Arguments Panics {A}.

(** ** CreateOrUpdateRedirect *)

(** The function passed to [gcOnce.Do], and [sync.Once] around it: callers
    that arrive while the function runs wait until it has returned, so the
    whole of [Do] is one atomic section. *)
Definition gcOnceDo (notifier : LogRecordNotifier) (w : World) : World :=
  if gcOnce w then w
  else
    let w := emit (EvSetNotifier notifier) w in
    let w := if decide (accessLog w = ""%string) then w
             else emit (EvOpenLogfile (accessLog w)) w in
    let w := match agentLabels w with
             | [] => w
             | _ :: _ => emit (EvSetMetadata (agentLabels w)) w
             end in
    let w := set_sweeper SweeperSpawned (emit EvGoSweeper w) in
    set_gcOnce true w.

(** The update path, lines 161-180: [r] is the pointer found in
    [p.redirects], [rd] the record it points to. *)
Definition updateExisting (l4 : L4Filter) (wg : WaitGroup) (b : Backend)
    (r : loc) (rd : Redirect) (w : World) : World * outcome (result loc) :=
  if decide (parserType rd = L7Parser l4) then
    let rd := updateRules l4 rd in
    let w := set_heap (<[r := rd]> (heap w)) w in
    match implementation rd with
    | None => (w, Panics)
    | Some impl =>
        let w := emit (EvUpdateRules impl wg) w in
        match UpdateRules b impl wg with
        | Some err => (w, Returns (Err err))
        | None =>
            let rd := set_lastUpdated (clock w) rd in
            let w := set_heap (<[r := rd]> (heap w)) w in
            (w, Returns (Ok r))
        end
    end
  else (w, Returns (Err (ErrInvalidType (L7Parser l4) (parserType rd)))).

(** One iteration of the [retryCreatePort] loop either leaves the function
    ([Done]) or goes round again ([Retry]) with the record as the iteration
    left it. *)
Inductive Attempt :=
| Done (w : World) (res : outcome (result loc))
| Retry (redir : Redirect) (w : World).

(** The [switch l4.L7Parser] of lines 198-207: the factory call, or [None]
    in the [default] case. *)
Definition construct (l4 : L4Filter) (b : Backend) (nRetry : nat)
    (redir : Redirect) (w : World) : option (World * result RedirectImplementation) :=
  if decide (L7Parser l4 = ParserTypeKafka) then
    Some (emit (EvCreateKafkaRedirect redir) w, createKafkaRedirect b nRetry redir)
  else if decide (L7Parser l4 = ParserTypeHTTP) then
    Some (emit (EvCreateEnvoyRedirect redir) w, createEnvoyRedirect b nRetry redir)
  else None.

(** The loop body, lines 191-227.  Until it is stored in the maps the
    record is only reachable through the local variable [redir]; it gets
    its location in the heap when it is stored. *)
Definition attempt (l4 : L4Filter) (id : string) (b : Backend)
    (nRetry : nat) (redir : Redirect) (w : World) : Attempt :=
  let '(res, g) := allocatePort (proxy w) (portRandomizer w) in
  let w := set_portRandomizer g w in
  match res with
  | Err err => Done w (Returns (Err err))
  | Ok to =>
      let redir := set_ProxyPort to redir in
      match construct l4 b nRetry redir w with
      | None => Done w (Returns (Err (ErrUnsupportedParser (L7Parser l4))))
      | Some (w, Ok impl) =>
          let redir := set_implementation impl redir in
          let r := length (heap w) in
          let w := set_heap (heap w ++ [redir]) w in
          let w := set_proxy (set_allocatedPorts (<[to := r]> (allocatedPorts (proxy w))) (proxy w)) w in
          let w := set_proxy (set_redirects (<[id := r]> (redirects (proxy w))) (proxy w)) w in
          Done w (Returns (Ok r))
      | Some (w, Err err) =>
          if decide (redirectCreationAttempts <= nRetry)%nat
          then Done w (Returns (Err err))
          else Retry redir w
      end
  end.

Lemma attempt_Retry_lt l4 id b nRetry redir w redir' w' :
  attempt l4 id b nRetry redir w = Retry redir' w' ->
  (nRetry < redirectCreationAttempts)%nat.
Proof.
  unfold attempt.
  destruct (allocatePort _ _) as [[to|err] g]; [|discriminate].
  destruct (construct _ _ _ _ _) as [[w1 [impl|err]]|]; try discriminate.
  destruct (decide _); [discriminate|lia].
Qed.

(** [for nRetry := 0; ; nRetry++ { ... }]: the loop has no bound of its own;
    it ends because an iteration only goes round again while
    [nRetry < redirectCreationAttempts]. *)
Equations? retryCreatePort (l4 : L4Filter) (id : string) (b : Backend)
    (nRetry : nat) (redir : Redirect) (w : World) : World * outcome (result loc)
    by wf (redirectCreationAttempts - nRetry)%nat lt :=
  retryCreatePort l4 id b nRetry redir w with inspect (attempt l4 id b nRetry redir w) => {
    | exist _ (Done w' res) _ := (w', res);
    | exist _ (Retry redir' w') H := retryCreatePort l4 id b (S nRetry) redir' w' }.
Proof. apply attempt_Retry_lt in H. unfold redirectCreationAttempts in *. lia. Qed.

(** The critical section of [CreateOrUpdateRedirect], lines 155-230.  A
    pointer found in [p.redirects] always points to a record; the [None]
    case of the heap lookup is there for processes that no schedule
    reaches ([WF] below). *)
Definition createOrUpdateLocked (l4 : L4Filter) (id : string)
    (src : EndpointInfoSource) (wg : WaitGroup) (b : Backend)
    (w : World) : World * outcome (result loc) :=
  match redirects (proxy w) !! id with
  | Some r =>
      match heap w !! r with
      | Some rd => updateExisting l4 wg b r rd w
      | None => (w, Panics)
      end
  | None =>
      let redir := newRedirect (wrap16 (Port l4)) src id (clock w) in
      let redir := set_endpointID (GetID src) redir in
      let redir := set_ingress (Ingress l4) redir in
      let redir := set_parserType (L7Parser l4) redir in
      let redir := updateRules l4 redir in
      retryCreatePort l4 id b 0 redir w
  end.

Definition CreateOrUpdateRedirect (l4 : L4Filter) (id : string)
    (src : EndpointInfoSource) (notifier : LogRecordNotifier) (wg : WaitGroup)
    (b : Backend) (w : World) : World * outcome (result loc) :=
  createOrUpdateLocked l4 id src wg b (gcOnceDo notifier w).

(** ** RemoveRedirect and its deferred release *)

(** Lines 234-266.  The goroutine of lines 250-263 is added to
    [releaseTasks]; it runs later, one step at a time ([releaseStep]). *)
Definition RemoveRedirect (id : string) (wg : WaitGroup) (w : World)
    : World * outcome (result unit) :=
  match redirects (proxy w) !! id with
  | None => (w, Returns (Err (ErrRedirectNotFound id)))
  | Some r =>
      match heap w !! r ≫= implementation with
      | None => (w, Panics)
      | Some impl =>
          let w := emit (EvClose impl wg) w in
          let w := set_proxy (set_redirects (delete id (redirects (proxy w))) (proxy w)) w in
          let t := {| task_redirect := r; task_id := id; task_pc := Spawned |} in
          let w := set_releaseTasks (releaseTasks w ++ [t]) w in
          (w, Returns (Ok tt))
      end
  end.

(** One step of the goroutine with index [tid]:
    - it enters [time.Sleep(portReleaseDelay)];
    - once the sleep is over it calls
      [proxymap.CleanupOnRedirectClose(r.ProxyPort)];
    - it takes the manager's lock, deletes [r.ProxyPort] from
      [allocatedPorts] and returns.
    A step that cannot be taken yet (the sleep is not over) leaves the
    process as it is. *)
Definition releaseStep (tid : nat) (w : World) : World :=
  match releaseTasks w !! tid with
  | None => w
  | Some t =>
      match task_pc t with
      | Spawned => set_pc tid (Sleeping (clock w + portReleaseDelay)) w
      | Sleeping wake =>
          if decide (wake <= clock w) then
            match heap w !! task_redirect t with
            | Some rd =>
                set_pc tid Cleaned (emit (EvCleanupOnRedirectClose tid (ProxyPort rd)) w)
            | None => w
            end
          else w
      | Cleaned =>
          match heap w !! task_redirect t with
          | Some rd =>
              let to := ProxyPort rd in
              let w := set_proxy (set_allocatedPorts (delete to (allocatedPorts (proxy w))) (proxy w)) w in
              set_pc tid Finished (emit (EvPortReleased tid to) w)
          | None => w
          end
      | Finished => w
      end
  end.

(** One step of the eviction goroutine of lines 144-152: it goes to sleep
    for ten seconds, and when the sleep is over it calls [proxymap.GC()] and
    goes to sleep again. *)
Definition sweeperStep (w : World) : World :=
  match sweeper w with
  | SweeperNone => w
  | SweeperSpawned => set_sweeper (SweeperSleeping (clock w + gcInterval)) w
  | SweeperSleeping wake =>
      if decide (wake <= clock w)
      then set_sweeper (SweeperSleeping (clock w + gcInterval)) (emit EvProxymapGC w)
      else w
  end.

(** ** Schedules

    What happens in the process, one atomic section at a time: the two
    sections of a [CreateOrUpdateRedirect] call ([gcOnce.Do], then the part
    under the manager's lock), a [RemoveRedirect] call, a step of a
    goroutine, or time passing.  Calls made concurrently show up as
    sections of different calls following each other in any order. *)
Inductive Op :=
| OpGcOnceDo (notifier : LogRecordNotifier)
| OpCreateOrUpdateLocked (l4 : L4Filter) (id : string) (src : EndpointInfoSource)
    (wg : WaitGroup) (b : Backend)
| OpRemoveRedirect (id : string) (wg : WaitGroup)
| OpReleaseStep (tid : nat)
| OpSweeperStep
| OpTick (d : N).

Definition step (o : Op) (w : World) : World :=
  match o with
  | OpGcOnceDo notifier => gcOnceDo notifier w
  | OpCreateOrUpdateLocked l4 id src wg b => fst (createOrUpdateLocked l4 id src wg b w)
  | OpRemoveRedirect id wg => fst (RemoveRedirect id wg w)
  | OpReleaseStep tid => releaseStep tid w
  | OpSweeperStep => sweeperStep w
  | OpTick d => set_clock (clock w + Z.of_N d) w
  end.

Definition run (ops : list Op) (w : World) : World :=
  fold_left (fun w o => step o w) ops w.

(** A whole [CreateOrUpdateRedirect] call made with nothing in between. *)
Definition callCreateOrUpdate (l4 : L4Filter) (id : string) (src : EndpointInfoSource)
    (notifier : LogRecordNotifier) (wg : WaitGroup) (b : Backend) : list Op :=
  [OpGcOnceDo notifier; OpCreateOrUpdateLocked l4 id src wg b].

(** ** Example values *)

Definition ep1 : EndpointInfoSource :=
  {| GetID := 7; GetIdentity := 1001; GetLabels := ["app=web"%string];
     GetLabelsSHA := "sha"%string |}.

Definition httpFilter (rs : L7DataMap) : L4Filter :=
  {| Port := 80; L7Parser := ParserTypeHTTP; Ingress := false; L7RulesPerEp := rs |}.

Definition kafkaFilter (rs : L7DataMap) : L4Filter :=
  {| Port := 9092; L7Parser := ParserTypeKafka; Ingress := true; L7RulesPerEp := rs |}.

(** A backend whose factories always succeed (handle = attempt number) and
    whose rule updates succeed. *)
Definition goodBackend : Backend :=
  {| createKafkaRedirect := fun n _ => Ok n;
     createEnvoyRedirect := fun n _ => Ok n;
     UpdateRules := fun _ _ => None |}.

(** A backend whose factories fail at every attempt, with an error that
    names the attempt, and whose rule updates fail. *)
Definition badBackend : Backend :=
  {| createKafkaRedirect := fun n _ => Err (ErrBackend (String (Ascii.ascii_of_nat (48 + n)) ""));
     createEnvoyRedirect := fun n _ => Err (ErrBackend (String (Ascii.ascii_of_nat (48 + n)) ""));
     UpdateRules := fun _ _ => Some (ErrBackend "update"%string) |}.

(** A backend whose factories fail at the first two attempts and succeed
    from the third on. *)
Definition flakyBackend : Backend :=
  {| createKafkaRedirect := fun n _ =>
       if decide (n < 2)%nat then Err (ErrBackend "busy"%string) else Ok n;
     createEnvoyRedirect := fun n _ =>
       if decide (n < 2)%nat then Err (ErrBackend "busy"%string) else Ok n;
     UpdateRules := fun _ _ => None |}.

(** A fresh process on the range [10000, 10002], and the same once
    "ep1-egress" has been created with the HTTP parser (Scenario A). *)
Definition exampleStart : World :=
  startWorld 10000 10002 "/var/run/cilium" "" [] [5; 7; 11; 2]%nat 1000.

Definition exampleActive : World :=
  run (callCreateOrUpdate (httpFilter ∅) "ep1-egress" ep1 1%nat 2%nat goodBackend)
    exampleStart.

(** A process whose range is the single port 10000, held by "ep1-egress"
    (Scenario B). *)
Definition tightActive : World :=
  run (callCreateOrUpdate (httpFilter ∅) "ep1-egress" ep1 1%nat 2%nat goodBackend)
    (startWorld 10000 10000 "/var/run/cilium" "" [] [5; 7; 11; 2]%nat 1000).

(** A process started on the bounds 65535 and 0. *)
Definition invertedStart : World :=
  startWorld 65535 0 "/var/run/cilium" "" [] [] 1000.

(** ** Vocabulary of the statements *)

(** A call of a backend factory. *)
Definition isConstruction (e : Event) : bool :=
  match e with
  | EvCreateKafkaRedirect _ | EvCreateEnvoyRedirect _ => true
  | _ => false
  end.

(** How many backend constructions a trace holds. *)
Definition constructionAttempts (tr : list (Z * Event)) : nat :=
  length (filter (fun te => Is_true (isConstruction (snd te))) tr).

(** The goroutine an event belongs to, if it is a goroutine's. *)
Definition eventTid (e : Event) : option nat :=
  match e with
  | EvCleanupOnRedirectClose tid _ | EvPortReleased tid _ => Some tid
  | _ => None
  end.

(** The events of the release goroutine [tid], oldest first. *)
Definition eventsOf (tid : nat) (tr : list (Z * Event)) : list (Z * Event) :=
  filter (fun te => eventTid (snd te) = Some tid) tr.

(** The effects of the function passed to [gcOnce.Do]. *)
Definition isInit (e : Event) : bool :=
  match e with
  | EvSetNotifier _ | EvOpenLogfile _ | EvSetMetadata _ | EvGoSweeper => true
  | _ => false
  end.

Definition initEvents (tr : list (Z * Event)) : list Event :=
  snd <$> filter (fun te => Is_true (isInit (snd te))) tr.

(** One run of that function, for the notifier of the call that runs it. *)
Definition initBlock (notifier : LogRecordNotifier) (lf : string)
    (labels : list string) : list Event :=
  [EvSetNotifier notifier]
  ++ (if decide (lf = ""%string) then [] else [EvOpenLogfile lf])
  ++ match labels with [] => [] | _ :: _ => [EvSetMetadata labels] end
  ++ [EvGoSweeper].


(** What a manager operation never touches besides the randomizer and the
    trace. *)
Definition ambient (w : World) :=
  (gcOnce w, accessLog w, agentLabels w, clock w, releaseTasks w, sweeper w).

(** Nothing but the randomizer and the trace differs. *)
Definition frame (w w' : World) : Prop :=
  proxy w' = proxy w /\ heap w' = heap w /\ ambient w' = ambient w.

(** [w'] is [w] with the record [rd], listening on [to], published at the
    fresh location [r] under [id] in both maps. *)
Definition published (id : string) (r : loc) (to : Z) (rd : Redirect) (w w' : World) : Prop :=
  r = length (heap w) /\
  heap w' = heap w ++ [rd] /\
  ProxyPort rd = to /\
  is_Some (implementation rd) /\
  proxy w' = set_redirects (<[id := r]> (redirects (proxy w)))
               (set_allocatedPorts (<[to := r]> (allocatedPorts (proxy w))) (proxy w)) /\
  ambient w' = ambient w.

(** [w'] has the trace of [w] followed by [k] factory calls. *)
Definition constructed (k : nat) (w w' : World) : Prop :=
  exists evs, trace w' = trace w ++ evs /\ length evs = k /\
    Forall (fun te => Is_true (isConstruction (snd te))) evs.

(** An event that is neither a goroutine's nor part of the one-time
    initialisation. *)
Definition quiet (e : Event) : Prop := eventTid e = None /\ isInit e = false.

(** [w'] has the trace of [w] followed by quiet events. *)
Definition quietly (w w' : World) : Prop :=
  exists evs, trace w' = trace w ++ evs /\ Forall (fun te => quiet (snd te)) evs.

(** Every record of [h] is still in [h'], at its location, on the same
    port and with the same backend. *)
Definition keepsRecords (h h' : list Redirect) : Prop :=
  forall r rd, h !! r = Some rd ->
    exists rd', h' !! r = Some rd' /\ ProxyPort rd' = ProxyPort rd /\
      implementation rd' = implementation rd.

(** The invariant of the data model: reserved ports lie in the range, the
    record stored under a port listens on that port, and the port of every
    indexed redirect is reserved. *)
Definition Inv (w : World) : Prop :=
  (forall to r, allocatedPorts (proxy w) !! to = Some r ->
     rangeMin (proxy w) <= to <= rangeMax (proxy w) /\
     exists rd, heap w !! r = Some rd /\ ProxyPort rd = to) /\
  (forall id r, redirects (proxy w) !! id = Some r ->
     exists rd, heap w !! r = Some rd /\ is_Some (allocatedPorts (proxy w) !! ProxyPort rd)).

(** A release goroutine that has not returned yet. *)
Definition live (t : ReleaseTask) : Prop := task_pc t <> Finished.

(** What holds of every process the manager's operations can reach: the
    maps agree with the heap, no record is indexed twice, a port awaiting
    its release is still reserved for a record that is no longer indexed,
    and goroutine events belong to goroutines that exist. *)
Record WF (w : World) : Prop := {
  wf_redirects : forall id r, redirects (proxy w) !! id = Some r ->
    exists rd, heap w !! r = Some rd /\
      allocatedPorts (proxy w) !! ProxyPort rd = Some r /\
      is_Some (implementation rd);
  wf_allocated : forall to r, allocatedPorts (proxy w) !! to = Some r ->
    exists rd, heap w !! r = Some rd /\ ProxyPort rd = to;
  wf_indexed_once : forall id1 id2 r,
    redirects (proxy w) !! id1 = Some r -> redirects (proxy w) !! id2 = Some r -> id1 = id2;
  wf_tasks : forall tid t, releaseTasks w !! tid = Some t -> live t ->
    (exists rd, heap w !! task_redirect t = Some rd /\
       allocatedPorts (proxy w) !! ProxyPort rd = Some (task_redirect t)) /\
    (forall id, redirects (proxy w) !! id <> Some (task_redirect t));
  wf_tasks_once : forall tid1 tid2 t1 t2,
    releaseTasks w !! tid1 = Some t1 -> releaseTasks w !! tid2 = Some t2 ->
    live t1 -> live t2 -> task_redirect t1 = task_redirect t2 -> tid1 = tid2;
  wf_trace : forall te tid, te ∈ trace w -> eventTid (snd te) = Some tid ->
    (tid < length (releaseTasks w))%nat
}.

(** The reserved ports lie in the range. *)
Definition inRange (w : World) : Prop :=
  forall to, is_Some (allocatedPorts (proxy w) !! to) ->
    rangeMin (proxy w) <= to <= rangeMax (proxy w).

(** Where the release goroutine [tid], started when the clock read
    [removed] for the record at [r] listening on [to], can be, and what it
    has done so far: nothing while it sleeps, the cleanup of [to] once the
    grace interval is over, and the release of [to] after that. *)
Definition releaseProgress (tid : nat) (r : loc) (to : Z) (removed : Z) (w : World) : Prop :=
  removed <= clock w /\
  (exists rd, heap w !! r = Some rd /\ ProxyPort rd = to) /\
  exists t, releaseTasks w !! tid = Some t /\ task_redirect t = r /\
    match task_pc t with
    | Spawned => eventsOf tid (trace w) = []
    | Sleeping wake =>
        removed + portReleaseDelay <= wake /\ eventsOf tid (trace w) = []
    | Cleaned =>
        exists t1, removed + portReleaseDelay <= t1 <= clock w /\
          eventsOf tid (trace w) = [(t1, EvCleanupOnRedirectClose tid to)]
    | Finished =>
        exists t1 t2, removed + portReleaseDelay <= t1 <= t2 /\ t2 <= clock w /\
          eventsOf tid (trace w) =
            [(t1, EvCleanupOnRedirectClose tid to); (t2, EvPortReleased tid to)]
    end.

(** The release goroutine [tid] exists and stands at a place of [P]. *)
Definition releaseAt (tid : nat) (P : ReleasePc -> Prop) (w : World) : Prop :=
  exists t, releaseTasks w !! tid = Some t /\ P (task_pc t).

(** What bounds the release goroutine [tid], started for the record at [r]
    listening on [to]: its sleep ends [portReleaseDelay] from now at the
    latest, and once it has returned the port is not reserved for its
    record. *)
Definition releaseBound (tid : nat) (r : loc) (to : Z) (w : World) : Prop :=
  forall t, releaseTasks w !! tid = Some t ->
    match task_pc t with
    | Sleeping wake => wake <= clock w + portReleaseDelay
    | Finished => allocatedPorts (proxy w) !! to <> Some r
    | _ => True
    end.

(** The factory the [switch] of lines 198-207 calls for a filter whose
    parser type is Kafka or HTTP. *)
Definition factoryFor (l4 : L4Filter) (b : Backend)
    : nat -> Redirect -> result RedirectImplementation :=
  if decide (L7Parser l4 = ParserTypeKafka) then createKafkaRedirect b
  else createEnvoyRedirect b.

(** The record the create path builds for a filter, before a port and a
    backend are put in (lines 183-187). *)
Definition freshRedirect (l4 : L4Filter) (id : string) (src : EndpointInfoSource)
    (now : Z) : Redirect :=
  updateRules l4 (set_parserType (L7Parser l4) (set_ingress (Ingress l4)
    (set_endpointID (GetID src) (newRedirect (wrap16 (Port l4)) src id now)))).

(** The record at [r] is indexed, or awaited by a release goroutine that
    has not returned. *)
Definition held (w : World) (r : loc) : Prop :=
  (exists id, redirects (proxy w) !! id = Some r) \/
  (exists tid t, releaseTasks w !! tid = Some t /\ live t /\ task_redirect t = r).

(** A call of [proxymap.GC]. *)
Definition isGC (e : Event) : bool :=
  match e with EvProxymapGC => true | _ => false end.

(** When [proxymap.GC] was called, oldest first. *)
Definition gcTimes (tr : list (Z * Event)) : list Z :=
  fst <$> filter (fun te => Is_true (isGC (snd te))) tr.

(** Any two moments of the list, in their order, are at least [gcInterval]
    apart. *)
Definition spaced (ts : list Z) : Prop :=
  forall i j ti tj, (i < j)%nat -> ts !! i = Some ti -> ts !! j = Some tj ->
    ti + gcInterval <= tj.

(** What holds of the eviction loop at every moment: its calls of
    [proxymap.GC] are spaced, each came at least [gcInterval] after the loop
    was started, the loop does not exist before [gcOnce] has fired, and its
    next call is at least [gcInterval] after the last one and after its
    start. *)
Definition sweeperInv (w : World) : Prop :=
  spaced (gcTimes (trace w)) /\
  (forall t, t ∈ gcTimes (trace w) ->
     exists t0, (t0, EvGoSweeper) ∈ trace w /\ t0 + gcInterval <= t) /\
  (gcOnce w = false -> sweeper w = SweeperNone) /\
  match sweeper w with
  | SweeperNone => gcTimes (trace w) = []
  | SweeperSpawned =>
      gcTimes (trace w) = [] /\ exists t0, (t0, EvGoSweeper) ∈ trace w /\ t0 <= clock w
  | SweeperSleeping wake =>
      (forall t, t ∈ gcTimes (trace w) -> t + gcInterval <= wake) /\
      exists t0, (t0, EvGoSweeper) ∈ trace w /\ t0 + gcInterval <= wake
  end.

(** ** The status model

    [getRedirectStatusModel], [getRedirectsStatusModel] and
    [GetStatusModel], lines 275-319.  The structs of api/v1/models are not
    part of the sources; they are given the fields these functions fill. *)

(** Conversion to [int64]. *)
Definition int64 (z : Z) : Z := (z + 2 ^ 63) mod 2 ^ 64 - 2 ^ 63.

Module models.

Record Identity := {
  ID : Z;
  Labels : list string;
  LabelsSHA256 : string
}.

Record ProxyRedirectStatus := {
  Protocol : string;
  Port : Z;
  AllocatedProxyPort : Z;
  EndpointID : Z;
  EndpointIdentity : Identity;
  Location : string;
  Created : Z;
  LastUpdated : Z;
  Rules : list string
}.

Record ProxyStatus := {
  IP : string;
  PortRange : string;
  Redirects : list ProxyRedirectStatus
}.

End models.

Section Status.

(** [Redirect.getLocation] and [Redirect.getRulesModel] are defined in
    redirect.go and [node.GetInternalIPv4] in pkg/node, none of them part of
    the sources: what they return is a parameter. *)
Variable getLocation : Redirect -> string.
Variable getRulesModel : Redirect -> list string.
Variable internalIPv4 : string.

Definition getRedirectStatusModel (r : Redirect) : models.ProxyRedirectStatus :=
  {| models.Protocol := parserType r;
     models.Port := int64 (port r);
     models.AllocatedProxyPort := int64 (ProxyPort r);
     models.EndpointID := int64 (endpointID r);
     models.EndpointIdentity :=
       {| models.ID := int64 (GetIdentity (source r));
          models.Labels := GetLabels (source r);
          models.LabelsSHA256 := GetLabelsSHA (source r) |};
     models.Location := getLocation r;
     models.Created := created r;
     models.LastUpdated := lastUpdated r;
     models.Rules := getRulesModel r |}.

(** The loop over [p.redirects].  Go visits the entries of a map in an
    order of its choosing; here it is the order of [map_to_list], and
    nothing below depends on it.  [None] is the nil dereference of a pointer
    that points nowhere. *)
Definition getRedirectsStatusModel (w : World) : option (list models.ProxyRedirectStatus) :=
  mapM (fun r => getRedirectStatusModel <$> heap w !! r)
       (snd <$> map_to_list (redirects (proxy w))).

(** [fmt.Sprintf("%d-%d", p.rangeMin, p.rangeMax)]. *)
Definition portRangeString (p : Proxy) : string :=
  pretty (rangeMin p) +:+ "-" +:+ pretty (rangeMax p).

Definition GetStatusModel (w : World) : option models.ProxyStatus :=
  redirs ← getRedirectsStatusModel w;
  Some {| models.IP := internalIPv4;
          models.PortRange := portRangeString (proxy w);
          models.Redirects := redirs |}.

End Status.

(** Whether a string holds a minus sign. *)
Fixpoint hasDash (s : string) : bool :=
  match s with
  | EmptyString => false
  | String c s' => if decide (c = "-"%char) then true else hasDash s'
  end.

(** * Properties *)

(** ** The randomizer yields permutations *)

Lemma Intn_lt n g : (0 < n)%nat -> (fst (Intn n g) < n)%nat.
Proof.
  intros Hn. destruct g as [|x g]; simpl; [lia|].
  apply Nat.mod_upper_bound. lia.
Qed.

Lemma insert_snoc_Permutation (l : list nat) (j x y : nat) :
  l !! j = Some x -> <[j := y]> l ++ [x] ≡ₚ l ++ [y].
Proof.
  intros Hj.
  rewrite insert_take_drop by (eapply lookup_lt_Some; eauto).
  rewrite <- (take_drop_middle l j x Hj) at 3.
  rewrite <- !app_assoc. simpl.
  apply Permutation_app_head.
  rewrite <- !Permutation_cons_append. apply perm_swap.
Qed.

Lemma permFill_Permutation k : forall i m g,
  length m = (i + k)%nat ->
  take i m ≡ₚ seq 0 i ->
  fst (permFill k i m g) ≡ₚ seq 0 (i + k).
Proof.
  induction k as [|k IH]; intros i m g Hlen Hperm; simpl.
  - rewrite Nat.add_0_r in *. rewrite take_ge in Hperm by lia. exact Hperm.
  - pose proof (Intn_lt (i + 1) g ltac:(lia)) as Hj.
    destruct (Intn (i + 1) g) as [j g']. simpl in Hj.
    replace (i + S k)%nat with (S i + k)%nat by lia.
    apply IH; [rewrite !length_insert; lia|].
    destruct (decide (j = i)) as [->|Hne].
    + rewrite (take_S_r _ _ i) by (apply list_lookup_insert_eq; rewrite length_insert; lia).
      rewrite !take_insert_ge by lia.
      rewrite seq_S. simpl. by apply Permutation_app_tail.
    + assert (j < i)%nat as Hlt by lia.
      destruct (lookup_lt_is_Some_2 m j ltac:(lia)) as [x Hx].
      rewrite (list_lookup_total_correct _ _ _ Hx).
      rewrite (take_S_r _ _ x).
      2:{ rewrite list_lookup_insert_ne by done. apply list_lookup_insert_eq. lia. }
      rewrite take_insert_lt by lia. rewrite take_insert_ge by lia.
      rewrite seq_S. simpl.
      rewrite insert_snoc_Permutation by (rewrite lookup_take_lt by lia; done).
      by apply Permutation_app_tail.
Qed.

Lemma Perm_Permutation n g : fst (Perm n g) ≡ₚ seq 0 n.
Proof.
  unfold Perm. apply (permFill_Permutation n 0); [by rewrite length_replicate|done].
Qed.

Lemma elem_of_Perm n g r : r ∈ fst (Perm n g) <-> (r < n)%nat.
Proof.
  rewrite (Perm_Permutation n g), elem_of_seq. lia.
Qed.

(** ** Properties of allocatePort *)

Lemma firstFree_Some rmin (allocated : gmap Z loc) perm to :
  firstFree rmin allocated perm = Some to ->
  allocated !! to = None /\ exists r, r ∈ perm /\ to = resPort rmin r.
Proof.
  induction perm as [|r perm IH]; simpl; [discriminate|].
  destruct (allocated !! resPort rmin r) eqn:Hr.
  - intros H. destruct (IH H) as (Hto & r' & Hin & ->).
    split; [done|]. exists r'. split; [by right|done].
  - intros [= <-]. split; [done|]. exists r. split; [by left|done].
Qed.

Lemma firstFree_None rmin (allocated : gmap Z loc) perm :
  firstFree rmin allocated perm = None <->
  forall r, r ∈ perm -> is_Some (allocated !! resPort rmin r).
Proof.
  induction perm as [|r perm IH]; simpl.
  - split; [|done]. intros _ r Hr. by apply elem_of_nil in Hr.
  - destruct (allocated !! resPort rmin r) eqn:Hr.
    + rewrite IH. split.
      * intros H r' [->|Hin]%elem_of_cons; [by rewrite Hr|by apply H].
      * intros H r' Hin. apply H. by right.
    + split; [discriminate|]. intros H.
      destruct (H r ltac:(by left)) as [x Hx]. congruence.
Qed.

Lemma allocatePort_rand p g : snd (allocatePort p g) = snd (Perm (rangeSize p) g).
Proof.
  unfold allocatePort. destruct (Perm _ _) as [perm g']. simpl.
  by destruct (firstFree _ _ _).
Qed.

Lemma allocatePort_Ok p g to g' :
  allocatePort p g = (Ok to, g') ->
  allocatedPorts p !! to = None /\
  exists r, (r < rangeSize p)%nat /\ to = resPort (rangeMin p) r.
Proof.
  unfold allocatePort. pose proof (elem_of_Perm (rangeSize p) g) as Hperm.
  destruct (Perm _ _) as [perm g1]. simpl in Hperm.
  destruct (firstFree _ _ _) as [to'|] eqn:Hff; [|discriminate].
  intros [= <- <-]. apply firstFree_Some in Hff as (Hto & r & Hin & ->).
  split; [done|]. exists r. by rewrite <- Hperm.
Qed.

Lemma allocatePort_Err p g e g' :
  allocatePort p g = (Err e, g') ->
  e = ErrNoAvailablePorts /\
  forall r, (r < rangeSize p)%nat -> is_Some (allocatedPorts p !! resPort (rangeMin p) r).
Proof.
  unfold allocatePort. pose proof (elem_of_Perm (rangeSize p) g) as Hperm.
  destruct (Perm _ _) as [perm g1]. simpl in Hperm.
  destruct (firstFree _ _ _) as [to'|] eqn:Hff; [discriminate|].
  intros [= <- <-]. split; [done|]. intros r Hr.
  rewrite firstFree_None in Hff. apply Hff. by rewrite Hperm.
Qed.

Lemma allocatePort_exhausted p g :
  (forall r, (r < rangeSize p)%nat -> is_Some (allocatedPorts p !! resPort (rangeMin p) r)) ->
  fst (allocatePort p g) = Err ErrNoAvailablePorts.
Proof.
  intros H. destruct (allocatePort p g) as [[to|e] g'] eqn:Ha; simpl.
  - apply allocatePort_Ok in Ha as (Hto & r & Hr & ->).
    destruct (H r Hr) as [x Hx]. congruence.
  - by apply allocatePort_Err in Ha as [-> _].
Qed.

(** The offsets of a range that is well formed stay inside it. *)
Lemma rangeSize_le p :
  is_uint16 (rangeMin p) -> is_uint16 (rangeMax p) -> rangeMin p <= rangeMax p ->
  Z.of_nat (rangeSize p) <= rangeMax p - rangeMin p + 1.
Proof.
  unfold rangeSize, wrap16, is_uint16. intros Hmin Hmax Hle.
  rewrite (Z.mod_small (rangeMax p - rangeMin p)) by lia.
  rewrite Z2Nat.id by (apply Z.mod_pos_bound; lia).
  apply Z.mod_le; lia.
Qed.

Lemma rangeSize_small p :
  is_uint16 (rangeMin p) -> is_uint16 (rangeMax p) -> rangeMin p <= rangeMax p ->
  rangeMax p - rangeMin p < 65535 ->
  Z.of_nat (rangeSize p) = rangeMax p - rangeMin p + 1.
Proof.
  unfold rangeSize, wrap16, is_uint16. intros Hmin Hmax Hle Hlt.
  rewrite (Z.mod_small (rangeMax p - rangeMin p)) by lia.
  rewrite Z.mod_small by lia. lia.
Qed.

Lemma resPort_in_range p r :
  is_uint16 (rangeMin p) -> is_uint16 (rangeMax p) -> rangeMin p <= rangeMax p ->
  (r < rangeSize p)%nat ->
  resPort (rangeMin p) r = rangeMin p + Z.of_nat r /\
  rangeMin p <= resPort (rangeMin p) r <= rangeMax p.
Proof.
  intros Hmin Hmax Hle Hr. pose proof (rangeSize_le p Hmin Hmax Hle).
  unfold resPort, wrap16, is_uint16 in *.
  rewrite (Z.mod_small (Z.of_nat r)) by lia.
  rewrite Z.mod_small by lia. lia.
Qed.

Lemma allocatePort_in_range p g to g' :
  is_uint16 (rangeMin p) -> is_uint16 (rangeMax p) -> rangeMin p <= rangeMax p ->
  allocatePort p g = (Ok to, g') ->
  rangeMin p <= to <= rangeMax p /\ allocatedPorts p !! to = None.
Proof.
  intros Hmin Hmax Hle (Hto & r & Hr & ->)%allocatePort_Ok.
  split; [|done]. by apply resPort_in_range.
Qed.

Lemma allocatePort_all_reserved p g :
  is_uint16 (rangeMin p) -> is_uint16 (rangeMax p) -> rangeMin p <= rangeMax p ->
  (forall to, rangeMin p <= to <= rangeMax p -> is_Some (allocatedPorts p !! to)) ->
  fst (allocatePort p g) = Err ErrNoAvailablePorts.
Proof.
  intros Hmin Hmax Hle Hall. apply allocatePort_exhausted. intros r Hr.
  apply Hall. by apply resPort_in_range.
Qed.

Lemma allocatePort_free p g to :
  is_uint16 (rangeMin p) -> is_uint16 (rangeMax p) -> rangeMin p <= rangeMax p ->
  rangeMax p - rangeMin p < 65535 ->
  rangeMin p <= to <= rangeMax p -> allocatedPorts p !! to = None ->
  exists to', fst (allocatePort p g) = Ok to'.
Proof.
  intros Hmin Hmax Hle Hsmall Hto Hfree.
  destruct (allocatePort p g) as [[to'|e] g'] eqn:Ha; simpl; [by eexists|].
  apply allocatePort_Err in Ha as [_ Hall].
  pose proof (rangeSize_small p Hmin Hmax Hle Hsmall) as Hsz.
  destruct (Hall (Z.to_nat (to - rangeMin p)) ltac:(lia)) as [x Hx].
  destruct (resPort_in_range p (Z.to_nat (to - rangeMin p))) as [Heq _]; try done; [lia|].
  rewrite Heq in Hx. replace (rangeMin p + _) with to in Hx by lia. congruence.
Qed.

(** [allocatePort] on a well-formed range of fewer than 65536 ports returns
    a port of the range that is not reserved, or its error, and the error
    exactly when every port of the range is reserved. *)
Theorem allocatePort_spec p g :
  is_uint16 (rangeMin p) -> is_uint16 (rangeMax p) -> rangeMin p <= rangeMax p ->
  rangeMax p - rangeMin p < 65535 ->
  (exists to, fst (allocatePort p g) = Ok to /\
     rangeMin p <= to <= rangeMax p /\ allocatedPorts p !! to = None) \/
  (fst (allocatePort p g) = Err ErrNoAvailablePorts /\
     forall to, rangeMin p <= to <= rangeMax p -> is_Some (allocatedPorts p !! to)).
Proof.
  intros Hmin Hmax Hle Hsmall.
  destruct (allocatePort p g) as [[to|e] g'] eqn:Ha; simpl.
  - left. exists to. split; [done|]. by eapply allocatePort_in_range.
  - right. apply allocatePort_Err in Ha as [-> Hall]. split; [done|].
    intros to Hto.
    pose proof (rangeSize_small p Hmin Hmax Hle Hsmall) as Hsz.
    destruct (resPort_in_range p (Z.to_nat (to - rangeMin p))) as [Heq _]; try done; [lia|].
    specialize (Hall (Z.to_nat (to - rangeMin p)) ltac:(lia)).
    rewrite Heq in Hall. by replace (rangeMin p + _) with to in Hall by lia.
Qed.

(** C2 (what the code does).  On the range [0, 65535], which satisfies
    [rangeMin <= rangeMax], the length of the permutation,
    [p.rangeMax - p.rangeMin + 1] computed in [uint16], wraps to 0: the loop
    has nothing to try, and [allocatePort] returns its error although no
    port is reserved (port 0, for one, is free). *)
Theorem allocatePort_full_range_fails dir g :
  let p := StartProxySupport 0 65535 dir in
  rangeMin p <= rangeMax p /\
  allocatedPorts p !! 0 = None /\
  fst (allocatePort p g) = Err ErrNoAvailablePorts.
Proof.
  split; [simpl; lia|]. split; [done|].
  apply allocatePort_exhausted. intros r Hr. exfalso. revert Hr.
  unfold rangeSize; simpl. unfold wrap16.
  change ((65535 - 0) mod 65536) with 65535.
  change ((65535 + 1) mod 65536) with 0. simpl. lia.
Qed.

(** ** The retry loop *)

Lemma retryCreatePort_clause l4 id b n redir w (a : Attempt)
    (e : attempt l4 id b n redir w = a) :
  retryCreatePort_unfold_clause_1 l4 id b n redir w (a ↾ e) =
  match a with
  | Done w' res => (w', res)
  | Retry redir' w' => retryCreatePort l4 id b (S n) redir' w'
  end.
Proof. destruct a; by simp retryCreatePort. Qed.

Lemma retryCreatePort_step l4 id b n redir w :
  retryCreatePort l4 id b n redir w =
  match attempt l4 id b n redir w with
  | Done w' res => (w', res)
  | Retry redir' w' => retryCreatePort l4 id b (S n) redir' w'
  end.
Proof.
  rewrite retryCreatePort_equation_1. unfold Logic.inspect.
  apply retryCreatePort_clause.
Qed.

(** Whatever holds of the way every iteration leaves, and is carried back
    over an iteration that goes round again, holds of the loop. *)
Lemma retryCreatePort_induction l4 id b
    (P : nat -> Redirect -> World -> World * outcome (result loc) -> Prop) :
  (forall n redir w w' res,
      attempt l4 id b n redir w = Done w' res -> P n redir w (w', res)) ->
  (forall n redir w redir' w' out,
      attempt l4 id b n redir w = Retry redir' w' ->
      P (S n) redir' w' out -> P n redir w out) ->
  forall n redir w, P n redir w (retryCreatePort l4 id b n redir w).
Proof.
  intros Hdone Hretry n.
  remember (redirectCreationAttempts - n)%nat as k eqn:Hk.
  revert n Hk. induction k as [k IH] using lt_wf_ind. intros n Hk redir w.
  rewrite retryCreatePort_step.
  destruct (attempt l4 id b n redir w) as [w' res|redir' w'] eqn:Ha.
  - by apply Hdone.
  - eapply Hretry; [exact Ha|].
    apply attempt_Retry_lt in Ha.
    apply (IH (redirectCreationAttempts - S n)%nat); [lia|done].
Qed.

(** ** Frames and traces *)

Lemma frame_refl w : frame w w.
Proof. by repeat split. Qed.

Lemma frame_trans w1 w2 w3 : frame w1 w2 -> frame w2 w3 -> frame w1 w3.
Proof. intros (?&?&?) (?&?&?). repeat split; congruence. Qed.

Lemma frame_set_portRandomizer g w : frame w (set_portRandomizer g w).
Proof. by repeat split. Qed.

Lemma frame_emit e w : frame w (emit e w).
Proof. by repeat split. Qed.

Lemma frame_clock w w' : frame w w' -> clock w' = clock w.
Proof. intros (_&_&H). unfold ambient in H. congruence. Qed.

Lemma frame_releaseTasks w w' : frame w w' -> releaseTasks w' = releaseTasks w.
Proof. intros (_&_&H). unfold ambient in H. congruence. Qed.

Lemma frame_gcOnce w w' : frame w w' -> gcOnce w' = gcOnce w.
Proof. intros (_&_&H). unfold ambient in H. congruence. Qed.

Lemma published_frame_l id r to rd w1 w2 w3 :
  frame w1 w2 -> published id r to rd w2 w3 -> published id r to rd w1 w3.
Proof.
  intros (Hp&Hh&Ha) (?&?&?&?&?&?). unfold published.
  rewrite <- Hp, <- Hh, <- Ha. done.
Qed.

Lemma constructed_refl w : constructed 0 w w.
Proof. exists []. by rewrite app_nil_r. Qed.

Lemma constructed_trans j k w1 w2 w3 :
  constructed j w1 w2 -> constructed k w2 w3 -> constructed (j + k) w1 w3.
Proof.
  intros (e1&H1&L1&F1) (e2&H2&L2&F2). exists (e1 ++ e2).
  rewrite H2, H1, <- app_assoc, length_app, Forall_app. auto with lia.
Qed.

Lemma constructed_trace_eq w w' : trace w' = trace w -> constructed 0 w w'.
Proof. intros H. exists []. by rewrite app_nil_r. Qed.

Lemma constructed_emit e w :
  isConstruction e = true -> constructed 1 w (emit e w).
Proof.
  intros He. exists [(clock w, e)]. split; [done|split; [done|]].
  apply Forall_singleton. simpl. by rewrite He.
Qed.

Lemma constructionAttempts_app tr1 tr2 :
  constructionAttempts (tr1 ++ tr2) =
  (constructionAttempts tr1 + constructionAttempts tr2)%nat.
Proof. unfold constructionAttempts. by rewrite filter_app, length_app. Qed.

Lemma constructed_attempts k w w' :
  constructed k w w' ->
  constructionAttempts (trace w') = (constructionAttempts (trace w) + k)%nat.
Proof.
  intros (evs&->&<-&Hall). rewrite constructionAttempts_app. f_equal.
  unfold constructionAttempts. induction Hall as [|te evs Hte _ IH]; [done|].
  rewrite filter_cons_True by done. simpl. by rewrite IH.
Qed.

Lemma isConstruction_quiet e : isConstruction e = true -> quiet e.
Proof. by destruct e. Qed.

Lemma filter_none {A} (P : A -> Prop) `{!forall x, Decision (P x)} (l : list A) :
  Forall (fun x => ~ P x) l -> filter P l = [].
Proof.
  induction 1 as [|x l Hx _ IH]; [done|]. by rewrite filter_cons_False.
Qed.

Lemma quietly_refl w : quietly w w.
Proof. exists []. by rewrite app_nil_r. Qed.

Lemma quietly_trans w1 w2 w3 : quietly w1 w2 -> quietly w2 w3 -> quietly w1 w3.
Proof.
  intros (e1&H1&F1) (e2&H2&F2). exists (e1 ++ e2).
  by rewrite H2, H1, <- app_assoc, Forall_app.
Qed.

Lemma quietly_trace_eq w w' : trace w' = trace w -> quietly w w'.
Proof. intros H. exists []. by rewrite app_nil_r. Qed.

Lemma quietly_emit e w : quiet e -> quietly w (emit e w).
Proof. intros He. exists [(clock w, e)]. split; [done|]. by apply Forall_singleton. Qed.

Lemma constructed_quietly k w w' : constructed k w w' -> quietly w w'.
Proof.
  intros (evs&Htr&_&Hall). exists evs. split; [done|].
  eapply Forall_impl; [exact Hall|]. intros te Hte.
  apply isConstruction_quiet. by apply Is_true_true.
Qed.

Lemma quietly_eventsOf w w' tid :
  quietly w w' -> eventsOf tid (trace w') = eventsOf tid (trace w).
Proof.
  intros (evs&->&Hall). unfold eventsOf.
  rewrite filter_app, (filter_none _ evs); [by rewrite app_nil_r|].
  eapply Forall_impl; [exact Hall|]. intros te [Hte _]. by rewrite Hte.
Qed.

Lemma quietly_initEvents w w' :
  quietly w w' -> initEvents (trace w') = initEvents (trace w).
Proof.
  intros (evs&->&Hall). unfold initEvents.
  rewrite filter_app, (filter_none _ evs); [by rewrite app_nil_r|].
  eapply Forall_impl; [exact Hall|]. intros te [_ Hte]. rewrite Hte. simpl. tauto.
Qed.

Lemma quietly_elem_of w w' te :
  quietly w w' -> te ∈ trace w' -> te ∈ trace w \/ eventTid (snd te) = None.
Proof.
  intros (evs&->&Hall) [Hin|Hin]%elem_of_app; [by left|right].
  rewrite Forall_forall in Hall. by apply Hall.
Qed.

(** ** One iteration of the retry loop *)

Lemma construct_spec l4 b n redir w w1 res :
  construct l4 b n redir w = Some (w1, res) ->
  frame w w1 /\ constructed 1 w w1 /\ portRandomizer w1 = portRandomizer w /\
  ((L7Parser l4 = ParserTypeKafka /\ res = createKafkaRedirect b n redir) \/
   (L7Parser l4 = ParserTypeHTTP /\ res = createEnvoyRedirect b n redir)).
Proof.
  unfold construct.
  destruct (decide (L7Parser l4 = ParserTypeKafka));
    [|destruct (decide (L7Parser l4 = ParserTypeHTTP)); [|discriminate]];
    intros Heq; inversion Heq; subst;
    (split; [apply frame_emit|]); (split; [by apply constructed_emit|]);
    (split; [done|]); auto.
Qed.

Lemma construct_None l4 b n redir w :
  construct l4 b n redir w = None <->
  L7Parser l4 <> ParserTypeKafka /\ L7Parser l4 <> ParserTypeHTTP.
Proof.
  unfold construct.
  destruct (decide (L7Parser l4 = ParserTypeKafka)) as [Hk|Hk];
    [split; [discriminate|tauto]|].
  destruct (decide (L7Parser l4 = ParserTypeHTTP)) as [Hh|Hh];
    [split; [discriminate|tauto]|].
  split; auto.
Qed.

Lemma attempt_Retry l4 id b n redir w redir' w' :
  attempt l4 id b n redir w = Retry redir' w' ->
  frame w w' /\ constructed 1 w w' /\ (n < redirectCreationAttempts)%nat.
Proof.
  intros H. pose proof (attempt_Retry_lt _ _ _ _ _ _ _ _ H) as Hlt.
  revert H. unfold attempt.
  destruct (allocatePort _ _) as [[to|err] g]; [|discriminate].
  destruct (construct _ _ _ _ _) as [[w1 [impl|err]]|] eqn:Hc; try discriminate.
  case_decide; [discriminate|]. intros [= <- <-].
  apply construct_spec in Hc as (Hf&Hc&_). split; [|split; [|done]].
  - eapply frame_trans; [apply (frame_set_portRandomizer g)|done].
  - destruct Hc as (evs&?&?&?). by exists evs.
Qed.

Lemma attempt_Err l4 id b n redir w w' e :
  attempt l4 id b n redir w = Done w' (Returns (Err e)) ->
  frame w w' /\ (constructed 0 w w' \/ constructed 1 w w').
Proof.
  unfold attempt.
  destruct (allocatePort _ _) as [[to|err] g].
  - destruct (construct _ _ _ _ _) as [[w1 [impl|err]]|] eqn:Hc; try discriminate.
    + case_decide; [|discriminate]. intros [= <- <-].
      apply construct_spec in Hc as (Hf&Hc&_). split.
      * eapply frame_trans; [apply (frame_set_portRandomizer g)|done].
      * right. destruct Hc as (evs&?&?&?). by exists evs.
    + intros [= <- <-]. split; [apply frame_set_portRandomizer|].
      left. by apply constructed_trace_eq.
  - intros [= <- <-]. split; [apply frame_set_portRandomizer|].
    left. by apply constructed_trace_eq.
Qed.

Lemma attempt_Ok l4 id b n redir w w' r :
  attempt l4 id b n redir w = Done w' (Returns (Ok r)) ->
  exists to rd,
    published id r to rd w w' /\ constructed 1 w w' /\
    allocatedPorts (proxy w) !! to = None /\
    exists k, (k < rangeSize (proxy w))%nat /\ to = resPort (rangeMin (proxy w)) k.
Proof.
  unfold attempt.
  destruct (allocatePort _ _) as [[to|err] g] eqn:Ha; [|discriminate].
  destruct (construct _ _ _ _ _) as [[w1 [impl|err]]|] eqn:Hc; try discriminate.
  2:{ case_decide; discriminate. }
  intros [= <- <-].
  apply construct_spec in Hc as ((Hp&Hh&Hamb)&Hc&_).
  apply allocatePort_Ok in Ha as (Hfree&k&Hk&Hto).
  exists to, (set_implementation impl (set_ProxyPort to redir)).
  split; [|split; [|split; [done|by exists k]]].
  - unfold published, ambient in *. simpl in *. rewrite Hh, Hp. repeat split; eauto.
  - destruct Hc as (evs&?&?&?). by exists evs.
Qed.

Lemma attempt_no_panic l4 id b n redir w w' :
  attempt l4 id b n redir w <> Done w' Panics.
Proof.
  unfold attempt.
  destruct (allocatePort _ _) as [[to|err] g]; [|discriminate].
  destruct (construct _ _ _ _ _) as [[w1 [impl|err]]|]; try discriminate.
  case_decide; discriminate.
Qed.

(** ** The create path *)

(** The loop either fails and leaves the manager, the heap and the
    goroutines as they were, or publishes one record on a port that was
    free; in between it only calls the factories. *)
Lemma retryCreatePort_spec l4 id b n redir w :
  let '(w', out) := retryCreatePort l4 id b n redir w in
  (exists k, constructed k w w') /\
  match out with
  | Returns (Err e) => frame w w'
  | Returns (Ok r) =>
      exists to rd, published id r to rd w w' /\
        allocatedPorts (proxy w) !! to = None /\
        exists k, (k < rangeSize (proxy w))%nat /\ to = resPort (rangeMin (proxy w)) k
  | Panics => False
  end.
Proof.
  apply (retryCreatePort_induction l4 id b
    (fun n redir w out =>
       let '(w', out) := out in
       (exists k, constructed k w w') /\
       match out with
       | Returns (Err e) => frame w w'
       | Returns (Ok r) =>
           exists to rd, published id r to rd w w' /\
             allocatedPorts (proxy w) !! to = None /\
             exists k, (k < rangeSize (proxy w))%nat /\ to = resPort (rangeMin (proxy w)) k
       | Panics => False
       end)).
  - intros n0 redir0 w0 w' [[r|e]|] Ha.
    + apply attempt_Ok in Ha as (to&rd&Hpub&Hc&Hfree&Hk). split; [by exists 1%nat|].
      by exists to, rd.
    + apply attempt_Err in Ha as (Hf&[Hc|Hc]); (split; [eauto|done]).
    + by apply attempt_no_panic in Ha.
  - intros n0 redir0 w0 redir' w1 [w' out] Ha [(k&Hk) IH].
    apply attempt_Retry in Ha as (Hf&Hc&_). split.
    + exists (1 + k)%nat. by eapply constructed_trans.
    + destruct out as [[r|e]|]; [|by eapply frame_trans|done].
      destruct IH as (to&rd&Hpub&Hfree&Hk').
      destruct Hf as (Hp&Hh&Ha). rewrite Hp in Hfree, Hk'.
      exists to, rd. split; [|done]. by eapply published_frame_l.
Qed.

(** ** gcOnce *)

Lemma gcOnceDo_frame notifier w :
  proxy (gcOnceDo notifier w) = proxy w /\
  heap (gcOnceDo notifier w) = heap w /\
  portRandomizer (gcOnceDo notifier w) = portRandomizer w /\
  clock (gcOnceDo notifier w) = clock w /\
  releaseTasks (gcOnceDo notifier w) = releaseTasks w /\
  accessLog (gcOnceDo notifier w) = accessLog w /\
  agentLabels (gcOnceDo notifier w) = agentLabels w.
Proof.
  unfold gcOnceDo. destruct (gcOnce w); [done|]. cbn.
  destruct (decide (accessLog w = _)); cbn;
    destruct (agentLabels w) eqn:Hl; cbn; rewrite ?Hl; done.
Qed.

Lemma gcOnceDo_done notifier w : gcOnce (gcOnceDo notifier w) = true.
Proof. unfold gcOnceDo. by destruct (gcOnce w) eqn:H. Qed.

(** [gcOnce.Do] adds the events of one run of its function the first time,
    and nothing afterwards. *)
Lemma gcOnceDo_trace notifier w :
  exists evs, trace (gcOnceDo notifier w) = trace w ++ evs /\
    snd <$> evs = (if gcOnce w then []
                   else initBlock notifier (accessLog w) (agentLabels w)).
Proof.
  unfold gcOnceDo, initBlock. destruct (gcOnce w); [exists []; by rewrite app_nil_r|].
  cbn. destruct (decide (accessLog w = _)) as [Hlf|Hlf]; cbn;
    destruct (agentLabels w) eqn:Hl; cbn; rewrite <- ?app_assoc;
    eexists; (split; [reflexivity|]); cbn; by rewrite ?Hl.
Qed.

Lemma initBlock_isInit notifier lf labels :
  Forall (fun e => isInit e = true) (initBlock notifier lf labels).
Proof.
  unfold initBlock. repeat first [apply Forall_app; split | apply Forall_cons; split | apply Forall_nil];
    try done; [destruct (decide _)|destruct labels]; repeat constructor.
Qed.

Lemma isInit_eventTid e : isInit e = true -> eventTid e = None.
Proof. by destruct e. Qed.

Lemma isInit_isConstruction e : isInit e = true -> isConstruction e = false.
Proof. by destruct e. Qed.

Lemma gcOnceDo_init_only notifier w :
  exists evs, trace (gcOnceDo notifier w) = trace w ++ evs /\
    Forall (fun te => isInit (snd te) = true) evs.
Proof.
  destruct (gcOnceDo_trace notifier w) as (evs&Htr&Hevs). exists evs. split; [done|].
  assert (Forall (fun e => isInit e = true) (snd <$> evs)) as H.
  { rewrite Hevs. destruct (gcOnce w); [constructor|apply initBlock_isInit]. }
  by rewrite Forall_fmap in H.
Qed.

Lemma gcOnceDo_constructionAttempts notifier w :
  constructionAttempts (trace (gcOnceDo notifier w)) = constructionAttempts (trace w).
Proof.
  destruct (gcOnceDo_init_only notifier w) as (evs&->&Hall).
  rewrite constructionAttempts_app.
  assert (constructionAttempts evs = 0%nat) as ->; [|lia].
  unfold constructionAttempts. rewrite filter_none; [done|].
  eapply Forall_impl; [exact Hall|]. intros te Hte.
  rewrite (isInit_isConstruction _ Hte). simpl. tauto.
Qed.

Lemma gcOnceDo_eventsOf notifier w tid :
  eventsOf tid (trace (gcOnceDo notifier w)) = eventsOf tid (trace w).
Proof.
  destruct (gcOnceDo_init_only notifier w) as (evs&->&Hall).
  unfold eventsOf. rewrite filter_app, (filter_none _ evs); [by rewrite app_nil_r|].
  eapply Forall_impl; [exact Hall|]. intros te Hte.
  by rewrite (isInit_eventTid _ Hte).
Qed.

Lemma gcOnceDo_elem_of notifier w te :
  te ∈ trace (gcOnceDo notifier w) -> te ∈ trace w \/ eventTid (snd te) = None.
Proof.
  destruct (gcOnceDo_init_only notifier w) as (evs&->&Hall).
  intros [Hin|Hin]%elem_of_app; [by left|right].
  rewrite Forall_forall in Hall. apply isInit_eventTid. by apply Hall.
Qed.

(** ** The update path *)

Lemma updateExisting_mismatch l4 wg b r rd w :
  parserType rd <> L7Parser l4 ->
  updateExisting l4 wg b r rd w =
    (w, Returns (Err (ErrInvalidType (L7Parser l4) (parserType rd)))).
Proof. intros H. unfold updateExisting. by rewrite decide_False. Qed.

Lemma updateExisting_Ok l4 wg b r rd w w' r' :
  heap w !! r = Some rd ->
  updateExisting l4 wg b r rd w = (w', Returns (Ok r')) ->
  r' = r /\ proxy w' = proxy w /\ ambient w' = ambient w /\
  portRandomizer w' = portRandomizer w /\
  heap w' = <[r := set_lastUpdated (clock w) (updateRules l4 rd)]> (heap w).
Proof.
  intros Hr. unfold updateExisting. case_decide; [|discriminate].
  simpl. destruct (implementation rd) as [impl|]; [|discriminate].
  destruct (UpdateRules b impl wg); [discriminate|].
  intros [= <- <-]. simpl. by rewrite list_insert_insert_eq.
Qed.

Lemma updateExisting_Err l4 wg b r rd w impl err :
  parserType rd = L7Parser l4 ->
  implementation rd = Some impl ->
  UpdateRules b impl wg = Some err ->
  exists w', updateExisting l4 wg b r rd w = (w', Returns (Err err)) /\
    proxy w' = proxy w /\ ambient w' = ambient w /\
    portRandomizer w' = portRandomizer w /\
    heap w' = <[r := updateRules l4 rd]> (heap w).
Proof.
  intros Hp Hi Hu. unfold updateExisting. rewrite decide_True by done.
  simpl. rewrite Hi, Hu. eexists. split; [reflexivity|done].
Qed.

(** The update path writes only the record it was called for, and leaves
    its port, its backend and the maps alone. *)
Lemma updateExisting_heap l4 wg b r rd w :
  let w' := fst (updateExisting l4 wg b r rd w) in
  proxy w' = proxy w /\ ambient w' = ambient w /\ quietly w w' /\
  (heap w' = heap w \/
   exists rd', heap w' = <[r := rd']> (heap w) /\
     ProxyPort rd' = ProxyPort rd /\ implementation rd' = implementation rd).
Proof.
  unfold updateExisting. case_decide.
  2:{ simpl. repeat split; [apply quietly_refl|by left]. }
  simpl. destruct (implementation rd) as [impl|] eqn:Hi; simpl.
  2:{ repeat split; [by apply quietly_trace_eq|right; by eexists]. }
  destruct (UpdateRules b impl wg); simpl.
  - repeat split; [|right; by eexists].
    exists [(clock w, EvUpdateRules impl wg)]. split; [done|]. by apply Forall_singleton.
  - repeat split; [|right; rewrite list_insert_insert_eq; by eexists].
    exists [(clock w, EvUpdateRules impl wg)]. split; [done|]. by apply Forall_singleton.
Qed.

(** ** CreateOrUpdateRedirect on an identifier that is present *)

(** C4.  For an identifier that is present, a call whose filter asks for
    another parser type than the redirect's returns the "invalid type"
    error, and the manager (both maps), the heap (so the redirect's rule
    set, proxy port, parser type and timestamps), the randomizer and the
    goroutines are exactly as before the call. *)
Theorem update_parser_mismatch l4 id src notifier wg b w r rd :
  redirects (proxy w) !! id = Some r ->
  heap w !! r = Some rd ->
  parserType rd <> L7Parser l4 ->
  exists w',
    CreateOrUpdateRedirect l4 id src notifier wg b w =
      (w', Returns (Err (ErrInvalidType (L7Parser l4) (parserType rd)))) /\
    proxy w' = proxy w /\ heap w' = heap w /\ heap w' !! r = Some rd /\
    portRandomizer w' = portRandomizer w /\ releaseTasks w' = releaseTasks w.
Proof.
  intros Hid Hr Hne.
  destruct (gcOnceDo_frame notifier w) as (Hp&Hh&Hg&_&Ht&_).
  exists (gcOnceDo notifier w).
  unfold CreateOrUpdateRedirect, createOrUpdateLocked.
  rewrite Hp, Hid, Hh, Hr. rewrite updateExisting_mismatch by done.
  repeat split; done.
Qed.

(** C6.  For an identifier that is present with the parser type asked for,
    a call that succeeds returns the record that was there, with its rule
    set replaced by the filter's and [lastUpdated] set to the time of the
    call; its proxy port and [created], every other record and both maps
    are as before. *)
Theorem update_replaces_rules l4 id src notifier wg b w r rd w' r' :
  redirects (proxy w) !! id = Some r ->
  heap w !! r = Some rd ->
  parserType rd = L7Parser l4 ->
  CreateOrUpdateRedirect l4 id src notifier wg b w = (w', Returns (Ok r')) ->
  r' = r /\ proxy w' = proxy w /\
  heap w' = <[r := set_lastUpdated (clock w) (set_rules (L7RulesPerEp l4) rd)]> (heap w) /\
  exists rd', heap w' !! r = Some rd' /\
    rules rd' = L7RulesPerEp l4 /\ lastUpdated rd' = clock w /\
    ProxyPort rd' = ProxyPort rd /\ created rd' = created rd /\
    parserType rd' = parserType rd.
Proof.
  intros Hid Hr Hp.
  destruct (gcOnceDo_frame notifier w) as (Hp0&Hh0&_&Hc0&_).
  unfold CreateOrUpdateRedirect, createOrUpdateLocked.
  rewrite Hp0, Hid, Hh0, Hr. intros Hu.
  apply updateExisting_Ok in Hu as (->&Hp1&_&_&Hh1); [|by rewrite Hh0].
  rewrite Hc0, Hh0 in Hh1. unfold updateRules in Hh1.
  split; [done|]. split; [by rewrite Hp1|]. split; [done|].
  eexists. split.
  - rewrite Hh1. apply list_lookup_insert_eq. by eapply lookup_lt_Some.
  - done.
Qed.

(** C10.  For an identifier that is present with the parser type asked
    for, when the backend's [UpdateRules] returns an error the call returns
    that error; the record already holds the filter's rule set, its
    [lastUpdated] is the old one, it is still indexed under the identifier,
    and the reserved ports are as before. *)
Theorem update_failure_keeps_new_rules l4 id src notifier wg b w r rd impl err :
  redirects (proxy w) !! id = Some r ->
  heap w !! r = Some rd ->
  parserType rd = L7Parser l4 ->
  implementation rd = Some impl ->
  UpdateRules b impl wg = Some err ->
  exists w' rd',
    CreateOrUpdateRedirect l4 id src notifier wg b w = (w', Returns (Err err)) /\
    heap w' !! r = Some rd' /\
    rules rd' = L7RulesPerEp l4 /\ lastUpdated rd' = lastUpdated rd /\
    ProxyPort rd' = ProxyPort rd /\
    redirects (proxy w') !! id = Some r /\
    allocatedPorts (proxy w') = allocatedPorts (proxy w).
Proof.
  intros Hid Hr Hp Hi Hu.
  destruct (gcOnceDo_frame notifier w) as (Hp0&Hh0&_&Hc0&_).
  destruct (updateExisting_Err l4 wg b r rd (gcOnceDo notifier w) impl err)
    as (w'&Hupd&Hp1&_&_&Hh1); try done.
  exists w', (updateRules l4 rd).
  unfold CreateOrUpdateRedirect, createOrUpdateLocked.
  rewrite Hp0, Hid, Hh0, Hr. split; [done|].
  rewrite Hh1, Hh0, Hp1, Hp0. split; [|done].
  apply list_lookup_insert_eq. by eapply lookup_lt_Some.
Qed.

(** ** CreateOrUpdateRedirect on an identifier that is absent *)

Lemma createOrUpdateLocked_absent l4 id src wg b w :
  redirects (proxy w) !! id = None ->
  createOrUpdateLocked l4 id src wg b w =
  retryCreatePort l4 id b 0
    (updateRules l4 (set_parserType (L7Parser l4) (set_ingress (Ingress l4)
       (set_endpointID (GetID src) (newRedirect (wrap16 (Port l4)) src id (clock w))))))
    w.
Proof. intros H. unfold createOrUpdateLocked. by rewrite H. Qed.

(** When the allocation of the first iteration fails, the loop is left at
    once. *)
Lemma retryCreatePort_no_port l4 id b n redir w e :
  fst (allocatePort (proxy w) (portRandomizer w)) = Err e ->
  retryCreatePort l4 id b n redir w =
    (set_portRandomizer (snd (allocatePort (proxy w) (portRandomizer w))) w,
     Returns (Err e)).
Proof.
  intros Ha. rewrite retryCreatePort_step. unfold attempt.
  destruct (allocatePort _ _) as [res g]. simpl in Ha. by subst res.
Qed.

(** When the parser type has no factory, the loop is left in its first
    iteration, after the allocation. *)
Lemma retryCreatePort_unsupported l4 id b n redir w :
  L7Parser l4 <> ParserTypeKafka -> L7Parser l4 <> ParserTypeHTTP ->
  retryCreatePort l4 id b n redir w =
    (set_portRandomizer (snd (allocatePort (proxy w) (portRandomizer w))) w,
     Returns (Err match fst (allocatePort (proxy w) (portRandomizer w)) with
                  | Ok _ => ErrUnsupportedParser (L7Parser l4)
                  | Err e => e
                  end)).
Proof.
  intros Hk Hh. rewrite retryCreatePort_step. unfold attempt.
  destruct (allocatePort _ _) as [[to|e] g]; simpl; [|done].
  assert (construct l4 b n (set_ProxyPort to redir) (set_portRandomizer g w) = None) as ->.
  { by apply construct_None. }
  done.
Qed.

(** C7.  On the create path, when the allocation of a port fails (every
    port the allocator tries is reserved: for a well-formed range, every port
    of the range), the call returns the allocator's error from the first
    iteration of the loop: no factory is called, the randomizer has been
    asked for one permutation, and both maps and the heap are as before. *)
Theorem create_ports_exhausted l4 id src notifier wg b w e :
  redirects (proxy w) !! id = None ->
  fst (allocatePort (proxy w) (portRandomizer w)) = Err e ->
  exists w',
    CreateOrUpdateRedirect l4 id src notifier wg b w = (w', Returns (Err e)) /\
    e = ErrNoAvailablePorts /\
    (forall r, (r < rangeSize (proxy w))%nat ->
       is_Some (allocatedPorts (proxy w) !! resPort (rangeMin (proxy w)) r)) /\
    proxy w' = proxy w /\ heap w' = heap w /\
    constructionAttempts (trace w') = constructionAttempts (trace w) /\
    portRandomizer w' = snd (allocatePort (proxy w) (portRandomizer w)).
Proof.
  intros Hid Hfail.
  destruct (gcOnceDo_frame notifier w) as (Hp0&Hh0&Hg0&_).
  unfold CreateOrUpdateRedirect.
  rewrite createOrUpdateLocked_absent by (by rewrite Hp0).
  rewrite (retryCreatePort_no_port _ _ _ _ _ _ e) by (by rewrite Hp0, Hg0).
  eexists. split; [reflexivity|].
  assert (allocatePort (proxy w) (portRandomizer w) =
          (Err e, snd (allocatePort (proxy w) (portRandomizer w)))) as Ha.
  { rewrite <- Hfail. by destruct (allocatePort _ _). }
  apply allocatePort_Err in Ha as [-> Hall].
  split; [done|]. split; [done|]. simpl.
  by rewrite ?Hp0, ?Hh0, ?Hg0, gcOnceDo_constructionAttempts.
Qed.

(** C8.  On the create path, a filter whose parser type is neither HTTP nor
    Kafka makes the call fail in the first iteration of the loop: no
    factory is called, the randomizer has been asked for one permutation,
    and both maps and the heap are as before.  The error is "unsupported L7
    parser type" when a port was free and the allocator's otherwise. *)
Theorem create_unsupported_parser l4 id src notifier wg b w :
  redirects (proxy w) !! id = None ->
  L7Parser l4 <> ParserTypeHTTP ->
  L7Parser l4 <> ParserTypeKafka ->
  exists w',
    CreateOrUpdateRedirect l4 id src notifier wg b w =
      (w', Returns (Err match fst (allocatePort (proxy w) (portRandomizer w)) with
                        | Ok _ => ErrUnsupportedParser (L7Parser l4)
                        | Err e => e
                        end)) /\
    proxy w' = proxy w /\ heap w' = heap w /\
    constructionAttempts (trace w') = constructionAttempts (trace w) /\
    portRandomizer w' = snd (allocatePort (proxy w) (portRandomizer w)).
Proof.
  intros Hid Hh Hk.
  destruct (gcOnceDo_frame notifier w) as (Hp0&Hh0&Hg0&_).
  unfold CreateOrUpdateRedirect.
  rewrite createOrUpdateLocked_absent by (by rewrite Hp0).
  rewrite retryCreatePort_unsupported by done.
  eexists. split; [by rewrite Hp0, Hg0|]. simpl.
  by rewrite ?Hp0, ?Hh0, ?Hg0, gcOnceDo_constructionAttempts.
Qed.

(** An iteration whose factory call fails: it is the last one exactly when
    [nRetry] has reached [redirectCreationAttempts]. *)
Lemma attempt_factory_fails l4 id b (errs : nat -> error) n redir w to :
  L7Parser l4 = ParserTypeHTTP \/ L7Parser l4 = ParserTypeKafka ->
  (forall k rd, createKafkaRedirect b k rd = Err (errs k)) ->
  (forall k rd, createEnvoyRedirect b k rd = Err (errs k)) ->
  fst (allocatePort (proxy w) (portRandomizer w)) = Ok to ->
  exists w1, frame w w1 /\ constructed 1 w w1 /\
    attempt l4 id b n redir w =
      if decide (redirectCreationAttempts <= n)%nat
      then Done w1 (Returns (Err (errs n)))
      else Retry (set_ProxyPort to redir) w1.
Proof.
  intros Hparser Hkafka Henvoy Ha. unfold attempt.
  destruct (allocatePort _ _) as [res g]. simpl in Ha. subst res.
  destruct (construct l4 b n (set_ProxyPort to redir) (set_portRandomizer g w))
    as [[w1 res]|] eqn:Hc.
  2:{ apply construct_None in Hc. tauto. }
  apply construct_spec in Hc as (Hf&Hc&_&Hres).
  assert (res = Err (errs n)) as ->.
  { destruct Hres as [[_ ->]|[_ ->]]; auto. }
  exists w1. split; [|split; [|done]].
  - eapply frame_trans; [apply (frame_set_portRandomizer g)|done].
  - destruct Hc as (evs&?&?&?). by exists evs.
Qed.

(** With factories that always fail and an allocation that always
    succeeds, the loop entered at [n] calls a factory once for every
    [nRetry] from [n] to [redirectCreationAttempts] included. *)
Lemma retryCreatePort_factory_fails l4 id b (errs : nat -> error) k :
  L7Parser l4 = ParserTypeHTTP \/ L7Parser l4 = ParserTypeKafka ->
  (forall k rd, createKafkaRedirect b k rd = Err (errs k)) ->
  (forall k rd, createEnvoyRedirect b k rd = Err (errs k)) ->
  forall n redir w,
  (n + k = redirectCreationAttempts)%nat ->
  (forall g, exists to, fst (allocatePort (proxy w) g) = Ok to) ->
  exists w', retryCreatePort l4 id b n redir w =
      (w', Returns (Err (errs redirectCreationAttempts))) /\
    frame w w' /\ constructed (S k) w w'.
Proof.
  intros Hparser Hkafka Henvoy.
  induction k as [|k IH]; intros n redir w Hn Hfree.
  - destruct (Hfree (portRandomizer w)) as [to Ha].
    destruct (attempt_factory_fails l4 id b errs n redir w to) as (w1&Hf&Hc&Hatt); try done.
    rewrite decide_True in Hatt by lia.
    exists w1. rewrite retryCreatePort_step, Hatt.
    by replace n with redirectCreationAttempts by lia.
  - destruct (Hfree (portRandomizer w)) as [to Ha].
    destruct (attempt_factory_fails l4 id b errs n redir w to) as (w1&Hf&Hc&Hatt); try done.
    rewrite decide_False in Hatt by lia.
    rewrite retryCreatePort_step, Hatt.
    pose proof Hf as (Hp&_).
    destruct (IH (S n) (set_ProxyPort to redir) w1) as (w'&Hrun&Hf'&Hc');
      rewrite ?Hp; try done; [lia|].
    exists w'. split; [done|]. split; [by eapply frame_trans|].
    by apply (constructed_trans 1 (S k) w w1 w').
Qed.

(** C1 (what the code does).  On the create path, when the allocation of a
    port succeeds whatever the randomizer draws and the factories fail at
    every attempt, the call makes six backend constructions, one more than
    [redirectCreationAttempts], then returns the error of the last one;
    both maps and the heap are as before, so the identifier is not indexed
    and no port was reserved. *)
Theorem create_makes_six_attempts l4 id src notifier wg b (errs : nat -> error) w :
  redirects (proxy w) !! id = None ->
  L7Parser l4 = ParserTypeHTTP \/ L7Parser l4 = ParserTypeKafka ->
  (forall k rd, createKafkaRedirect b k rd = Err (errs k)) ->
  (forall k rd, createEnvoyRedirect b k rd = Err (errs k)) ->
  (forall g, exists to, fst (allocatePort (proxy w) g) = Ok to) ->
  exists w',
    CreateOrUpdateRedirect l4 id src notifier wg b w = (w', Returns (Err (errs 5%nat))) /\
    constructionAttempts (trace w') = (constructionAttempts (trace w) + 6)%nat /\
    proxy w' = proxy w /\ heap w' = heap w /\
    redirects (proxy w') !! id = None.
Proof.
  intros Hid Hparser Hkafka Henvoy Hfree.
  destruct (gcOnceDo_frame notifier w) as (Hp0&Hh0&Hg0&_).
  unfold CreateOrUpdateRedirect.
  rewrite createOrUpdateLocked_absent by (by rewrite Hp0).
  edestruct (retryCreatePort_factory_fails l4 id b errs 5 Hparser Hkafka Henvoy 0%nat)
    as (w'&Hrun&(Hp&Hh&_)&Hc); [done|by rewrite Hp0|].
  exists w'. split; [exact Hrun|].
  apply constructed_attempts in Hc. rewrite gcOnceDo_constructionAttempts in Hc.
  rewrite Hp, Hh, Hp0, Hh0. done.
Qed.

(** ** The invariant of reachable processes *)

Lemma keepsRecords_refl h : keepsRecords h h.
Proof. intros r rd H. by exists rd. Qed.

Lemma keepsRecords_app h rd : keepsRecords h (h ++ [rd]).
Proof. intros r rd0 H. exists rd0. split; [by apply lookup_app_l_Some|done]. Qed.

Lemma keepsRecords_insert h r rd rd' :
  h !! r = Some rd -> ProxyPort rd' = ProxyPort rd ->
  implementation rd' = implementation rd ->
  keepsRecords h (<[r := rd']> h).
Proof.
  intros Hr Hp Hi r0 rd0 H0. destruct (decide (r0 = r)) as [->|Hne].
  - exists rd'. rewrite list_lookup_insert_eq by (by eapply lookup_lt_Some).
    split; [done|]. assert (rd0 = rd) as -> by congruence. done.
  - exists rd0. by rewrite list_lookup_insert_ne.
Qed.

Lemma WF_start minPort maxPort dir lf labels seed now :
  WF (startWorld minPort maxPort dir lf labels seed now).
Proof.
  split; simpl; intros *; try (by rewrite lookup_empty); try done.
  by intros ?%elem_of_nil.
Qed.

(** Steps that leave both maps and the goroutines alone. *)
Lemma WF_same_maps w w' :
  WF w ->
  proxy w' = proxy w -> releaseTasks w' = releaseTasks w ->
  keepsRecords (heap w) (heap w') ->
  (forall te, te ∈ trace w' -> te ∈ trace w \/ eventTid (snd te) = None) ->
  WF w'.
Proof.
  intros [W1 W2 W3 W4 W5 W6] Hp Ht Hh Htr.
  split; rewrite ?Hp, ?Ht.
  - intros id r Hid. destruct (W1 id r Hid) as (rd&Hr&Ha&Hi).
    destruct (Hh r rd Hr) as (rd'&Hr'&Hpp&Him).
    exists rd'. by rewrite Hpp, Him.
  - intros to r Hto. destruct (W2 to r Hto) as (rd&Hr&Ha).
    destruct (Hh r rd Hr) as (rd'&Hr'&Hpp&Him).
    exists rd'. by rewrite Hpp.
  - done.
  - intros tid t Htid Hl. destruct (W4 tid t Htid Hl) as [(rd&Hr&Ha) Hn].
    split; [|done]. destruct (Hh _ rd Hr) as (rd'&Hr'&Hpp&Him).
    exists rd'. by rewrite Hpp.
  - done.
  - intros te tid [Hin|Hnone]%Htr Hte; [by eapply W6|congruence].
Qed.

Lemma WF_quietly w w' :
  WF w -> proxy w' = proxy w -> releaseTasks w' = releaseTasks w ->
  keepsRecords (heap w) (heap w') -> quietly w w' -> WF w'.
Proof.
  intros HW Hp Ht Hh Hq. eapply WF_same_maps; eauto.
  intros te. by apply quietly_elem_of.
Qed.

Lemma ambient_releaseTasks w w' : ambient w' = ambient w -> releaseTasks w' = releaseTasks w.
Proof. unfold ambient. congruence. Qed.

Lemma ambient_clock w w' : ambient w' = ambient w -> clock w' = clock w.
Proof. unfold ambient. congruence. Qed.

Lemma WF_gcOnceDo notifier w : WF w -> WF (gcOnceDo notifier w).
Proof.
  intros HW. destruct (gcOnceDo_frame notifier w) as (Hp&Hh&_&_&Ht&_).
  eapply WF_same_maps; eauto.
  - rewrite Hh. apply keepsRecords_refl.
  - apply gcOnceDo_elem_of.
Qed.

(** Publishing a fresh record on a free port. *)
Lemma WF_published id r to rd w w' :
  WF w -> published id r to rd w w' ->
  allocatedPorts (proxy w) !! to = None ->
  (forall te, te ∈ trace w' -> te ∈ trace w \/ eventTid (snd te) = None) ->
  WF w'.
Proof.
  intros [W1 W2 W3 W4 W5 W6] (Hr&Hh&Hport&Himpl&Hp&Hamb) Hfree Htr.
  apply ambient_releaseTasks in Hamb as Ht.
  assert (forall r0 rd0, heap w !! r0 = Some rd0 -> r0 <> r) as Hfresh.
  { intros r0 rd0 H0 ->. apply lookup_lt_Some in H0. lia. }
  assert (heap w' !! r = Some rd) as Hnew.
  { rewrite Hh, Hr. by apply list_lookup_middle. }
  assert (forall r0 rd0, heap w !! r0 = Some rd0 -> heap w' !! r0 = Some rd0) as Hold.
  { intros r0 rd0 H0. rewrite Hh. by apply lookup_app_l_Some. }
  split; rewrite ?Hp, ?Ht; simpl.
  - intros id0 r0. destruct (decide (id0 = id)) as [->|Hne].
    + rewrite lookup_insert_eq. intros [= <-]. exists rd.
      by rewrite Hport, lookup_insert_eq.
    + rewrite lookup_insert_ne by done. intros Hid.
      destruct (W1 id0 r0 Hid) as (rd0&Hr0&Ha&Hi). exists rd0.
      split; [by apply Hold|]. split; [|done].
      rewrite lookup_insert_ne; [done|]. congruence.
  - intros to0 r0. destruct (decide (to0 = to)) as [->|Hne].
    + rewrite lookup_insert_eq. intros [= <-]. by exists rd.
    + rewrite lookup_insert_ne by done. intros Hto.
      destruct (W2 to0 r0 Hto) as (rd0&Hr0&Ha). exists rd0. auto.
  - intros id1 id2 r0.
    destruct (decide (id1 = id)) as [->|Hne1]; destruct (decide (id2 = id)) as [->|Hne2];
      rewrite ?lookup_insert_eq, ?lookup_insert_ne by done; try done.
    + intros [= <-] Hid. destruct (W1 id2 r Hid) as (rd0&Hr0&_). by destruct (Hfresh r rd0).
    + intros Hid [= <-]. destruct (W1 id1 r Hid) as (rd0&Hr0&_). by destruct (Hfresh r rd0).
    + apply W3.
  - intros tid t Htid Hl. destruct (W4 tid t Htid Hl) as [(rd0&Hr0&Ha) Hn].
    split.
    + exists rd0. split; [by apply Hold|].
      rewrite lookup_insert_ne; [done|]. congruence.
    + intros id0. destruct (decide (id0 = id)) as [->|Hne].
      * rewrite lookup_insert_eq. intros [= Heq]. by destruct (Hfresh _ rd0 Hr0).
      * rewrite lookup_insert_ne by done. apply Hn.
  - done.
  - intros te tid [Hin|Hnone]%Htr Hte; [by eapply W6|congruence].
Qed.

Lemma WF_createOrUpdateLocked l4 id src wg b w :
  WF w -> WF (fst (createOrUpdateLocked l4 id src wg b w)).
Proof.
  intros HW. unfold createOrUpdateLocked.
  destruct (redirects (proxy w) !! id) as [r|] eqn:Hid.
  - destruct (heap w !! r) as [rd|] eqn:Hr; [|done].
    destruct (updateExisting_heap l4 wg b r rd w) as (Hp&Hamb&Hq&Hh).
    eapply WF_quietly; eauto using ambient_releaseTasks.
    destruct Hh as [->|(rd'&->&Hpp&Him)]; [apply keepsRecords_refl|].
    by eapply keepsRecords_insert.
  - pose proof (retryCreatePort_spec l4 id b 0
      (updateRules l4 (set_parserType (L7Parser l4) (set_ingress (Ingress l4)
        (set_endpointID (GetID src) (newRedirect (wrap16 (Port l4)) src id (clock w))))))
      w) as Hspec.
    destruct (retryCreatePort _ _ _ _ _ _) as [w' out]. simpl.
    destruct Hspec as [(k&Hk) Hout]. apply constructed_quietly in Hk.
    destruct out as [[r|e]|]; [ | | done].
    + destruct Hout as (to&rd&Hpub&Hfree&_).
      eapply WF_published; eauto. intros te. by apply quietly_elem_of.
    + destruct Hout as (Hp&Hh&Hamb).
      eapply WF_quietly; eauto using ambient_releaseTasks.
      rewrite Hh. apply keepsRecords_refl.
Qed.

Lemma WF_RemoveRedirect id wg w : WF w -> WF (fst (RemoveRedirect id wg w)).
Proof.
  intros HW. unfold RemoveRedirect.
  destruct (redirects (proxy w) !! id) as [r|] eqn:Hid; [|done].
  destruct (heap w !! r ≫= implementation) as [impl|]; [|done].
  destruct HW as [W1 W2 W3 W4 W5 W6]. simpl.
  split; simpl.
  - intros id0 r0 [Hne Hid0]%lookup_delete_Some. by eapply W1.
  - done.
  - intros id1 id2 r0 [_ H1]%lookup_delete_Some [_ H2]%lookup_delete_Some. by eapply W3.
  - intros tid t [Ht|[Hlen Ht]]%lookup_app_Some Hl.
    + destruct (W4 tid t Ht Hl) as [Hrd Hn]. split; [done|].
      intros id0 [_ H0]%lookup_delete_Some. by apply (Hn id0).
    + apply list_lookup_singleton_Some in Ht as [_ <-]. simpl.
      destruct (W1 id r Hid) as (rd&Hr&Ha&_). split; [by exists rd|].
      intros id0 [Hne H0]%lookup_delete_Some. apply Hne. by eapply W3.
  - intros tid1 tid2 t1 t2 [H1|[Hl1 H1]]%lookup_app_Some [H2|[Hl2 H2]]%lookup_app_Some L1 L2 Heq.
    + by eapply W5.
    + apply list_lookup_singleton_Some in H2 as [_ <-]. simpl in Heq.
      destruct (W4 tid1 t1 H1 L1) as [_ Hn]. destruct (Hn id). by rewrite Heq.
    + apply list_lookup_singleton_Some in H1 as [_ <-]. simpl in Heq.
      destruct (W4 tid2 t2 H2 L2) as [_ Hn]. destruct (Hn id). by rewrite <- Heq.
    + apply list_lookup_singleton_Some in H1 as [? _].
      apply list_lookup_singleton_Some in H2 as [? _]. lia.
  - intros te tid [Hin|Hin]%elem_of_app Hte.
    + rewrite length_app. pose proof (W6 te tid Hin Hte). lia.
    + apply list_elem_of_singleton in Hin as ->. done.
Qed.

(** ** The release goroutine *)

Lemma lookup_set_task_pc (ts : list ReleaseTask) tid pc k t' :
  alter (set_task_pc pc) tid ts !! k = Some t' ->
  exists t, ts !! k = Some t /\ task_redirect t' = task_redirect t /\
    task_id t' = task_id t /\
    (k = tid /\ task_pc t' = pc \/ k <> tid /\ t' = t).
Proof.
  rewrite list_lookup_alter. case_decide as Hk.
  - subst k. destruct (ts !! tid) as [t|] eqn:Ht; [|discriminate].
    simpl. intros [= <-]. exists t. simpl.
    split; [done|]. split; [done|]. split; [done|]. by left.
  - intros Ht. exists t'.
    split; [done|]. split; [done|]. split; [done|]. right. split; [congruence|done].
Qed.

(** Moving a goroutine that has not returned to another point of its code
    keeps the invariant, whatever else it does there, as long as the maps
    and the heap stay as they are and its events carry its index. *)
Lemma WF_set_pc tid pc t w w1 :
  WF w -> releaseTasks w !! tid = Some t -> live t ->
  proxy w1 = proxy w -> heap w1 = heap w -> releaseTasks w1 = releaseTasks w ->
  (forall te, te ∈ trace w1 -> te ∈ trace w \/ eventTid (snd te) = Some tid) ->
  WF (set_pc tid pc w1).
Proof.
  intros [W1 W2 W3 W4 W5 W6] Htid Hlive Hp Hh Ht Htr.
  split; simpl; rewrite ?Hp, ?Hh, ?Ht; try done.
  - intros k t' (t0&Hk&Hr&_&Hcase)%lookup_set_task_pc Hl. rewrite Hr.
    apply (W4 k t0 Hk). destruct Hcase as [[-> _]|[_ ->]]; [congruence|done].
  - intros k1 k2 t1 t2 (u1&Hk1&Hr1&_&Hc1)%lookup_set_task_pc
      (u2&Hk2&Hr2&_&Hc2)%lookup_set_task_pc L1 L2. rewrite Hr1, Hr2.
    apply (W5 k1 k2 u1 u2 Hk1 Hk2).
    + destruct Hc1 as [[-> _]|[_ ->]]; [congruence|done].
    + destruct Hc2 as [[-> _]|[_ ->]]; [congruence|done].
  - intros te k [Hin|Hk]%Htr Hte; rewrite length_alter.
    + by eapply W6.
    + apply lookup_lt_Some in Htid. congruence.
Qed.

Lemma elem_of_trace_emit e w te :
  te ∈ trace (emit e w) -> te ∈ trace w \/ te = (clock w, e).
Proof.
  simpl. intros [H|H]%elem_of_app; [by left|right].
  by apply list_elem_of_singleton in H.
Qed.

Lemma WF_releaseStep tid w : WF w -> WF (releaseStep tid w).
Proof.
  intros HW. unfold releaseStep.
  destruct (releaseTasks w !! tid) as [t|] eqn:Htid; [|done].
  destruct (task_pc t) as [|wake| |] eqn:Hpc; [| | |done].
  - apply (WF_set_pc tid _ t w w HW Htid);
      [by unfold live; rewrite Hpc|done|done|done|].
    intros te. by left.
  - case_decide; [|done].
    destruct (heap w !! task_redirect t) as [rd|] eqn:Hr; [|done].
    apply (WF_set_pc tid _ t w _ HW Htid);
      [by unfold live; rewrite Hpc|done|done|done|].
    intros te [Hin| ->]%elem_of_trace_emit; [by left|by right].
  - destruct (heap w !! task_redirect t) as [rd|] eqn:Hr; [|done].
    assert (live t) as Hlive by (by unfold live; rewrite Hpc).
    destruct HW as [W1 W2 W3 W4 W5 W6].
    destruct (W4 tid t Htid Hlive) as [(rd0&Hr0&Ha) Hn].
    assert (rd0 = rd) as -> by congruence.
    split; simpl.
    + intros id r Hid. destruct (W1 id r Hid) as (rd1&Hr1&Ha1&Hi1).
      exists rd1. split; [done|]. split; [|done].
      rewrite lookup_delete_ne; [done|]. intros Heq.
      rewrite Heq, Ha1 in Ha. destruct (Hn id). congruence.
    + intros to r [_ Hto]%lookup_delete_Some. by apply W2.
    + done.
    + intros k t' (t0&Hk&Hrk&_&Hcase)%lookup_set_task_pc Hl. rewrite Hrk.
      destruct Hcase as [[-> Hfin]|[Hne ->]]; [done|].
      destruct (W4 k t0 Hk Hl) as [(rd1&Hr1&Ha1) Hn1]. split; [|done].
      exists rd1. split; [done|].
      rewrite lookup_delete_ne; [done|]. intros Heq.
      rewrite Heq, Ha1 in Ha. apply Hne.
      apply (W5 k tid t0 t); auto. congruence.
    + intros k1 k2 t1 t2 (u1&Hk1&Hr1&_&Hc1)%lookup_set_task_pc
        (u2&Hk2&Hr2&_&Hc2)%lookup_set_task_pc L1 L2. rewrite Hr1, Hr2.
      destruct Hc1 as [[-> Hfin]|[_ ->]]; [done|].
      destruct Hc2 as [[-> Hfin]|[_ ->]]; [done|].
      by apply (W5 k1 k2 u1 u2).
    + intros te k [Hin|Hin]%elem_of_app Hte; rewrite length_alter.
      * by eapply W6.
      * apply list_elem_of_singleton in Hin. subst te. simpl in Hte.
        injection Hte as <-. by eapply lookup_lt_Some.
Qed.

Lemma WF_sweeperStep w : WF w -> WF (sweeperStep w).
Proof.
  intros HW. unfold sweeperStep. destruct (sweeper w) as [| |wake]; [done| |].
  - apply (WF_same_maps w); [done|done|done|apply keepsRecords_refl|].
    intros te. by left.
  - case_decide; [|done].
    apply (WF_same_maps w); [done|done|done|apply keepsRecords_refl|].
    intros te [Hin| ->]%elem_of_trace_emit; [by left|by right].
Qed.

Lemma WF_step o w : WF w -> WF (step o w).
Proof.
  intros HW. destruct o; simpl.
  - by apply WF_gcOnceDo.
  - by apply WF_createOrUpdateLocked.
  - by apply WF_RemoveRedirect.
  - by apply WF_releaseStep.
  - by apply WF_sweeperStep.
  - apply (WF_same_maps w); [done|done|done|apply keepsRecords_refl|].
    intros te. by left.
Qed.

Lemma run_app ops1 ops2 w : run (ops1 ++ ops2) w = run ops2 (run ops1 w).
Proof. apply fold_left_app. Qed.

Lemma run_snoc ops o w : run (ops ++ [o]) w = step o (run ops w).
Proof. by rewrite run_app. Qed.

Lemma WF_run ops w : WF w -> WF (run ops w).
Proof.
  revert w. induction ops as [|o ops IH]; intros w HW; [done|].
  simpl. apply IH. by apply WF_step.
Qed.

(** ** What a step changes *)

(** The critical section of [CreateOrUpdateRedirect], whatever path it
    takes. *)
Lemma createOrUpdateLocked_step l4 id src wg b w :
  let w' := fst (createOrUpdateLocked l4 id src wg b w) in
  ambient w' = ambient w /\ quietly w w' /\
  keepsRecords (heap w) (heap w') /\
  rangeMin (proxy w') = rangeMin (proxy w) /\
  rangeMax (proxy w') = rangeMax (proxy w) /\
  (forall to, is_Some (allocatedPorts (proxy w') !! to) ->
     is_Some (allocatedPorts (proxy w) !! to) \/
     exists k, (k < rangeSize (proxy w))%nat /\ to = resPort (rangeMin (proxy w)) k) /\
  (forall to r, allocatedPorts (proxy w) !! to = Some r ->
     allocatedPorts (proxy w') !! to = Some r).
Proof.
  unfold createOrUpdateLocked.
  destruct (redirects (proxy w) !! id) as [r|] eqn:Hid.
  - destruct (heap w !! r) as [rd|] eqn:Hr.
    2:{ simpl. repeat split; auto using quietly_refl, keepsRecords_refl. }
    destruct (updateExisting_heap l4 wg b r rd w) as (Hp&Hamb&Hq&Hh).
    simpl. rewrite Hp. repeat split; auto.
    destruct Hh as [->|(rd'&->&Hpp&Him)]; [apply keepsRecords_refl|].
    by eapply keepsRecords_insert.
  - pose proof (retryCreatePort_spec l4 id b 0
      (updateRules l4 (set_parserType (L7Parser l4) (set_ingress (Ingress l4)
        (set_endpointID (GetID src) (newRedirect (wrap16 (Port l4)) src id (clock w))))))
      w) as Hspec.
    destruct (retryCreatePort _ _ _ _ _ _) as [w' out]. simpl.
    destruct Hspec as [(k&Hk) Hout]. apply constructed_quietly in Hk.
    destruct out as [[r|e]|]; [ | |done].
    + destruct Hout as (to&rd&(Hr&Hh&Hport&Himpl&Hp&Hamb)&Hfree&Hrange).
      rewrite Hp, Hh. simpl. repeat split; auto using keepsRecords_app.
      * intros to0 Hto0. destruct (decide (to0 = to)) as [->|Hne]; [by right|left].
        by rewrite lookup_insert_ne in Hto0.
      * intros to0 r0 Hto0. rewrite lookup_insert_ne; [done|]. congruence.
    + destruct Hout as (Hp&Hh&Hamb). rewrite Hp, Hh.
      repeat split; auto using keepsRecords_refl.
Qed.

Lemma RemoveRedirect_step id wg w :
  let w' := fst (RemoveRedirect id wg w) in
  quietly w w' /\ heap w' = heap w /\ clock w' = clock w /\
  gcOnce w' = gcOnce w /\ accessLog w' = accessLog w /\ agentLabels w' = agentLabels w /\
  allocatedPorts (proxy w') = allocatedPorts (proxy w) /\
  rangeMin (proxy w') = rangeMin (proxy w) /\
  rangeMax (proxy w') = rangeMax (proxy w) /\
  exists ts, releaseTasks w' = releaseTasks w ++ ts.
Proof.
  unfold RemoveRedirect.
  destruct (redirects (proxy w) !! id) as [r|];
    [|simpl; repeat split; auto using quietly_refl; exists []; by rewrite app_nil_r].
  destruct (heap w !! r ≫= implementation) as [impl|];
    [|simpl; repeat split; auto using quietly_refl; exists []; by rewrite app_nil_r].
  simpl. repeat split; [|by eexists].
  exists [(clock w, EvClose impl wg)]. split; [done|]. by apply Forall_singleton.
Qed.

(** A step of a release goroutine: the events it adds are its own; it
    leaves the heap, the clock and the index of identifiers alone, and only
    takes ports away. *)
Lemma releaseStep_step tid w :
  let w' := releaseStep tid w in
  (exists evs, trace w' = trace w ++ evs /\
     Forall (fun te => eventTid (snd te) = Some tid /\ isInit (snd te) = false) evs) /\
  heap w' = heap w /\ clock w' = clock w /\
  gcOnce w' = gcOnce w /\ accessLog w' = accessLog w /\ agentLabels w' = agentLabels w /\
  redirects (proxy w') = redirects (proxy w) /\
  rangeMin (proxy w') = rangeMin (proxy w) /\
  rangeMax (proxy w') = rangeMax (proxy w) /\
  (forall to, is_Some (allocatedPorts (proxy w') !! to) ->
     is_Some (allocatedPorts (proxy w) !! to)).
Proof.
  assert (forall w0 : World, exists evs, trace w0 = trace w0 ++ evs /\
     Forall (fun te => eventTid (snd te) = Some tid /\ isInit (snd te) = false) evs) as Hnil.
  { intros w0. exists []. by rewrite app_nil_r. }
  unfold releaseStep.
  destruct (releaseTasks w !! tid) as [t|]; [|simpl; repeat split; auto].
  destruct (task_pc t) as [|wake| |]; try (simpl; repeat split; auto; fail).
  - case_decide; [|simpl; repeat split; auto].
    destruct (heap w !! task_redirect t) as [rd|]; [|simpl; repeat split; auto].
    simpl. repeat split; auto.
    eexists. split; [done|]. by apply Forall_singleton.
  - destruct (heap w !! task_redirect t) as [rd|]; [|simpl; repeat split; auto].
    simpl. repeat split; auto.
    + eexists. split; [done|]. by apply Forall_singleton.
    + intros to [r [_ H]%lookup_delete_Some]. by exists r.
Qed.

Lemma sweeperStep_step w :
  let w' := sweeperStep w in
  quietly w w' /\ proxy w' = proxy w /\ heap w' = heap w /\ clock w' = clock w /\
  gcOnce w' = gcOnce w /\ accessLog w' = accessLog w /\ agentLabels w' = agentLabels w /\
  releaseTasks w' = releaseTasks w.
Proof.
  unfold sweeperStep. destruct (sweeper w) as [| |wake].
  - simpl. repeat split; auto using quietly_refl.
  - simpl. repeat split; auto. by apply quietly_trace_eq.
  - destruct (decide (wake <= clock w)); simpl; repeat split; auto using quietly_refl.
    exists [(clock w, EvProxymapGC)]. split; [done|]. by apply Forall_singleton.
Qed.

Lemma ambient_inv w w' :
  ambient w' = ambient w ->
  gcOnce w' = gcOnce w /\ accessLog w' = accessLog w /\ agentLabels w' = agentLabels w /\
  clock w' = clock w /\ releaseTasks w' = releaseTasks w /\ sweeper w' = sweeper w.
Proof. unfold ambient. intros [= -> -> -> -> -> ->]. done. Qed.

(** The clock never goes back, records stay where they are on their
    ports, and the range and the configuration are fixed. *)
Lemma step_fixed o w :
  clock w <= clock (step o w) /\
  keepsRecords (heap w) (heap (step o w)) /\
  rangeMin (proxy (step o w)) = rangeMin (proxy w) /\
  rangeMax (proxy (step o w)) = rangeMax (proxy w) /\
  accessLog (step o w) = accessLog w /\ agentLabels (step o w) = agentLabels w.
Proof.
  destruct o as [notifier|l4 id src wg b|id wg|tid| |d]; simpl.
  - destruct (gcOnceDo_frame notifier w) as (->&->&_&->&_&->&->).
    repeat split; auto using keepsRecords_refl. lia.
  - destruct (createOrUpdateLocked_step l4 id src wg b w)
      as ((_&Hl&Hla&Hc&_)%ambient_inv&_&Hk&->&->&_).
    rewrite Hc, Hl, Hla. repeat split; auto. lia.
  - destruct (RemoveRedirect_step id wg w) as (_&->&->&_&->&->&_&->&->&_).
    repeat split; auto using keepsRecords_refl. lia.
  - destruct (releaseStep_step tid w) as (_&->&->&_&->&->&_&->&->&_).
    repeat split; auto using keepsRecords_refl. lia.
  - destruct (sweeperStep_step w) as (_&->&->&->&_&->&->&_).
    repeat split; auto using keepsRecords_refl. lia.
  - repeat split; auto using keepsRecords_refl. lia.
Qed.

Lemma keepsRecords_trans h1 h2 h3 :
  keepsRecords h1 h2 -> keepsRecords h2 h3 -> keepsRecords h1 h3.
Proof.
  intros H12 H23 r rd Hr. destruct (H12 r rd Hr) as (rd2&Hr2&Hp2&Hi2).
  destruct (H23 r rd2 Hr2) as (rd3&Hr3&Hp3&Hi3). exists rd3.
  split; [done|]. split; congruence.
Qed.

Lemma run_fixed ops w :
  clock w <= clock (run ops w) /\
  keepsRecords (heap w) (heap (run ops w)) /\
  rangeMin (proxy (run ops w)) = rangeMin (proxy w) /\
  rangeMax (proxy (run ops w)) = rangeMax (proxy w) /\
  accessLog (run ops w) = accessLog w /\ agentLabels (run ops w) = agentLabels w.
Proof.
  revert w. induction ops as [|o ops IH]; intros w; simpl.
  - repeat split; auto using keepsRecords_refl. lia.
  - destruct (IH (step o w)) as (Hc&Hk&->&->&->&->).
    destruct (step_fixed o w) as (Hc'&Hk'&->&->&->&->).
    repeat split; [lia|by eapply keepsRecords_trans].
Qed.

(** ** The invariant of the data model *)

Lemma inRange_step o w :
  is_uint16 (rangeMin (proxy w)) -> is_uint16 (rangeMax (proxy w)) ->
  rangeMin (proxy w) <= rangeMax (proxy w) ->
  inRange w -> inRange (step o w).
Proof.
  intros Hmin Hmax Hle Hin to.
  destruct (step_fixed o w) as (_&_&->&->&_).
  destruct o as [notifier|l4 id src wg b|id wg|tid| |d]; simpl.
  - destruct (gcOnceDo_frame notifier w) as (->&_). apply Hin.
  - destruct (createOrUpdateLocked_step l4 id src wg b w) as (_&_&_&_&_&Hnew&_).
    intros [Hold|(k&Hk&->)]%Hnew; [by apply Hin|].
    by apply resPort_in_range.
  - destruct (RemoveRedirect_step id wg w) as (_&_&_&_&_&_&->&_). apply Hin.
  - destruct (releaseStep_step tid w) as (_&_&_&_&_&_&_&_&_&Hsub).
    intros H%Hsub. by apply Hin.
  - destruct (sweeperStep_step w) as (_&->&_). apply Hin.
  - apply Hin.
Qed.

Lemma inRange_run ops : forall w,
  is_uint16 (rangeMin (proxy w)) -> is_uint16 (rangeMax (proxy w)) ->
  rangeMin (proxy w) <= rangeMax (proxy w) ->
  inRange w -> inRange (run ops w).
Proof.
  induction ops as [|o ops IH]; intros w Hmin Hmax Hle Hin; [done|].
  simpl. destruct (step_fixed o w) as (_&_&Hrmin&Hrmax&_).
  apply IH; rewrite ?Hrmin, ?Hrmax; try done. by apply inRange_step.
Qed.

Lemma WF_inRange_Inv w : WF w -> inRange w -> Inv w.
Proof.
  intros [W1 W2 _ _ _ _] Hin. split.
  - intros to r Hto. split; [by apply Hin|by apply W2].
  - intros id r Hid. destruct (W1 id r Hid) as (rd&Hr&Ha&_). exists rd. by rewrite Ha.
Qed.

(** C5 (amended).  For a manager started on a well-formed range
    ([rangeMin <= rangeMax], both [uint16]), after any schedule of manager
    operations ([CreateOrUpdateRedirect], [RemoveRedirect], the steps of the
    deferred releases), with time passing in between: every reserved port
    lies in the range, the record stored under a reserved port listens on
    that port, and the port of every indexed redirect is reserved. *)
Theorem invariant_reachable minPort maxPort dir lf labels seed now ops :
  is_uint16 minPort -> is_uint16 maxPort -> minPort <= maxPort ->
  Inv (run ops (startWorld minPort maxPort dir lf labels seed now)).
Proof.
  intros Hmin Hmax Hle. apply WF_inRange_Inv.
  - apply WF_run, WF_start.
  - apply inRange_run; try done. intros to [r Hr]. simpl in Hr. by rewrite lookup_empty in Hr.
Qed.

(** ** gcOnce fires once *)

Lemma initEvents_app tr1 tr2 : initEvents (tr1 ++ tr2) = initEvents tr1 ++ initEvents tr2.
Proof. unfold initEvents. by rewrite filter_app, fmap_app. Qed.

Lemma initEvents_all evs :
  Forall (fun te => isInit (snd te) = true) evs -> initEvents evs = snd <$> evs.
Proof.
  unfold initEvents. induction 1 as [|te evs Hte _ IH]; [done|].
  rewrite filter_cons_True by (by rewrite Hte). rewrite !fmap_cons. by rewrite IH.
Qed.

Lemma initEvents_none evs :
  Forall (fun te => isInit (snd te) = false) evs -> initEvents evs = [].
Proof.
  intros H. unfold initEvents. rewrite filter_none; [done|].
  eapply Forall_impl; [exact H|]. intros te Hte. rewrite Hte. simpl. tauto.
Qed.

Lemma step_initEvents o w :
  initEvents (trace (step o w)) =
    initEvents (trace w) ++
    match o with
    | OpGcOnceDo notifier =>
        if gcOnce w then [] else initBlock notifier (accessLog w) (agentLabels w)
    | _ => []
    end /\
  gcOnce (step o w) = match o with OpGcOnceDo _ => true | _ => gcOnce w end.
Proof.
  destruct o as [notifier|l4 id src wg b|id wg|tid| |d]; simpl.
  - split; [|apply gcOnceDo_done].
    destruct (gcOnceDo_trace notifier w) as (evs&->&Hevs).
    rewrite initEvents_app, (initEvents_all evs), Hevs; [done|].
    assert (Forall (fun e => isInit e = true) (snd <$> evs)) as H.
    { rewrite Hevs. destruct (gcOnce w); [constructor|apply initBlock_isInit]. }
    by rewrite Forall_fmap in H.
  - destruct (createOrUpdateLocked_step l4 id src wg b w) as ((->&_)%ambient_inv&Hq&_).
    by rewrite (quietly_initEvents _ _ Hq), app_nil_r.
  - destruct (RemoveRedirect_step id wg w) as (Hq&_&_&->&_).
    by rewrite (quietly_initEvents _ _ Hq), app_nil_r.
  - destruct (releaseStep_step tid w) as ((evs&->&Hevs)&_&_&->&_).
    rewrite initEvents_app, (initEvents_none evs); [done|].
    eapply Forall_impl; [exact Hevs|]. by intros te [_ ?].
  - destruct (sweeperStep_step w) as (Hq&_&_&_&->&_).
    by rewrite (quietly_initEvents _ _ Hq), app_nil_r.
  - by rewrite app_nil_r.
Qed.



(** ** The deferred release of a port *)

Lemma eventsOf_app tid tr1 tr2 : eventsOf tid (tr1 ++ tr2) = eventsOf tid tr1 ++ eventsOf tid tr2.
Proof. unfold eventsOf. by rewrite filter_app. Qed.

Lemma eventsOf_other tid tid' evs :
  tid' <> tid ->
  Forall (fun te => eventTid (snd te) = Some tid' /\ isInit (snd te) = false) evs ->
  eventsOf tid evs = [].
Proof.
  intros Hne Hall. unfold eventsOf. apply filter_none.
  eapply Forall_impl; [exact Hall|]. intros te [Hte _]. rewrite Hte. congruence.
Qed.

(** No event of the trace belongs to a goroutine that does not exist yet. *)
Lemma eventsOf_fresh w : WF w -> eventsOf (length (releaseTasks w)) (trace w) = [].
Proof.
  intros HW. unfold eventsOf. apply filter_none. apply Forall_forall.
  intros te Hin Hte. pose proof (wf_trace w HW te _ Hin Hte). lia.
Qed.

(** The progress of a goroutine is not affected by what leaves its task,
    its record and its events alone. *)
Lemma releaseProgress_transport tid r to removed w w' :
  releaseProgress tid r to removed w ->
  clock w <= clock w' ->
  keepsRecords (heap w) (heap w') ->
  releaseTasks w' !! tid = releaseTasks w !! tid ->
  eventsOf tid (trace w') = eventsOf tid (trace w) ->
  releaseProgress tid r to removed w'.
Proof.
  intros (Hc&(rd&Hr&Hport)&t&Ht&Htr&Hpc) Hclock Hk Htasks Hev.
  split; [lia|]. split.
  { destruct (Hk r rd Hr) as (rd'&Hr'&Hp'&_). exists rd'. split; [done|congruence]. }
  exists t. rewrite Htasks, Hev. split; [done|]. split; [done|].
  destruct (task_pc t) as [|wake| |]; try done.
  - destruct Hpc as (t1&Ht1&Heq). exists t1. split; [lia|done].
  - destruct Hpc as (t1&t2&Ht1&Ht2&Heq). exists t1, t2. split; [done|]. split; [lia|done].
Qed.

(** The steps of the goroutine itself. *)
Lemma releaseProgress_own_step tid r to removed w :
  releaseProgress tid r to removed w ->
  releaseProgress tid r to removed (releaseStep tid w).
Proof.
  intros Hprog. pose proof Hprog as (Hc&(rd&Hr&Hport)&t&Ht&Htr&Hpc).
  unfold releaseStep. rewrite Ht.
  assert (forall pc (w1 : World), releaseTasks w1 = releaseTasks w ->
    releaseTasks (set_pc tid pc w1) !! tid = Some (set_task_pc pc t)) as Hset.
  { intros pc w1 Hw1. simpl. by rewrite Hw1, list_lookup_alter_eq, Ht. }
  destruct (task_pc t) as [|wake| |] eqn:Hpct; [| | |done].
  - split; [done|]. split; [by exists rd|].
    exists (set_task_pc (Sleeping (clock w + portReleaseDelay)) t).
    split; [by apply Hset|]. split; [done|]. simpl. split; [lia|done].
  - destruct Hpc as [Hwake Hev]. case_decide as Hdue; [|done].
    rewrite Htr, Hr, Hport.
    split; [done|]. split; [by exists rd|].
    exists (set_task_pc Cleaned t).
    split; [by apply Hset|]. split; [done|]. simpl.
    exists (clock w). split; [lia|].
    rewrite eventsOf_app, Hev. unfold eventsOf.
    rewrite filter_cons_True by done. done.
  - destruct Hpc as (t1&Ht1&Hev). rewrite Htr, Hr, Hport.
    split; [done|]. split; [by exists rd|].
    exists (set_task_pc Finished t).
    split; [by apply Hset|]. split; [done|]. simpl.
    exists t1, (clock w). split; [lia|]. split; [lia|].
    rewrite eventsOf_app, Hev. unfold eventsOf.
    rewrite filter_cons_True by done. done.
Qed.

Lemma releaseProgress_step o tid r to removed w :
  releaseProgress tid r to removed w ->
  releaseProgress tid r to removed (step o w).
Proof.
  intros Hprog. pose proof Hprog as (_&_&t&Ht&_).
  destruct (step_fixed o w) as (Hclock&Hk&_).
  destruct o as [notifier|l4 id src wg b|id wg|tid'| |d].
  - eapply releaseProgress_transport; eauto; simpl.
    + by destruct (gcOnceDo_frame notifier w) as (_&_&_&_&->&_).
    + apply gcOnceDo_eventsOf.
  - destruct (createOrUpdateLocked_step l4 id src wg b w) as ((_&_&_&_&Hts&_)%ambient_inv&Hq&_).
    eapply releaseProgress_transport; eauto; simpl.
    + by rewrite Hts.
    + by apply quietly_eventsOf.
  - destruct (RemoveRedirect_step id wg w) as (Hq&_&_&_&_&_&_&_&_&ts&Hts).
    eapply releaseProgress_transport; eauto; simpl.
    + rewrite Hts. rewrite lookup_app_l; [done|]. by eapply lookup_lt_Some.
    + by apply quietly_eventsOf.
  - destruct (decide (tid' = tid)) as [->|Hne]; [by apply releaseProgress_own_step|].
    destruct (releaseStep_step tid' w) as ((evs&Htr&Hevs)&_).
    eapply releaseProgress_transport; eauto; simpl.
    + unfold releaseStep.
      destruct (releaseTasks w !! tid') as [t'|]; [|done].
      destruct (task_pc t') as [|wake| |]; [| | |done].
      * simpl. by rewrite list_lookup_alter_ne.
      * case_decide; [|done]. destruct (heap w !! _); [|done].
        simpl. by rewrite list_lookup_alter_ne.
      * destruct (heap w !! _); [|done]. simpl. by rewrite list_lookup_alter_ne.
    + rewrite Htr, eventsOf_app, (eventsOf_other tid tid' evs) by done.
      by rewrite app_nil_r.
  - destruct (sweeperStep_step w) as (Hq&_&_&_&_&_&_&Hts).
    eapply releaseProgress_transport; eauto; simpl.
    + by rewrite Hts.
    + by apply quietly_eventsOf.
  - eapply releaseProgress_transport; eauto.
Qed.

Lemma releaseProgress_run ops tid r to removed : forall w,
  releaseProgress tid r to removed w ->
  releaseProgress tid r to removed (run ops w).
Proof.
  induction ops as [|o ops IH]; intros w Hprog; [done|].
  simpl. by apply IH, releaseProgress_step.
Qed.

(** [RemoveRedirect] on an identifier that is present. *)
Lemma RemoveRedirect_present id wg w r :
  WF w -> redirects (proxy w) !! id = Some r ->
  exists rd w',
    heap w !! r = Some rd /\
    RemoveRedirect id wg w = (w', Returns (Ok tt)) /\
    redirects (proxy w') !! id = None /\
    allocatedPorts (proxy w') !! ProxyPort rd = Some r /\
    releaseProgress (length (releaseTasks w)) r (ProxyPort rd) (clock w) w'.
Proof.
  intros HW Hid. destruct (wf_redirects w HW id r Hid) as (rd&Hr&Ha&impl&Hi).
  pose proof (eventsOf_fresh w HW) as Hfresh.
  exists rd. unfold RemoveRedirect. rewrite Hid, Hr. simpl. rewrite Hi.
  eexists. split; [done|]. split; [reflexivity|]. simpl.
  split; [apply lookup_delete_eq|]. split; [done|].
  split; [done|]. split; [by exists rd|].
  eexists. split; [by apply list_lookup_middle|]. split; [done|]. simpl.
  rewrite eventsOf_app, Hfresh. done.
Qed.

(** While the goroutine has not returned, the port it will release is
    reserved for the record it was started for. *)
Lemma releaseProgress_reserved tid r to removed w :
  WF w -> releaseProgress tid r to removed w ->
  (clock w < removed + portReleaseDelay ->
     allocatedPorts (proxy w) !! to = Some r /\ eventsOf tid (trace w) = []) /\
  (allocatedPorts (proxy w) !! to <> Some r ->
     exists t1 t2, removed + portReleaseDelay <= t1 <= t2 /\ t2 <= clock w /\
       eventsOf tid (trace w) =
         [(t1, EvCleanupOnRedirectClose tid to); (t2, EvPortReleased tid to)]).
Proof.
  intros HW (Hc&(rd&Hr&Hport)&t&Ht&Htr&Hpc).
  assert (live t -> allocatedPorts (proxy w) !! to = Some r) as Hlive.
  { intros Hl. destruct (wf_tasks w HW tid t Ht Hl) as [(rd'&Hr'&Ha) _].
    rewrite Htr in *. congruence. }
  unfold live in Hlive.
  destruct (task_pc t) as [|wake| |]; split.
  - intros _. split; [by apply Hlive|done].
  - intros []. by apply Hlive.
  - intros _. split; [by apply Hlive|by destruct Hpc].
  - intros []. by apply Hlive.
  - intros Hearly. destruct Hpc as (t1&Ht1&_). lia.
  - intros []. by apply Hlive.
  - intros Hearly. destruct Hpc as (t1&t2&Ht1&Ht2&_). lia.
  - intros _. destruct Hpc as (t1&t2&Ht1&Ht2&Hev). by exists t1, t2.
Qed.

(** ** The goroutine gets its work done *)

(** What [CreateOrUpdateRedirect] adds to the maps is the location of a
    record that did not exist before. *)
Lemma createOrUpdateLocked_fresh l4 id src wg b w :
  let w' := fst (createOrUpdateLocked l4 id src wg b w) in
  (forall to r, allocatedPorts (proxy w') !! to = Some r ->
     allocatedPorts (proxy w) !! to = Some r \/ r = length (heap w)) /\
  (forall id0 r, redirects (proxy w') !! id0 = Some r ->
     redirects (proxy w) !! id0 = Some r \/ r = length (heap w)).
Proof.
  unfold createOrUpdateLocked.
  destruct (redirects (proxy w) !! id) as [r|] eqn:Hid.
  - destruct (heap w !! r) as [rd|] eqn:Hr; [|simpl; auto].
    destruct (updateExisting_heap l4 wg b r rd w) as (Hp&_). simpl. rewrite Hp. auto.
  - pose proof (retryCreatePort_spec l4 id b 0
      (updateRules l4 (set_parserType (L7Parser l4) (set_ingress (Ingress l4)
        (set_endpointID (GetID src) (newRedirect (wrap16 (Port l4)) src id (clock w))))))
      w) as Hspec.
    destruct (retryCreatePort _ _ _ _ _ _) as [w' out]. simpl.
    destruct Hspec as [_ Hout].
    destruct out as [[r|e]|]; [ | |done].
    + destruct Hout as (to&rd&(Hr&_&_&_&Hp&_)&_). rewrite Hp. simpl. split.
      * intros to0 r0 H0. destruct (decide (to0 = to)) as [->|Hne].
        -- rewrite lookup_insert_eq in H0. injection H0 as <-. by right.
        -- rewrite lookup_insert_ne in H0 by done. by left.
      * intros id0 r0 H0. destruct (decide (id0 = id)) as [->|Hne].
        -- rewrite lookup_insert_eq in H0. injection H0 as <-. by right.
        -- rewrite lookup_insert_ne in H0 by done. by left.
    + destruct Hout as (Hp&_). rewrite Hp. auto.
Qed.

(** A release goroutine only takes reservations away. *)
Lemma releaseStep_reserved tid w to r :
  allocatedPorts (proxy (releaseStep tid w)) !! to = Some r ->
  allocatedPorts (proxy w) !! to = Some r.
Proof.
  unfold releaseStep.
  destruct (releaseTasks w !! tid) as [t|]; [|done].
  destruct (task_pc t) as [|wake| |]; try done.
  - case_decide; [|done]. by destruct (heap w !! task_redirect t).
  - destruct (heap w !! task_redirect t) as [rd|]; [|done].
    simpl. by intros [_ H]%lookup_delete_Some.
Qed.

(** No step reserves a port for a record that exists already, and none
    indexes one. *)
Lemma not_reserved_step o w to r :
  is_Some (heap w !! r) ->
  allocatedPorts (proxy w) !! to <> Some r ->
  allocatedPorts (proxy (step o w)) !! to <> Some r.
Proof.
  intros Hr%lookup_lt_is_Some Hn.
  destruct o as [notifier|l4 id src wg b|id wg|tid| |d]; simpl.
  - by destruct (gcOnceDo_frame notifier w) as (->&_).
  - destruct (createOrUpdateLocked_fresh l4 id src wg b w) as [Hf _].
    intros [H| ->]%Hf; [done|lia].
  - by destruct (RemoveRedirect_step id wg w) as (_&_&_&_&_&_&->&_).
  - by intros H%releaseStep_reserved.
  - by destruct (sweeperStep_step w) as (_&->&_).
  - done.
Qed.




(** Only its own steps move a release goroutine. *)
Lemma step_other_task o tid w t :
  o <> OpReleaseStep tid ->
  releaseTasks w !! tid = Some t -> releaseTasks (step o w) !! tid = Some t.
Proof.
  intros Hne Ht. destruct o as [notifier|l4 id src wg b|id wg|tid'| |d]; simpl.
  - by destruct (gcOnceDo_frame notifier w) as (_&_&_&_&->&_).
  - destruct (createOrUpdateLocked_step l4 id src wg b w) as ((_&_&_&_&Hts&_)%ambient_inv&_).
    simpl in Hts. by rewrite Hts.
  - destruct (RemoveRedirect_step id wg w) as (_&_&_&_&_&_&_&_&_&ts&Hts).
    simpl in Hts. rewrite Hts. by apply lookup_app_l_Some.
  - assert (tid' <> tid) as Hne' by congruence. unfold releaseStep.
    destruct (releaseTasks w !! tid') as [t'|]; [|done].
    destruct (task_pc t') as [|wake| |]; [| | |done].
    + simpl. by rewrite list_lookup_alter_ne.
    + case_decide; [|done]. destruct (heap w !! _); [|done].
      simpl. by rewrite list_lookup_alter_ne.
    + destruct (heap w !! _); [|done]. simpl. by rewrite list_lookup_alter_ne.
  - by destruct (sweeperStep_step w) as (_&_&_&_&_&_&_&->).
  - done.
Qed.

Lemma lookup_set_pc tid pc w t :
  releaseTasks w !! tid = Some t ->
  releaseTasks (set_pc tid pc w) !! tid = Some (set_task_pc pc t).
Proof. intros Ht. simpl. by rewrite list_lookup_alter_eq, Ht. Qed.

(** What a step of the goroutine does, place by place: it goes to sleep for
    [portReleaseDelay]; when the sleep is over it calls the cleanup for the
    port; it deletes the port and returns. *)
Lemma releaseStep_own tid r to removed w t :
  releaseProgress tid r to removed w -> releaseTasks w !! tid = Some t ->
  match task_pc t with
  | Spawned => releaseStep tid w = set_pc tid (Sleeping (clock w + portReleaseDelay)) w
  | Sleeping wake =>
      (wake <= clock w ->
       releaseStep tid w = set_pc tid Cleaned (emit (EvCleanupOnRedirectClose tid to) w)) /\
      (clock w < wake -> releaseStep tid w = w)
  | Cleaned =>
      releaseStep tid w =
        set_pc tid Finished
          (emit (EvPortReleased tid to)
             (set_proxy (set_allocatedPorts (delete to (allocatedPorts (proxy w))) (proxy w)) w))
  | Finished => releaseStep tid w = w
  end.
Proof.
  intros (_&(rd&Hr&Hp)&t0&Ht0&Htr&_) Ht. assert (t0 = t) as -> by congruence.
  unfold releaseStep. rewrite Ht.
  destruct (task_pc t) as [|wake| |]; [done| | |done].
  - rewrite Htr, Hr, Hp. split; intros H; [by rewrite decide_True|by rewrite decide_False by lia].
  - by rewrite Htr, Hr, Hp.
Qed.

(** A set of places the goroutine cannot leave by going on stays reached
    whatever is scheduled. *)
Lemma releaseAt_step o tid r to removed (P : ReleasePc -> Prop) w :
  (forall wake, P Spawned -> P (Sleeping wake)) ->
  (forall wake, P (Sleeping wake) -> P Cleaned) ->
  (P Cleaned -> P Finished) ->
  releaseProgress tid r to removed w ->
  releaseAt tid P w -> releaseAt tid P (step o w).
Proof.
  intros H1 H2 H3 Hprog (t&Ht&HP).
  assert (o <> OpReleaseStep tid -> releaseAt tid P (step o w)) as Hother.
  { intros Hne. exists t. split; [by apply step_other_task|done]. }
  destruct o as [notifier|l4 id src wg b|id wg|tid'| |d]; try (apply Hother; discriminate).
  destruct (decide (tid' = tid)) as [->|Hne]; [|apply Hother; congruence].
  simpl. pose proof (releaseStep_own tid r to removed w t Hprog Ht) as Hown.
  destruct (task_pc t) as [|wake| |] eqn:Hpc.
  - rewrite Hown. eexists. split; [by apply lookup_set_pc|]. simpl. by apply H1.
  - destruct Hown as [Hdue Hnot]. destruct (decide (wake <= clock w)).
    + rewrite Hdue by done. eexists. split; [apply lookup_set_pc; exact Ht|].
      simpl. by eapply H2.
    + rewrite Hnot by lia. exists t. by rewrite Hpc.
  - rewrite Hown. eexists. split; [apply lookup_set_pc; exact Ht|]. simpl. by apply H3.
  - rewrite Hown. exists t. by rewrite Hpc.
Qed.

Lemma releaseAt_run ops tid r to removed (P : ReleasePc -> Prop) :
  (forall wake, P Spawned -> P (Sleeping wake)) ->
  (forall wake, P (Sleeping wake) -> P Cleaned) ->
  (P Cleaned -> P Finished) ->
  forall w, releaseProgress tid r to removed w ->
  releaseAt tid P w -> releaseAt tid P (run ops w).
Proof.
  intros H1 H2 H3. induction ops as [|o ops IH]; intros w Hprog Hat; [done|].
  simpl. apply IH; [by apply releaseProgress_step|by eapply releaseAt_step].
Qed.

Lemma releaseBound_step o tid r to removed w :
  releaseProgress tid r to removed w ->
  releaseBound tid r to w -> releaseBound tid r to (step o w).
Proof.
  intros Hprog Hb. pose proof Hprog as (_&(rd&Hr&_)&t&Ht&_).
  destruct (step_fixed o w) as (Hclock&_).
  specialize (Hb t Ht).
  assert (o <> OpReleaseStep tid -> releaseBound tid r to (step o w)) as Hother.
  { intros Hne t' Ht'. rewrite (step_other_task o tid w t Hne Ht) in Ht'. injection Ht' as <-.
    destruct (task_pc t) as [|wake| |]; try done.
    - lia.
    - apply not_reserved_step; [by exists rd|done]. }
  destruct o as [notifier|l4 id src wg b|id wg|tid'| |d]; try (apply Hother; discriminate).
  destruct (decide (tid' = tid)) as [->|Hne]; [|apply Hother; congruence].
  clear Hother. simpl in *.
  pose proof (releaseStep_own tid r to removed w t Hprog Ht) as Hown.
  intros t' Ht'. revert Ht'.
  destruct (task_pc t) as [|wake| |] eqn:Hpc.
  - rewrite Hown, (lookup_set_pc tid _ w t Ht). intros [= <-]. simpl. lia.
  - destruct Hown as [Hdue Hnot]. destruct (decide (wake <= clock w)).
    + rewrite Hdue by done. rewrite (lookup_set_pc tid _ _ t) by exact Ht.
      by intros [= <-].
    + rewrite Hnot by lia. rewrite Ht. intros [= <-]. by rewrite Hpc.
  - rewrite Hown. rewrite (lookup_set_pc tid _ _ t) by exact Ht.
    intros [= <-]. simpl. by rewrite lookup_delete_eq.
  - rewrite Hown, Ht. intros [= <-]. by rewrite Hpc.
Qed.

Lemma releaseBound_run ops tid r to removed : forall w,
  releaseProgress tid r to removed w ->
  releaseBound tid r to w -> releaseBound tid r to (run ops w).
Proof.
  induction ops as [|o ops IH]; intros w Hprog Hb; [done|].
  simpl. apply IH; [by apply releaseProgress_step|by eapply releaseBound_step].
Qed.

(** Whatever else is scheduled, a goroutine that is given three steps, the
    second one at least [portReleaseDelay] after the first, has returned
    after the third, and the port is not reserved for its record any more;
    when the port was still reserved before the third step, that step has
    deleted it. *)
Lemma release_completes tid r to removed w1 b c :
  releaseProgress tid r to removed w1 -> releaseBound tid r to w1 ->
  let w2 := run b (releaseStep tid w1) in
  let w3 := run c (releaseStep tid w2) in
  let w4 := releaseStep tid w3 in
  clock w1 + portReleaseDelay <= clock w2 ->
  releaseProgress tid r to removed w4 /\
  releaseAt tid (fun pc => pc = Finished) w4 /\
  allocatedPorts (proxy w4) !! to <> Some r /\
  (allocatedPorts (proxy w3) !! to = Some r -> allocatedPorts (proxy w4) !! to = None).
Proof.
  intros Hp1 Hb1 w2 w3 w4 Htime.
  set (due := fun pc => match pc with
                        | Spawned => False
                        | Sleeping wake => wake <= clock w1 + portReleaseDelay
                        | _ => True
                        end).
  set (past := fun pc => pc = Cleaned \/ pc = Finished).
  assert (releaseProgress tid r to removed w2) as Hp2.
  { by apply releaseProgress_run, releaseProgress_own_step. }
  assert (releaseProgress tid r to removed w3) as Hp3.
  { by apply releaseProgress_run, releaseProgress_own_step. }
  assert (releaseBound tid r to w3) as Hb3.
  { apply (releaseBound_run c tid r to removed); [by apply releaseProgress_own_step|].
    apply (releaseBound_step (OpReleaseStep tid) tid r to removed); [done|].
    apply (releaseBound_run b tid r to removed); [by apply releaseProgress_own_step|].
    by apply (releaseBound_step (OpReleaseStep tid) tid r to removed). }
  assert (releaseAt tid due w2) as Hd2.
  { apply (releaseAt_run b tid r to removed); try done.
    { by apply releaseProgress_own_step. }
    pose proof Hp1 as (_&_&t&Ht&_).
    pose proof (releaseStep_own tid r to removed w1 t Hp1 Ht) as Hown.
    specialize (Hb1 t Ht).
    destruct (task_pc t) as [|wake| |] eqn:Hpc.
    - rewrite Hown. eexists. split; [by apply lookup_set_pc|]. simpl. lia.
    - destruct Hown as [Hdue Hnot]. destruct (decide (wake <= clock w1)).
      + rewrite Hdue by done. eexists. split; [apply lookup_set_pc; exact Ht|]. done.
      + rewrite Hnot by lia. exists t. by rewrite Hpc.
    - rewrite Hown. eexists. split; [apply lookup_set_pc; exact Ht|]. done.
    - rewrite Hown. exists t. by rewrite Hpc. }
  assert (releaseAt tid past w3) as Hs3.
  { apply (releaseAt_run c tid r to removed).
    - intros wake [?|?]; discriminate.
    - intros wake [?|?]; discriminate.
    - intros _. by right.
    - by apply releaseProgress_own_step.
    - destruct Hd2 as (t&Ht&Hdue).
      pose proof (releaseStep_own tid r to removed w2 t Hp2 Ht) as Hown.
      destruct (task_pc t) as [|wake| |] eqn:Hpc; simpl in Hdue.
      + done.
      + destruct Hown as [Hgo _]. fold w2 in Hgo. rewrite Hgo by lia.
        eexists. split; [apply lookup_set_pc; exact Ht|]. by left.
      + rewrite Hown. eexists. split; [apply lookup_set_pc; exact Ht|]. by right.
      + rewrite Hown. exists t. split; [done|]. rewrite Hpc. by right. }
  split; [by apply releaseProgress_own_step|].
  destruct Hs3 as (t&Ht&Hpast).
  pose proof (releaseStep_own tid r to removed w3 t Hp3 Ht) as Hown.
  specialize (Hb3 t Ht). unfold w4.
  destruct Hpast as [Hpc|Hpc]; rewrite Hpc in Hown, Hb3; rewrite Hown.
  - split; [eexists; split; [apply lookup_set_pc; exact Ht|done]|].
    simpl. rewrite lookup_delete_eq. done.
  - split; [exists t; done|]. done.
Qed.

(** Right after [RemoveRedirect] the goroutine has not started. *)
Lemma RemoveRedirect_releaseBound id wg w r to :
  redirects (proxy w) !! id = Some r ->
  releaseBound (length (releaseTasks w)) r to (fst (RemoveRedirect id wg w)).
Proof.
  intros Hid. unfold RemoveRedirect. rewrite Hid.
  destruct (heap w !! r ≫= implementation) as [impl|].
  - simpl. intros t Ht. simpl in Ht. rewrite list_lookup_middle in Ht by done.
    by injection Ht as <-.
  - simpl. intros t Ht. apply lookup_lt_Some in Ht. lia.
Qed.

(** C3.  In any process the manager's operations can reach, for an
    identifier that is present, [RemoveRedirect] returns without error with
    the identifier gone from [redirects] and the redirect's proxy port still
    a key of [allocatedPorts].  Whatever happens afterwards: as long as
    less than [portReleaseDelay] (5 minutes) has passed since the call the
    port is still reserved for that redirect and the goroutine has done
    nothing; the goroutine does at most two things, in this order and both
    after the 5 minutes, the connection-table cleanup for that port and then
    the release of that port; and when the port is no longer reserved for
    that redirect, it has done both.  And the goroutine does do them: from
    any later moment, whatever else is scheduled, once it has been given
    three steps, the second at least 5 minutes after the first, it has
    called the cleanup for that port and then deleted the port, which is
    no longer reserved for that redirect; a port still reserved before the
    third step is no key of [allocatedPorts] after it. *)
Theorem remove_defers_port_release minPort maxPort dir lf labels seed now ops id wg later :
  let w := run ops (startWorld minPort maxPort dir lf labels seed now) in
  is_Some (redirects (proxy w) !! id) ->
  exists r rd w',
    redirects (proxy w) !! id = Some r /\ heap w !! r = Some rd /\
    RemoveRedirect id wg w = (w', Returns (Ok tt)) /\
    redirects (proxy w') !! id = None /\
    allocatedPorts (proxy w') !! ProxyPort rd = Some r /\
    let tid := length (releaseTasks w) in
    let w'' := run later w' in
    releaseProgress tid r (ProxyPort rd) (clock w) w'' /\
    (clock w'' < clock w + portReleaseDelay ->
       allocatedPorts (proxy w'') !! ProxyPort rd = Some r /\
       eventsOf tid (trace w'') = []) /\
    (allocatedPorts (proxy w'') !! ProxyPort rd <> Some r ->
       exists t1 t2, clock w + portReleaseDelay <= t1 <= t2 /\ t2 <= clock w'' /\
         eventsOf tid (trace w'') =
           [(t1, EvCleanupOnRedirectClose tid (ProxyPort rd));
            (t2, EvPortReleased tid (ProxyPort rd))]) /\
    forall b c,
      let w2 := run b (releaseStep tid w'') in
      let w3 := run c (releaseStep tid w2) in
      let w4 := releaseStep tid w3 in
      clock w'' + portReleaseDelay <= clock w2 ->
      (allocatedPorts (proxy w3) !! ProxyPort rd = Some r ->
         allocatedPorts (proxy w4) !! ProxyPort rd = None) /\
      allocatedPorts (proxy w4) !! ProxyPort rd <> Some r /\
      exists t1 t2, clock w + portReleaseDelay <= t1 <= t2 /\ t2 <= clock w4 /\
        eventsOf tid (trace w4) =
          [(t1, EvCleanupOnRedirectClose tid (ProxyPort rd));
           (t2, EvPortReleased tid (ProxyPort rd))].
Proof.
  intros w [r Hid].
  assert (WF w) as HW by apply WF_run, WF_start.
  destruct (RemoveRedirect_present id wg w r HW Hid) as (rd&w'&Hr&Hrem&Hgone&Hres&Hprog).
  exists r, rd, w'. repeat (split; [done|]).
  intros tid w''.
  assert (WF w'') as HW''.
  { apply WF_run. replace w' with (fst (RemoveRedirect id wg w)) by (by rewrite Hrem).
    by apply WF_RemoveRedirect. }
  pose proof (releaseProgress_run later tid r (ProxyPort rd) (clock w) w' Hprog) as Hprog''.
  split; [done|].
  destruct (releaseProgress_reserved tid r (ProxyPort rd) (clock w) w'' HW'' Hprog'')
    as [Hearly Hlate].
  split; [done|]. split; [done|].
  intros b c w2 w3 w4 Htime.
  assert (releaseBound tid r (ProxyPort rd) w'') as Hb.
  { apply (releaseBound_run later tid r (ProxyPort rd) (clock w)); [done|].
    replace w' with (fst (RemoveRedirect id wg w)) by (by rewrite Hrem).
    by apply RemoveRedirect_releaseBound. }
  destruct (release_completes tid r (ProxyPort rd) (clock w) w'' b c Hprog'' Hb Htime)
    as (Hp4&(t&Ht&Hfin)&Hnot&Hdel).
  split; [done|]. split; [done|].
  destruct Hp4 as (_&_&t0&Ht0&_&Hpc). fold w2 w3 w4 in Ht, Ht0.
  assert (t0 = t) as -> by congruence. by rewrite Hfin in Hpc.
Qed.

(** ** The theorems at concrete processes *)

(** C1 at a fresh manager on [10000, 10002] whose factories always fail:
    six constructions, and the error of the sixth. *)
Lemma create_makes_six_attempts_witness :
  exists w',
    CreateOrUpdateRedirect (httpFilter ∅) "ep1-egress" ep1 1%nat 2%nat badBackend exampleStart =
      (w', Returns (Err (ErrBackend "5"))) /\
    constructionAttempts (trace w') = (constructionAttempts (trace exampleStart) + 6)%nat /\
    proxy w' = proxy exampleStart /\ heap w' = heap exampleStart /\
    redirects (proxy w') !! "ep1-egress" = None.
Proof.
  apply (create_makes_six_attempts (httpFilter ∅) "ep1-egress" ep1 1%nat 2%nat badBackend
           (fun n => ErrBackend (String (Ascii.ascii_of_nat (48 + n)) "")) exampleStart).
  - reflexivity.
  - left. reflexivity.
  - intros k rd. reflexivity.
  - intros k rd. reflexivity.
  - intros g. apply (allocatePort_free (proxy exampleStart) g 10000);
      unfold is_uint16; simpl; (lia || reflexivity).
Defined.

(** C3 at "ep1-egress" on port 10000: removed when the clock reads 1000,
    and looked at one microsecond later. *)
Lemma remove_defers_port_release_witness :
  let w := run (callCreateOrUpdate (httpFilter ∅) "ep1-egress" ep1 1%nat 2%nat goodBackend)
             (startWorld 10000 10002 "/var/run/cilium" "" [] [5; 7; 11; 2]%nat 1000) in
  let later := [OpTick 1000] in
  is_Some (redirects (proxy w) !! "ep1-egress") /\
  exists r rd w',
    redirects (proxy w) !! "ep1-egress" = Some r /\ heap w !! r = Some rd /\
    RemoveRedirect "ep1-egress" 3%nat w = (w', Returns (Ok tt)) /\
    redirects (proxy w') !! "ep1-egress" = None /\
    allocatedPorts (proxy w') !! ProxyPort rd = Some r /\
    let tid := length (releaseTasks w) in
    let w'' := run later w' in
    releaseProgress tid r (ProxyPort rd) (clock w) w'' /\
    (clock w'' < clock w + portReleaseDelay ->
       allocatedPorts (proxy w'') !! ProxyPort rd = Some r /\
       eventsOf tid (trace w'') = []) /\
    (allocatedPorts (proxy w'') !! ProxyPort rd <> Some r ->
       exists t1 t2, clock w + portReleaseDelay <= t1 <= t2 /\ t2 <= clock w'' /\
         eventsOf tid (trace w'') =
           [(t1, EvCleanupOnRedirectClose tid (ProxyPort rd));
            (t2, EvPortReleased tid (ProxyPort rd))]) /\
    forall b c,
      let w2 := run b (releaseStep tid w'') in
      let w3 := run c (releaseStep tid w2) in
      let w4 := releaseStep tid w3 in
      clock w'' + portReleaseDelay <= clock w2 ->
      (allocatedPorts (proxy w3) !! ProxyPort rd = Some r ->
         allocatedPorts (proxy w4) !! ProxyPort rd = None) /\
      allocatedPorts (proxy w4) !! ProxyPort rd <> Some r /\
      exists t1 t2, clock w + portReleaseDelay <= t1 <= t2 /\ t2 <= clock w4 /\
        eventsOf tid (trace w4) =
          [(t1, EvCleanupOnRedirectClose tid (ProxyPort rd));
           (t2, EvPortReleased tid (ProxyPort rd))].
Proof.
  intros w later. split.
  - exists 0%nat. vm_compute. reflexivity.
  - pose proof (remove_defers_port_release 10000 10002 "/var/run/cilium" "" []
             [5; 7; 11; 2]%nat 1000
             (callCreateOrUpdate (httpFilter ∅) "ep1-egress" ep1 1%nat 2%nat goodBackend)
             "ep1-egress" 3%nat later) as H.
    cbv beta zeta in H. fold w in H. cbv zeta. apply H.
    exists 0%nat. vm_compute. reflexivity.
Defined.

(** C4 at "ep1-egress", created with the HTTP parser and updated with a
    Kafka filter. *)
Lemma update_parser_mismatch_witness :
  exists w',
    CreateOrUpdateRedirect (kafkaFilter ∅) "ep1-egress" ep1 1%nat 2%nat goodBackend exampleActive =
      (w', Returns (Err (ErrInvalidType ParserTypeKafka ParserTypeHTTP))) /\
    proxy w' = proxy exampleActive /\ heap w' = heap exampleActive.
Proof.
  edestruct (update_parser_mismatch (kafkaFilter ∅) "ep1-egress" ep1 1%nat 2%nat goodBackend
               exampleActive 0%nat) as (w'&Hcall&Hp&Hh&_).
  - vm_compute. reflexivity.
  - vm_compute. reflexivity.
  - vm_compute. discriminate.
  - exists w'. split; [exact Hcall|]. split; assumption.
Defined.

(** C5 (amended) at Scenario A followed by a removal and its release. *)
Lemma invariant_reachable_witness :
  Inv (run (callCreateOrUpdate (httpFilter ∅) "ep1-egress" ep1 1%nat 2%nat goodBackend
            ++ [OpRemoveRedirect "ep1-egress" 3%nat; OpReleaseStep 0;
                OpTick 300000000000; OpReleaseStep 0; OpReleaseStep 0])
         (startWorld 10000 10002 "/var/run/cilium" "" [] [5; 7; 11; 2]%nat 1000)).
Proof.
  apply invariant_reachable; unfold is_uint16; lia.
Defined.

(** C5 as stated fails on a manager started on the bounds 65535 and 0: the
    invariant holds of the fresh manager, and not after one successful
    [CreateOrUpdateRedirect], which reserves port 0. *)
Lemma invariant_broken_on_inverted_range :
  Inv invertedStart /\
  ~ Inv (run (callCreateOrUpdate (httpFilter ∅) "ep1-egress" ep1 1%nat 2%nat goodBackend)
           invertedStart).
Proof.
  split.
  - split; intros k r H; simpl in H; by rewrite lookup_empty in H.
  - intros [Hports _]. destruct (Hports 0 0%nat) as [[Hlo _] _].
    + vm_compute. reflexivity.
    + vm_compute in Hlo. by apply Hlo.
Qed.

(** C6 at "ep1-egress", updated with a new rule set one second after its
    creation (Scenario D). *)
Lemma update_replaces_rules_witness :
  let rs : L7DataMap := {[ "app=client"%string := "GET /public"%string ]} in
  let w := step (OpTick 1000000000) exampleActive in
  exists w' rd',
    CreateOrUpdateRedirect (httpFilter rs) "ep1-egress" ep1 1%nat 2%nat goodBackend w =
      (w', Returns (Ok 0%nat)) /\
    proxy w' = proxy w /\ heap w' !! 0%nat = Some rd' /\
    rules rd' = rs /\ lastUpdated rd' = 1000001000 /\
    ProxyPort rd' = 10000 /\ created rd' = 1000.
Proof.
  intros rs w.
  assert (CreateOrUpdateRedirect (httpFilter rs) "ep1-egress" ep1 1%nat 2%nat goodBackend w =
          (fst (CreateOrUpdateRedirect (httpFilter rs) "ep1-egress" ep1 1%nat 2%nat
                  goodBackend w), Returns (Ok 0%nat))) as Hcall.
  { vm_compute. reflexivity. }
  edestruct (update_replaces_rules (httpFilter rs) "ep1-egress" ep1 1%nat 2%nat goodBackend
               w 0%nat) as (_&Hp&_&rd'&Hrd'&Hrules&Hupd&Hport&Hcreated&_).
  - vm_compute. reflexivity.
  - vm_compute. reflexivity.
  - reflexivity.
  - exact Hcall.
  - eexists _, rd'. split; [exact Hcall|]. split; [exact Hp|].
    split; [exact Hrd'|]. split; [exact Hrules|].
    split; [rewrite Hupd; vm_compute; reflexivity|].
    split; [rewrite Hport; reflexivity|rewrite Hcreated; reflexivity].
Defined.

(** C7 at Scenario B: the single port of the range is held by
    "ep1-egress", and "ep2-egress" is created. *)
Lemma create_ports_exhausted_witness :
  exists w',
    CreateOrUpdateRedirect (httpFilter ∅) "ep2-egress" ep1 1%nat 2%nat goodBackend tightActive =
      (w', Returns (Err ErrNoAvailablePorts)) /\
    proxy w' = proxy tightActive /\ heap w' = heap tightActive /\
    constructionAttempts (trace w') = constructionAttempts (trace tightActive).
Proof.
  edestruct (create_ports_exhausted (httpFilter ∅) "ep2-egress" ep1 1%nat 2%nat goodBackend
               tightActive ErrNoAvailablePorts) as (w'&Hcall&_&_&Hp&Hh&Hc&_).
  - vm_compute. reflexivity.
  - vm_compute. reflexivity.
  - exists w'. repeat split; assumption.
Defined.

(** C8 at a fresh manager and a filter with the parser type "grpc". *)
Lemma create_unsupported_parser_witness :
  let l4 := {| Port := 50051; L7Parser := "grpc"%string; Ingress := true;
               L7RulesPerEp := ∅ |} in
  exists w',
    CreateOrUpdateRedirect l4 "ep1-ingress" ep1 1%nat 2%nat goodBackend exampleStart =
      (w', Returns (Err (ErrUnsupportedParser "grpc"))) /\
    proxy w' = proxy exampleStart /\ heap w' = heap exampleStart /\
    constructionAttempts (trace w') = constructionAttempts (trace exampleStart).
Proof.
  intros l4.
  edestruct (create_unsupported_parser l4 "ep1-ingress" ep1 1%nat 2%nat goodBackend
               exampleStart) as (w'&Hcall&Hp&Hh&Hc&_).
  - vm_compute. reflexivity.
  - vm_compute. discriminate.
  - vm_compute. discriminate.
  - exists w'. split; [exact Hcall|]. repeat split; assumption.
Defined.

(** C10 at "ep1-egress", updated through a backend that rejects the rules. *)
Lemma update_failure_keeps_new_rules_witness :
  let rs : L7DataMap := {[ "app=client"%string := "GET /public"%string ]} in
  let w := step (OpTick 1000000000) exampleActive in
  exists w' rd',
    CreateOrUpdateRedirect (httpFilter rs) "ep1-egress" ep1 1%nat 2%nat badBackend w =
      (w', Returns (Err (ErrBackend "update"))) /\
    heap w' !! 0%nat = Some rd' /\
    rules rd' = rs /\ lastUpdated rd' = 1000 /\ ProxyPort rd' = 10000 /\
    redirects (proxy w') !! "ep1-egress" = Some 0%nat /\
    allocatedPorts (proxy w') = allocatedPorts (proxy w).
Proof.
  intros rs w.
  edestruct (update_failure_keeps_new_rules (httpFilter rs) "ep1-egress" ep1 1%nat 2%nat
               badBackend w 0%nat) as (w'&rd'&Hcall&Hrd'&Hrules&Hupd&Hport&Hid&Ha).
  - vm_compute. reflexivity.
  - vm_compute. reflexivity.
  - reflexivity.
  - reflexivity.
  - reflexivity.
  - exists w', rd'. repeat split; assumption.
Defined.

(** ** Further properties *)

(** [allocatePort] at Scenario A, where port 10000 is taken and two ports
    are free. *)
Lemma allocatePort_spec_witness :
  (exists to, fst (allocatePort (proxy exampleActive) [3; 1; 4]%nat) = Ok to /\
     10000 <= to <= 10002 /\ allocatedPorts (proxy exampleActive) !! to = None) \/
  (fst (allocatePort (proxy exampleActive) [3; 1; 4]%nat) = Err ErrNoAvailablePorts /\
     forall to, 10000 <= to <= 10002 ->
       is_Some (allocatedPorts (proxy exampleActive) !! to)).
Proof.
  assert (rangeMin (proxy exampleActive) = 10000) as Hmin by (vm_compute; reflexivity).
  assert (rangeMax (proxy exampleActive) = 10002) as Hmax by (vm_compute; reflexivity).
  rewrite <- Hmin, <- Hmax.
  apply (allocatePort_spec (proxy exampleActive) [3; 1; 4]%nat);
    rewrite ?Hmin, ?Hmax; unfold is_uint16; lia.
Defined.

(** Port uniqueness: in any process the manager's operations can reach, two
    identifiers that are indexed have redirects on different proxy ports. *)
Theorem indexed_ports_distinct minPort maxPort dir lf labels seed now ops id1 id2 r1 r2 rd1 rd2 :
  let w := run ops (startWorld minPort maxPort dir lf labels seed now) in
  id1 <> id2 ->
  redirects (proxy w) !! id1 = Some r1 -> redirects (proxy w) !! id2 = Some r2 ->
  heap w !! r1 = Some rd1 -> heap w !! r2 = Some rd2 ->
  ProxyPort rd1 <> ProxyPort rd2.
Proof.
  intros w Hne H1 H2 Hr1 Hr2 Heq.
  assert (WF w) as HW by apply WF_run, WF_start.
  destruct (wf_redirects w HW id1 r1 H1) as (rd1'&Hr1'&Ha1&_).
  destruct (wf_redirects w HW id2 r2 H2) as (rd2'&Hr2'&Ha2&_).
  assert (rd1' = rd1) as -> by congruence.
  assert (rd2' = rd2) as -> by congruence.
  rewrite Heq, Ha2 in Ha1. injection Ha1 as <-.
  apply Hne. by apply (wf_indexed_once w HW id1 id2 r2).
Qed.

(** Two redirects created one after the other on [10000, 10002]. *)
Lemma indexed_ports_distinct_witness :
  let ops := callCreateOrUpdate (httpFilter ∅) "ep1-egress" ep1 1%nat 2%nat goodBackend
             ++ callCreateOrUpdate (kafkaFilter ∅) "ep2-ingress" ep1 1%nat 2%nat goodBackend in
  let w := run ops (startWorld 10000 10002 "/var/run/cilium" "" [] [5; 7; 11; 2]%nat 1000) in
  exists rd1 rd2,
    heap w !! 0%nat = Some rd1 /\ heap w !! 1%nat = Some rd2 /\
    ProxyPort rd1 <> ProxyPort rd2.
Proof.
  intros ops w.
  assert (exists rd1, heap w !! 0%nat = Some rd1) as [rd1 Hr1].
  { eexists. vm_compute. reflexivity. }
  assert (exists rd2, heap w !! 1%nat = Some rd2) as [rd2 Hr2].
  { eexists. vm_compute. reflexivity. }
  exists rd1, rd2. split; [exact Hr1|]. split; [exact Hr2|].
  apply (indexed_ports_distinct 10000 10002 "/var/run/cilium" "" [] [5; 7; 11; 2]%nat 1000
           ops "ep1-egress" "ep2-ingress" 0%nat 1%nat rd1 rd2).
  - discriminate.
  - vm_compute. reflexivity.
  - vm_compute. reflexivity.
  - exact Hr1.
  - exact Hr2.
Defined.

(** ** The create path, record by record *)

Lemma construct_supported l4 b n redir w :
  L7Parser l4 = ParserTypeHTTP \/ L7Parser l4 = ParserTypeKafka ->
  exists ev, isConstruction ev = true /\
    construct l4 b n redir w = Some (emit ev w, factoryFor l4 b n redir).
Proof.
  intros Hparser. unfold construct, factoryFor.
  destruct (decide (L7Parser l4 = ParserTypeKafka)) as [Hk|Hk];
    [by exists (EvCreateKafkaRedirect redir)|].
  destruct (decide (L7Parser l4 = ParserTypeHTTP)) as [Hh|Hh];
    [by exists (EvCreateEnvoyRedirect redir)|tauto].
Qed.

(** What the record of a successful iteration is, and what an iteration
    that goes round again hands over. *)
Lemma attempt_Ok_record l4 id b n redir w w' r :
  attempt l4 id b n redir w = Done w' (Returns (Ok r)) ->
  exists to impl,
    published id r to (set_implementation impl (set_ProxyPort to redir)) w w' /\
    allocatedPorts (proxy w) !! to = None.
Proof.
  unfold attempt.
  destruct (allocatePort _ _) as [[to|err] g] eqn:Ha; [|discriminate].
  destruct (construct _ _ _ _ _) as [[w1 [impl|err]]|] eqn:Hc; try discriminate.
  2:{ case_decide; discriminate. }
  intros [= <- <-].
  apply construct_spec in Hc as ((Hp&Hh&Hamb)&_).
  apply allocatePort_Ok in Ha as (Hfree&_).
  exists to, impl. split; [|done].
  unfold published, ambient in *. simpl in *. rewrite Hh, Hp. repeat split; eauto.
Qed.

Lemma attempt_Retry_record l4 id b n redir w redir' w' :
  attempt l4 id b n redir w = Retry redir' w' ->
  exists to, redir' = set_ProxyPort to redir.
Proof.
  unfold attempt.
  destruct (allocatePort _ _) as [[to|err] g]; [|discriminate].
  destruct (construct _ _ _ _ _) as [[w1 [impl|err]]|]; try discriminate.
  case_decide; [discriminate|]. intros [= <- <-]. by exists to.
Qed.

Lemma retryCreatePort_record l4 id b n redir w w' r :
  retryCreatePort l4 id b n redir w = (w', Returns (Ok r)) ->
  exists to impl,
    published id r to (set_implementation impl (set_ProxyPort to redir)) w w' /\
    allocatedPorts (proxy w) !! to = None.
Proof.
  revert w' r.
  apply (retryCreatePort_induction l4 id b
    (fun n redir w out => forall w' r, out = (w', Returns (Ok r)) ->
       exists to impl,
         published id r to (set_implementation impl (set_ProxyPort to redir)) w w' /\
         allocatedPorts (proxy w) !! to = None)).
  - intros n0 redir0 w0 w1 res Ha w' r [= -> ->]. by apply attempt_Ok_record in Ha.
  - intros n0 redir0 w0 redir1 w1 out Ha IH w' r Hout.
    destruct (IH w' r Hout) as (to&impl&Hpub&Hfree).
    apply attempt_Retry_record in Ha as Hredir. destruct Hredir as [to1 ->].
    apply attempt_Retry in Ha as (Hf&_). pose proof Hf as (Hp&_).
    exists to, impl. split; [by eapply published_frame_l|by rewrite <- Hp].
Qed.

(** A call that takes the create path and succeeds has published, at a
    fresh location, the record built from the filter: the declared port
    truncated to [uint16], the endpoint, the direction, the parser type and
    the rules of the filter, both timestamps at the time of the call, a
    backend, and a proxy port that was not reserved. *)
Theorem create_publishes_filter l4 id src notifier wg b w w' r :
  redirects (proxy w) !! id = None ->
  CreateOrUpdateRedirect l4 id src notifier wg b w = (w', Returns (Ok r)) ->
  exists to impl,
    r = length (heap w) /\
    allocatedPorts (proxy w) !! to = None /\
    heap w' = heap w ++
      [ {| redirectID := id; port := wrap16 (Port l4); source := src;
           ProxyPort := to; endpointID := GetID src; ingress := Ingress l4;
           parserType := L7Parser l4; rules := L7RulesPerEp l4;
           implementation := Some impl; created := clock w;
           lastUpdated := clock w |} ] /\
    allocatedPorts (proxy w') = <[to := r]> (allocatedPorts (proxy w)) /\
    redirects (proxy w') = <[id := r]> (redirects (proxy w)) /\
    releaseTasks w' = releaseTasks w.
Proof.
  intros Hid. destruct (gcOnceDo_frame notifier w) as (Hp0&Hh0&_&Hc0&Ht0&_).
  unfold CreateOrUpdateRedirect.
  rewrite createOrUpdateLocked_absent by (by rewrite Hp0).
  intros (to&impl&(Hr&Hh&_&_&Hp&Hamb)&Hfree)%retryCreatePort_record.
  apply ambient_releaseTasks in Hamb.
  exists to, impl. rewrite Hp0 in Hfree. rewrite Hh0 in Hr, Hh. rewrite Hc0 in Hh.
  rewrite Hp, Hp0, Hamb, Ht0. simpl. subst r. done.
Qed.

(** ** Retries *)

Lemma attempt_factoryFor l4 id b n redir w to :
  L7Parser l4 = ParserTypeHTTP \/ L7Parser l4 = ParserTypeKafka ->
  fst (allocatePort (proxy w) (portRandomizer w)) = Ok to ->
  allocatedPorts (proxy w) !! to = None /\
  exists w1, frame w w1 /\ constructed 1 w w1 /\
    match factoryFor l4 b n (set_ProxyPort to redir) with
    | Err e =>
        attempt l4 id b n redir w =
          if decide (redirectCreationAttempts <= n)%nat
          then Done w1 (Returns (Err e))
          else Retry (set_ProxyPort to redir) w1
    | Ok impl =>
        exists w', attempt l4 id b n redir w = Done w' (Returns (Ok (length (heap w)))) /\
          constructed 1 w w' /\
          published id (length (heap w)) to
            (set_implementation impl (set_ProxyPort to redir)) w w'
    end.
Proof.
  intros Hparser Ha. unfold attempt.
  destruct (allocatePort _ _) as [res g] eqn:Hall. simpl in Ha. subst res.
  apply allocatePort_Ok in Hall as [Hfree _]. split; [done|].
  destruct (construct_supported l4 b n (set_ProxyPort to redir) (set_portRandomizer g w) Hparser)
    as (ev&Hev&->).
  exists (emit ev (set_portRandomizer g w)).
  split; [by repeat split|].
  assert (constructed 1 w (emit ev (set_portRandomizer g w))) as Hc.
  { exists [(clock w, ev)]. split; [done|]. split; [done|].
    apply Forall_singleton. simpl. by rewrite Hev. }
  split; [done|].
  destruct (factoryFor l4 b n (set_ProxyPort to redir)) as [impl|e]; [|done].
  eexists. split; [reflexivity|]. split.
  - destruct Hc as (evs&?&?&?). by exists evs.
  - unfold published, ambient. simpl. repeat split; eauto.
Qed.

Lemma retryCreatePort_retries l4 id b (errs : nat -> error) impl k j :
  L7Parser l4 = ParserTypeHTTP \/ L7Parser l4 = ParserTypeKafka ->
  (k <= redirectCreationAttempts)%nat ->
  (forall n rd, (n < k)%nat -> factoryFor l4 b n rd = Err (errs n)) ->
  (forall rd, factoryFor l4 b k rd = Ok impl) ->
  forall n redir w,
  (n + j = k)%nat ->
  (forall g, exists to, fst (allocatePort (proxy w) g) = Ok to) ->
  exists w' r to, retryCreatePort l4 id b n redir w = (w', Returns (Ok r)) /\
    constructed (S j) w w' /\
    allocatedPorts (proxy w) !! to = None /\
    published id r to (set_implementation impl (set_ProxyPort to redir)) w w'.
Proof.
  intros Hparser Hk Herr Hok.
  induction j as [|j IH]; intros n redir w Hn Hfree.
  - destruct (Hfree (portRandomizer w)) as [to Ha].
    destruct (attempt_factoryFor l4 id b n redir w to Hparser Ha) as (Hto&w1&_&_&Hatt).
    replace n with k in * by lia. rewrite Hok in Hatt.
    destruct Hatt as (w'&Hatt&Hc&Hpub). exists w', (length (heap w)), to.
    by rewrite retryCreatePort_step, Hatt.
  - destruct (Hfree (portRandomizer w)) as [to Ha].
    destruct (attempt_factoryFor l4 id b n redir w to Hparser Ha) as (_&w1&Hf&Hc&Hatt).
    rewrite Herr in Hatt by lia. rewrite decide_False in Hatt by lia.
    rewrite retryCreatePort_step, Hatt.
    pose proof Hf as (Hp&_).
    destruct (IH (S n) (set_ProxyPort to redir) w1) as (w'&r&to'&Hrun&Hc'&Hto'&Hpub);
      [lia|by rewrite Hp|].
    exists w', r, to'. split; [done|].
    split; [by apply (constructed_trans 1 (S j) w w1 w')|].
    split; [by rewrite <- Hp|]. by eapply published_frame_l.
Qed.

(** The create path absorbs failures of the factory: when the allocation
    of a port succeeds whatever the randomizer draws, and the factory of the
    filter's parser type fails at the attempts before [k] and succeeds at
    attempt [k], with [k] at most [redirectCreationAttempts], the call
    succeeds after exactly [k + 1] backend constructions, and the redirect
    it indexes has the backend of attempt [k] and a port that was free. *)
Theorem create_retries_until_success l4 id src notifier wg b (errs : nat -> error) impl k w :
  redirects (proxy w) !! id = None ->
  L7Parser l4 = ParserTypeHTTP \/ L7Parser l4 = ParserTypeKafka ->
  (k <= redirectCreationAttempts)%nat ->
  (forall n rd, (n < k)%nat -> factoryFor l4 b n rd = Err (errs n)) ->
  (forall rd, factoryFor l4 b k rd = Ok impl) ->
  (forall g, exists to, fst (allocatePort (proxy w) g) = Ok to) ->
  exists w' r rd,
    CreateOrUpdateRedirect l4 id src notifier wg b w = (w', Returns (Ok r)) /\
    constructionAttempts (trace w') = (constructionAttempts (trace w) + S k)%nat /\
    redirects (proxy w') !! id = Some r /\
    heap w' !! r = Some rd /\ implementation rd = Some impl /\
    allocatedPorts (proxy w') !! ProxyPort rd = Some r /\
    allocatedPorts (proxy w) !! ProxyPort rd = None.
Proof.
  intros Hid Hparser Hk Herr Hok Hfree.
  destruct (gcOnceDo_frame notifier w) as (Hp0&Hh0&_).
  unfold CreateOrUpdateRedirect.
  rewrite createOrUpdateLocked_absent by (by rewrite Hp0).
  edestruct (retryCreatePort_retries l4 id b errs impl k k Hparser Hk Herr Hok 0%nat)
    as (w'&r&to&Hrun&Hc&Hto&(Hr&Hh&_&_&Hp&_)); [done|by rewrite Hp0|].
  eexists w', r, _. split; [exact Hrun|].
  apply constructed_attempts in Hc. rewrite gcOnceDo_constructionAttempts in Hc.
  split; [done|]. rewrite Hp. simpl. rewrite lookup_insert_eq. split; [done|].
  split; [rewrite Hh, Hr; by apply list_lookup_middle|]. simpl.
  rewrite lookup_insert_eq. by rewrite <- Hp0.
Qed.

(** ** What CreateOrUpdateRedirect never does *)

Lemma createOrUpdateLocked_keeps l4 id src wg b w :
  let w' := fst (createOrUpdateLocked l4 id src wg b w) in
  forall id0 r0, redirects (proxy w) !! id0 = Some r0 ->
    redirects (proxy w') !! id0 = Some r0.
Proof.
  unfold createOrUpdateLocked.
  destruct (redirects (proxy w) !! id) as [r|] eqn:Hid.
  - destruct (heap w !! r) as [rd|] eqn:Hr; [|done].
    destruct (updateExisting_heap l4 wg b r rd w) as (Hp&_). simpl. by rewrite Hp.
  - pose proof (retryCreatePort_spec l4 id b 0
      (updateRules l4 (set_parserType (L7Parser l4) (set_ingress (Ingress l4)
        (set_endpointID (GetID src) (newRedirect (wrap16 (Port l4)) src id (clock w))))))
      w) as Hspec.
    destruct (retryCreatePort _ _ _ _ _ _) as [w' out]. simpl.
    destruct Hspec as [_ Hout].
    destruct out as [[r|e]|]; [ | |done].
    + destruct Hout as (to&rd&(_&_&_&_&Hp&_)&_). rewrite Hp. simpl.
      intros id0 r0 H0. rewrite lookup_insert_ne; [done|]. congruence.
    + destruct Hout as (Hp&_). by rewrite Hp.
Qed.

(** Whatever its arguments and whatever the state, a
    [CreateOrUpdateRedirect] call evicts nothing: every reserved port is
    still reserved for the same record, every identifier still indexes the
    same record, and every record is still in place on its port with its
    backend. *)
Theorem CreateOrUpdateRedirect_evicts_nothing l4 id src notifier wg b w :
  let w' := fst (CreateOrUpdateRedirect l4 id src notifier wg b w) in
  (forall to r, allocatedPorts (proxy w) !! to = Some r ->
     allocatedPorts (proxy w') !! to = Some r) /\
  (forall id0 r0, redirects (proxy w) !! id0 = Some r0 ->
     redirects (proxy w') !! id0 = Some r0) /\
  keepsRecords (heap w) (heap w') /\
  releaseTasks w' = releaseTasks w.
Proof.
  unfold CreateOrUpdateRedirect.
  destruct (gcOnceDo_frame notifier w) as (Hp0&Hh0&_&_&Ht0&_).
  destruct (createOrUpdateLocked_step l4 id src wg b (gcOnceDo notifier w))
    as (Hamb&_&Hk&_&_&_&Ha).
  pose proof (createOrUpdateLocked_keeps l4 id src wg b (gcOnceDo notifier w)) as Hr.
  apply ambient_releaseTasks in Hamb.
  simpl in *. rewrite Hp0 in Ha, Hr. rewrite Hh0 in Hk. rewrite Ht0 in Hamb. done.
Qed.

(** ** Removing, and creating again *)

(** [RemoveRedirect] on an identifier that is absent returns the
    "unable to find redirect" error and changes nothing; in particular this
    is what a second [RemoveRedirect] of the same identifier does right
    after a first one that succeeded: no second release is scheduled. *)
Theorem RemoveRedirect_twice id wg wg' w w' :
  RemoveRedirect id wg w = (w', Returns (Ok tt)) ->
  RemoveRedirect id wg' w' = (w', Returns (Err (ErrRedirectNotFound id))) /\
  length (releaseTasks w') = S (length (releaseTasks w)).
Proof.
  unfold RemoveRedirect at 1.
  destruct (redirects (proxy w) !! id) as [r|]; [|discriminate].
  destruct (heap w !! r ≫= implementation) as [impl|]; [|discriminate].
  intros [= <-]. split.
  - unfold RemoveRedirect. simpl. by rewrite lookup_delete_eq.
  - simpl. rewrite length_app. simpl. lia.
Qed.


(** Once the goroutine of the removal has released the port, the allocator
    can hand the same port out again: "ep1-egress" created, removed,
    released and created again on [10000, 10000] is on port 10000 both
    times. *)
Lemma port_reused_after_release :
  let w := run (callCreateOrUpdate (httpFilter ∅) "ep1-egress" ep1 1%nat 2%nat goodBackend
                ++ [OpRemoveRedirect "ep1-egress" 3%nat; OpReleaseStep 0;
                    OpTick 300000000000; OpReleaseStep 0; OpReleaseStep 0]
                ++ callCreateOrUpdate (httpFilter ∅) "ep1-egress" ep1 1%nat 4%nat goodBackend)
             (startWorld 10000 10000 "/var/run/cilium" "" [] [5; 7; 11; 2]%nat 1000) in
  redirects (proxy w) !! "ep1-egress" = Some 1%nat /\
  ProxyPort <$> heap w = [10000; 10000].
Proof. vm_compute. split; reflexivity. Qed.

(** ** Every reserved port is accounted for *)

Lemma held_weaken w w' r :
  held w r ->
  (forall id, redirects (proxy w) !! id = Some r -> redirects (proxy w') !! id = Some r) ->
  (forall tid t, releaseTasks w !! tid = Some t -> live t ->
     exists t', releaseTasks w' !! tid = Some t' /\ live t' /\
       task_redirect t' = task_redirect t) ->
  held w' r.
Proof.
  intros [(id&Hid)|(tid&t&Ht&Hl&Hr)] Hred Htask.
  - left. exists id. by apply Hred.
  - right. destruct (Htask tid t Ht Hl) as (t'&Ht'&Hl'&Hr'). exists tid, t'.
    split; [done|]. split; [done|]. congruence.
Qed.

Lemma held_same w w' r :
  held w r -> redirects (proxy w') = redirects (proxy w) ->
  releaseTasks w' = releaseTasks w -> held w' r.
Proof.
  intros H Hr Ht. apply (held_weaken w w' r H).
  - intros id. by rewrite Hr.
  - intros tid t Htid Hl. exists t. by rewrite Ht.
Qed.

Lemma accounted_createOrUpdateLocked l4 id src wg b w :
  (forall to r, allocatedPorts (proxy w) !! to = Some r -> held w r) ->
  let w' := fst (createOrUpdateLocked l4 id src wg b w) in
  forall to r, allocatedPorts (proxy w') !! to = Some r -> held w' r.
Proof.
  intros Hacc. pose proof (createOrUpdateLocked_keeps l4 id src wg b w) as Hkeep.
  destruct (createOrUpdateLocked_step l4 id src wg b w) as (Hamb&_).
  apply ambient_releaseTasks in Hamb. revert Hkeep Hamb.
  unfold createOrUpdateLocked.
  destruct (redirects (proxy w) !! id) as [r|] eqn:Hid.
  - destruct (heap w !! r) as [rd|] eqn:Hr.
    2:{ simpl. intros _ _. apply Hacc. }
    destruct (updateExisting_heap l4 wg b r rd w) as (Hp&_).
    simpl. intros Hkeep Ht to r0 Hto. rewrite Hp in Hto.
    apply (held_weaken w _ r0 (Hacc to r0 Hto)); [by intros id0; apply Hkeep|].
    intros tid t Htid Hl. exists t. by rewrite Ht.
  - pose proof (retryCreatePort_spec l4 id b 0
      (updateRules l4 (set_parserType (L7Parser l4) (set_ingress (Ingress l4)
        (set_endpointID (GetID src) (newRedirect (wrap16 (Port l4)) src id (clock w))))))
      w) as Hspec.
    destruct (retryCreatePort _ _ _ _ _ _) as [w' out]. simpl.
    destruct Hspec as [_ Hout]. intros Hkeep Ht to r0 Hto.
    assert (forall r1, held w r1 -> held w' r1) as Hheld.
    { intros r1 H1. apply (held_weaken w w' r1 H1); [by intros id0; apply Hkeep|].
      intros tid t Htid Hl. exists t. by rewrite Ht. }
    destruct out as [[r|e]|]; [ | |done].
    + destruct Hout as (to1&rd&(_&_&_&_&Hp&_)&_). rewrite Hp in Hto. simpl in Hto.
      destruct (decide (to = to1)) as [->|Hne].
      * rewrite lookup_insert_eq in Hto. injection Hto as <-.
        left. exists id. rewrite Hp. simpl. by rewrite lookup_insert_eq.
      * rewrite lookup_insert_ne in Hto by done. apply Hheld. by eapply Hacc.
    + destruct Hout as (Hp&_). rewrite Hp in Hto. apply Hheld. by eapply Hacc.
Qed.

Lemma accounted_RemoveRedirect id wg w :
  WF w ->
  (forall to r, allocatedPorts (proxy w) !! to = Some r -> held w r) ->
  let w' := fst (RemoveRedirect id wg w) in
  forall to r, allocatedPorts (proxy w') !! to = Some r -> held w' r.
Proof.
  intros HW Hacc. unfold RemoveRedirect.
  destruct (redirects (proxy w) !! id) as [r|] eqn:Hid; [|apply Hacc].
  destruct (heap w !! r ≫= implementation) as [impl|]; [|apply Hacc].
  simpl. intros to r0 Hto. destruct (Hacc to r0 Hto) as [(id0&Hid0)|(tid&t&Ht&Hl&Hr)].
  - destruct (decide (id0 = id)) as [->|Hne].
    + right. exists (length (releaseTasks w)). eexists.
      split; [simpl; by apply list_lookup_middle|]. split; [done|]. simpl. congruence.
    + left. exists id0. simpl. by rewrite lookup_delete_ne.
  - right. exists tid, t. split; [simpl; by apply lookup_app_l_Some|done].
Qed.

Lemma accounted_releaseStep tid w :
  WF w ->
  (forall to r, allocatedPorts (proxy w) !! to = Some r -> held w r) ->
  forall to r, allocatedPorts (proxy (releaseStep tid w)) !! to = Some r ->
    held (releaseStep tid w) r.
Proof.
  intros HW Hacc. unfold releaseStep.
  destruct (releaseTasks w !! tid) as [t|] eqn:Htid; [|apply Hacc].
  assert (forall pc (w1 : World) r0,
    pc <> Finished -> held w r0 ->
    redirects (proxy w1) = redirects (proxy w) -> releaseTasks w1 = releaseTasks w ->
    held (set_pc tid pc w1) r0) as Hmove.
  { intros pc w1 r0 Hpc H0 Hr Ht. apply (held_weaken w _ r0 H0).
    - intros id0. simpl. by rewrite Hr.
    - intros k t0 Hk Hl. simpl. rewrite Ht, list_lookup_alter.
      case_decide as Hkt; [subst k|by exists t0].
      rewrite Htid. simpl. eexists. split; [done|].
      split; [done|]. simpl. congruence. }
  destruct (task_pc t) as [|wake| |] eqn:Hpc; [| | |apply Hacc].
  - intros to r Hto. apply Hmove; try done. by eapply Hacc.
  - case_decide; [|apply Hacc].
    destruct (heap w !! task_redirect t) as [rd|] eqn:Hr; [|apply Hacc].
    intros to r Hto. apply Hmove; try done. by eapply Hacc.
  - destruct (heap w !! task_redirect t) as [rd|] eqn:Hr; [|apply Hacc].
    simpl. intros to r [Hne Hto]%lookup_delete_Some.
    destruct (Hacc to r Hto) as [(id0&Hid0)|(k&t0&Hk&Hl&Hr0)].
    + left. by exists id0.
    + right. exists k. destruct (decide (k = tid)) as [->|Hk'].
      * exfalso. assert (t0 = t) as -> by congruence.
        destruct (wf_allocated w HW to r Hto) as (rd1&Hr1&Hp1).
        rewrite <- Hr0 in Hr1. congruence.
      * exists t0. simpl. by rewrite list_lookup_alter_ne.
Qed.

Lemma accounted_step o w :
  WF w ->
  (forall to r, allocatedPorts (proxy w) !! to = Some r -> held w r) ->
  forall to r, allocatedPorts (proxy (step o w)) !! to = Some r -> held (step o w) r.
Proof.
  intros HW Hacc. destruct o as [notifier|l4 id src wg b|id wg|tid| |d]; simpl.
  - destruct (gcOnceDo_frame notifier w) as (Hp&_&_&_&Ht&_).
    intros to r Hto. rewrite Hp in Hto.
    apply (held_same w); [by eapply Hacc|by rewrite Hp|done].
  - by apply accounted_createOrUpdateLocked.
  - by apply accounted_RemoveRedirect.
  - by apply accounted_releaseStep.
  - destruct (sweeperStep_step w) as (_&Hp&_&_&_&_&_&Ht).
    intros to r Hto. rewrite Hp in Hto.
    apply (held_same w); [by eapply Hacc|by rewrite Hp|done].
  - intros to r Hto. apply (held_same w); [by eapply Hacc|done|done].
Qed.

Lemma accounted_run ops : forall w,
  WF w ->
  (forall to r, allocatedPorts (proxy w) !! to = Some r -> held w r) ->
  forall to r, allocatedPorts (proxy (run ops w)) !! to = Some r -> held (run ops w) r.
Proof.
  induction ops as [|o ops IH]; intros w HW Hacc; [done|].
  simpl. apply IH; [by apply WF_step|by apply accounted_step].
Qed.

(** In any process the manager's operations can reach, a port is reserved
    for a record exactly when that record listens on it and is either
    indexed under an identifier or awaited by a release goroutine that has
    not returned: no reservation is leaked, and none is missing. *)
Theorem reserved_iff_held minPort maxPort dir lf labels seed now ops to r :
  let w := run ops (startWorld minPort maxPort dir lf labels seed now) in
  allocatedPorts (proxy w) !! to = Some r <->
  (exists rd, heap w !! r = Some rd /\ ProxyPort rd = to) /\ held w r.
Proof.
  intros w. assert (WF w) as HW by apply WF_run, WF_start. split.
  - intros Hto. split; [by apply (wf_allocated w HW)|].
    revert Hto. apply accounted_run; [apply WF_start|].
    intros to0 r0 H0. simpl in H0. by rewrite lookup_empty in H0.
  - intros [(rd&Hr&Hp) [(id&Hid)|(tid&t&Ht&Hl&Hrt)]].
    + destruct (wf_redirects w HW id r Hid) as (rd0&Hr0&Ha&_).
      assert (rd0 = rd) as -> by congruence. by rewrite <- Hp.
    + destruct (wf_tasks w HW tid t Ht Hl) as [(rd0&Hr0&Ha) _].
      rewrite Hrt in *. assert (rd0 = rd) as -> by congruence. by rewrite <- Hp.
Qed.

(** ** The grace interval *)

(** In any process the manager's operations can reach, once an identifier
    has been removed, and whatever happens afterwards, [allocatePort] does
    not return the port of the removed redirect as long as less than
    [portReleaseDelay] has passed since the removal. *)
Theorem port_not_reallocated_in_grace minPort maxPort dir lf labels seed now ops
    id wg r rd later g to :
  let w := run ops (startWorld minPort maxPort dir lf labels seed now) in
  redirects (proxy w) !! id = Some r -> heap w !! r = Some rd ->
  let w'' := run later (fst (RemoveRedirect id wg w)) in
  clock w'' < clock w + portReleaseDelay ->
  fst (allocatePort (proxy w'') g) = Ok to ->
  to <> ProxyPort rd.
Proof.
  intros w Hid Hr w'' Hearly Ha.
  assert (WF w) as HW by apply WF_run, WF_start.
  destruct (RemoveRedirect_present id wg w r HW Hid) as (rd0&w'&Hr0&Hrem&_&_&Hprog).
  assert (rd0 = rd) as -> by congruence.
  assert (WF w'') as HW''.
  { apply WF_run. by apply WF_RemoveRedirect. }
  unfold w'' in *. rewrite Hrem in *. simpl in *.
  apply (releaseProgress_run later) in Hprog.
  destruct (releaseProgress_reserved _ _ _ _ _ HW'' Hprog) as [Hres _].
  destruct (Hres Hearly) as [Hreserved _].
  destruct (allocatePort (proxy (run later w')) g) as [res g'] eqn:Hall.
  simpl in Ha. subst res. apply allocatePort_Ok in Hall as [Hfree _]. congruence.
Qed.

(** ** The eviction loop *)

Lemma gcTimes_app tr1 tr2 : gcTimes (tr1 ++ tr2) = gcTimes tr1 ++ gcTimes tr2.
Proof. unfold gcTimes. by rewrite filter_app, fmap_app. Qed.

Lemma gcTimes_none evs :
  Forall (fun te => isGC (snd te) = false) evs -> gcTimes evs = [].
Proof.
  intros H. unfold gcTimes. rewrite filter_none; [done|].
  eapply Forall_impl; [exact H|]. intros te Hte. rewrite Hte. simpl. tauto.
Qed.

Lemma gcTimes_grow (w w' : World) evs (P : Z * Event -> Prop) :
  trace w' = trace w ++ evs -> Forall P evs ->
  (forall te, P te -> isGC (snd te) = false) ->
  gcTimes (trace w') = gcTimes (trace w).
Proof.
  intros -> Hall HP. rewrite gcTimes_app, (gcTimes_none evs), app_nil_r; [done|].
  eapply Forall_impl; [exact Hall|done].
Qed.

Lemma updateExisting_gcTimes l4 wg b r rd w :
  gcTimes (trace (fst (updateExisting l4 wg b r rd w))) = gcTimes (trace w).
Proof.
  unfold updateExisting. case_decide; [|done]. simpl.
  destruct (implementation _) as [impl|]; [|done].
  destruct (UpdateRules b impl wg); simpl; by rewrite gcTimes_app, app_nil_r.
Qed.

Lemma createOrUpdateLocked_gcTimes l4 id src wg b w :
  gcTimes (trace (fst (createOrUpdateLocked l4 id src wg b w))) = gcTimes (trace w).
Proof.
  unfold createOrUpdateLocked.
  destruct (redirects (proxy w) !! id) as [r|].
  - destruct (heap w !! r) as [rd|]; [apply updateExisting_gcTimes|done].
  - pose proof (retryCreatePort_spec l4 id b 0
      (updateRules l4 (set_parserType (L7Parser l4) (set_ingress (Ingress l4)
        (set_endpointID (GetID src) (newRedirect (wrap16 (Port l4)) src id (clock w))))))
      w) as Hspec.
    destruct (retryCreatePort _ _ _ _ _ _) as [w' out]. simpl.
    destruct Hspec as [(k&evs&Htr&_&Hall) _].
    eapply gcTimes_grow; [exact Htr|exact Hall|].
    intros [t e] He. simpl in *. by destruct e.
Qed.

(** Only the eviction loop calls [proxymap.GC], and only [gcOnce] and the
    loop itself move the loop. *)
Lemma step_sweeper o w :
  match o with
  | OpGcOnceDo _ | OpSweeperStep => True
  | _ => sweeper (step o w) = sweeper w
  end /\
  match o with
  | OpSweeperStep => True
  | _ => gcTimes (trace (step o w)) = gcTimes (trace w)
  end.
Proof.
  destruct o as [notifier|l4 id src wg b|id wg|tid| |d]; simpl.
  - split; [done|]. destruct (gcOnceDo_init_only notifier w) as (evs&Htr&Hall).
    eapply gcTimes_grow; [exact Htr|exact Hall|].
    intros [t e] He. simpl in *. by destruct e.
  - split; [|apply createOrUpdateLocked_gcTimes].
    by destruct (createOrUpdateLocked_step l4 id src wg b w) as ((_&_&_&_&_&?)%ambient_inv&_).
  - unfold RemoveRedirect. destruct (redirects (proxy w) !! id) as [r|]; [|done].
    destruct (heap w !! r ≫= implementation) as [impl|]; [|done].
    simpl. by rewrite gcTimes_app, app_nil_r.
  - split.
    + unfold releaseStep. destruct (releaseTasks w !! tid) as [t|]; [|done].
      destruct (task_pc t) as [|wake| |]; try done.
      * case_decide; [|done]. by destruct (heap w !! task_redirect t).
      * by destruct (heap w !! task_redirect t).
    + destruct (releaseStep_step tid w) as ((evs&Htr&Hall)&_).
      eapply gcTimes_grow; [exact Htr|exact Hall|].
      intros [t e] [He _]. simpl in *. by destruct e.
  - done.
  - done.
Qed.

Lemma step_trace_grows o w : exists evs, trace (step o w) = trace w ++ evs.
Proof.
  destruct o as [notifier|l4 id src wg b|id wg|tid| |d]; simpl.
  - destruct (gcOnceDo_trace notifier w) as (evs&Htr&_). by exists evs.
  - destruct (createOrUpdateLocked_step l4 id src wg b w) as (_&(evs&Htr&_)&_). by exists evs.
  - destruct (RemoveRedirect_step id wg w) as ((evs&Htr&_)&_). by exists evs.
  - destruct (releaseStep_step tid w) as ((evs&Htr&_)&_). by exists evs.
  - destruct (sweeperStep_step w) as ((evs&Htr&_)&_). by exists evs.
  - exists []. by rewrite app_nil_r.
Qed.

Lemma spaced_nil : spaced [].
Proof. intros i j ti tj _ H. by rewrite lookup_nil in H. Qed.

Lemma spaced_snoc ts t :
  spaced ts -> (forall t', t' ∈ ts -> t' + gcInterval <= t) -> spaced (ts ++ [t]).
Proof.
  intros Hs Hlast i j ti tj Hij Hi Hj.
  apply lookup_app_Some in Hj as [Hj|[Hlen Hj]].
  - rewrite lookup_app_l in Hi by (apply lookup_lt_Some in Hj; lia). by eapply Hs.
  - apply list_lookup_singleton_Some in Hj as [Hj <-].
    rewrite lookup_app_l in Hi by lia. apply Hlast. by eapply list_elem_of_lookup_2.
Qed.

Lemma sweeperInv_carry w w' :
  sweeperInv w ->
  sweeper w' = sweeper w -> gcTimes (trace w') = gcTimes (trace w) ->
  gcOnce w' = gcOnce w -> clock w <= clock w' ->
  (forall te, te ∈ trace w -> te ∈ trace w') ->
  sweeperInv w'.
Proof.
  intros (Hsp&Hfirst&Honce&Hpc) Hsw Hgc Hon Hclock Hsub.
  unfold sweeperInv. rewrite Hsw, Hgc, Hon.
  split; [done|]. split.
  { intros t Ht. destruct (Hfirst t Ht) as (t0&Hin&Hle). exists t0. auto. }
  split; [done|].
  destruct (sweeper w) as [| |wake]; [done| |].
  - destruct Hpc as (Hnil&t0&Hin&Hle). split; [done|]. exists t0. split; [auto|lia].
  - destruct Hpc as (Hlast&t0&Hin&Hle). split; [done|]. exists t0. auto.
Qed.

Lemma gcOnceDo_spawns notifier w :
  gcOnce w = false ->
  sweeper (gcOnceDo notifier w) = SweeperSpawned /\
  (clock w, EvGoSweeper) ∈ trace (gcOnceDo notifier w).
Proof.
  intros Hon. unfold gcOnceDo. rewrite Hon. cbn.
  destruct (decide (accessLog w = _)); cbn; destruct (agentLabels w); cbn;
    (split; [done|]); apply elem_of_app; right; by apply list_elem_of_singleton.
Qed.

Lemma gcOnceDo_fired notifier w : gcOnce w = true -> gcOnceDo notifier w = w.
Proof. intros Hon. unfold gcOnceDo. by rewrite Hon. Qed.

Lemma sweeperInv_step o w : sweeperInv w -> sweeperInv (step o w).
Proof.
  intros Hinv.
  destruct (step_trace_grows o w) as [evs Hgrow].
  assert (forall te, te ∈ trace w -> te ∈ trace (step o w)) as Hsub.
  { intros te Hin. rewrite Hgrow. apply elem_of_app. by left. }
  destruct (step_fixed o w) as (Hclock&_).
  destruct (step_sweeper o w) as [Hsw Hgc].
  destruct (step_initEvents o w) as [_ Hon].
  assert (0 <= gcInterval) as HI by (unfold gcInterval; lia).
  destruct o as [notifier|l4 id src wg b|id wg|tid| |d];
    try (by apply (sweeperInv_carry w)).
  - (* gcOnce.Do *)
    destruct (gcOnce w) eqn:Hfired.
    { simpl. by rewrite gcOnceDo_fired. }
    destruct Hinv as (Hsp&Hfirst&Honce&Hpc). rewrite (Honce Hfired) in Hpc.
    destruct (gcOnceDo_spawns notifier w Hfired) as [Hspawn Hev].
    destruct (gcOnceDo_frame notifier w) as (_&_&_&Hc&_).
    unfold sweeperInv. simpl in *. rewrite Hspawn, Hgc, Hon, Hpc.
    split; [apply spaced_nil|]. split; [intros t Ht; by apply elem_of_nil in Ht|].
    split; [done|]. split; [done|]. exists (clock w). split; [done|lia].
  - (* the loop *)
    clear Hsw Hgc Hgrow. destruct Hinv as (Hsp&Hfirst&Honce&Hpc).
    simpl in *. unfold sweeperInv, sweeperStep in *.
    destruct (sweeper w) as [| |wake] eqn:Hsweeper; [by rewrite Hsweeper| |].
    + destruct Hpc as (Hnil&t0&Hin&Hle). simpl. rewrite Hnil.
      split; [apply spaced_nil|]. split; [intros t Ht; by apply elem_of_nil in Ht|].
      split; [intros Hoff; discriminate (Honce Hoff)|].
      split; [intros t Ht; by apply elem_of_nil in Ht|]. exists t0. split; [done|lia].
    + destruct Hpc as (Hlast&t0&Hin&Hle).
      case_decide as Hdue.
      2:{ rewrite Hsweeper. split; [done|]. split; [done|].
          split; [intros Hoff; discriminate (Honce Hoff)|]. split; [done|]. by exists t0. }
      simpl. rewrite gcTimes_app.
      change (gcTimes [(clock w, EvProxymapGC)]) with [clock w].
      split. { apply spaced_snoc; [done|]. intros t' Ht'. specialize (Hlast t' Ht'). lia. }
      split.
      { intros t [Ht|Ht]%elem_of_app.
        - destruct (Hfirst t Ht) as (t1&Hin1&Hle1). exists t1.
          split; [apply elem_of_app; by left|done].
        - apply list_elem_of_singleton in Ht as ->. exists t0.
          split; [apply elem_of_app; by left|lia]. }
      split; [intros Hoff; discriminate (Honce Hoff)|].
      split.
      { intros t [Ht|Ht]%elem_of_app.
        - specialize (Hlast t Ht). lia.
        - apply list_elem_of_singleton in Ht as ->. lia. }
      exists t0. split; [apply elem_of_app; by left|lia].
Qed.

Lemma sweeperInv_run ops : forall w, sweeperInv w -> sweeperInv (run ops w).
Proof.
  induction ops as [|o ops IH]; intros w Hinv; [done|].
  simpl. by apply IH, sweeperInv_step.
Qed.

(** Whatever the schedule, [proxymap.GC] is only called by the eviction
    loop that [gcOnce] starts: every call comes at least ten seconds after
    the loop was started and at least ten seconds after the call before. *)
Theorem sweeps_are_spaced minPort maxPort dir lf labels seed now ops :
  let tr := trace (run ops (startWorld minPort maxPort dir lf labels seed now)) in
  spaced (gcTimes tr) /\
  forall t, t ∈ gcTimes tr ->
    exists t0, (t0, EvGoSweeper) ∈ tr /\ t0 + gcInterval <= t.
Proof.
  intros tr.
  destruct (sweeperInv_run ops (startWorld minPort maxPort dir lf labels seed now))
    as (Hsp&Hfirst&_); [|done].
  split; [apply spaced_nil|]. split; [intros t Ht; by apply elem_of_nil in Ht|done].
Qed.

(** ** The status model *)

Lemma reserved_uint16_step o w :
  (forall to, is_Some (allocatedPorts (proxy w) !! to) -> is_uint16 to) ->
  forall to, is_Some (allocatedPorts (proxy (step o w)) !! to) -> is_uint16 to.
Proof.
  intros Hin to.
  destruct o as [notifier|l4 id src wg b|id wg|tid| |d]; simpl.
  - destruct (gcOnceDo_frame notifier w) as (->&_). apply Hin.
  - destruct (createOrUpdateLocked_step l4 id src wg b w) as (_&_&_&_&_&Hnew&_).
    intros [Hold|(k&Hk&->)]%Hnew; [by apply Hin|].
    unfold resPort, wrap16, is_uint16. apply Z.mod_pos_bound. lia.
  - destruct (RemoveRedirect_step id wg w) as (_&_&_&_&_&_&->&_). apply Hin.
  - destruct (releaseStep_step tid w) as (_&_&_&_&_&_&_&_&_&Hsub).
    intros H%Hsub. by apply Hin.
  - destruct (sweeperStep_step w) as (_&->&_). apply Hin.
  - apply Hin.
Qed.

Lemma reserved_uint16_run ops : forall w,
  (forall to, is_Some (allocatedPorts (proxy w) !! to) -> is_uint16 to) ->
  forall to, is_Some (allocatedPorts (proxy (run ops w)) !! to) -> is_uint16 to.
Proof.
  induction ops as [|o ops IH]; intros w Hin; [done|].
  simpl. by apply IH, reserved_uint16_step.
Qed.

Lemma int64_small z : - 2 ^ 63 <= z < 2 ^ 63 -> int64 z = z.
Proof. intros Hz. unfold int64. rewrite Z.mod_small; lia. Qed.

Lemma int64_uint16 z : is_uint16 z -> int64 z = z.
Proof. unfold is_uint16. intros Hz. apply int64_small. lia. Qed.

Section StatusProperties.

Variable getLocation : Redirect -> string.
Variable getRulesModel : Redirect -> list string.
Variable internalIPv4 : string.

Lemma getRedirectsStatusModel_Some w sts :
  getRedirectsStatusModel getLocation getRulesModel w = Some sts ->
  Forall2 (fun ir s => exists rd, heap w !! snd ir = Some rd /\
             s = getRedirectStatusModel getLocation getRulesModel rd)
          (map_to_list (redirects (proxy w))) sts.
Proof.
  unfold getRedirectsStatusModel. intros H%mapM_Some_1.
  apply Forall2_fmap_l in H. eapply Forall2_impl; [exact H|].
  intros [id r] s Hs. simpl in *. destruct (heap w !! r) as [rd|]; [|discriminate].
  exists rd. split; [done|]. by injection Hs as <-.
Qed.

Lemma getRedirectsStatusModel_WF w :
  WF w -> is_Some (getRedirectsStatusModel getLocation getRulesModel w).
Proof.
  intros HW. unfold getRedirectsStatusModel. apply mapM_is_Some_2.
  apply Forall_fmap, Forall_forall. intros [id r] Hin%elem_of_map_to_list.
  destruct (wf_redirects w HW id r Hin) as (rd&Hr&_).
  unfold compose. simpl. apply fmap_is_Some. by exists rd.
Qed.

(** In any process the manager's operations can reach, [GetStatusModel]
    returns a status with one entry for every identifier that is indexed,
    no more and no fewer, and the entries are the projections of the
    records they index; the host address and the port range are those of
    the manager. *)
Theorem status_lists_indexed_redirects minPort maxPort dir lf labels seed now ops :
  let w := run ops (startWorld minPort maxPort dir lf labels seed now) in
  exists st,
    GetStatusModel getLocation getRulesModel internalIPv4 w = Some st /\
    models.IP st = internalIPv4 /\
    models.PortRange st = pretty minPort +:+ "-" +:+ pretty maxPort /\
    length (models.Redirects st) = size (redirects (proxy w)) /\
    forall s, s ∈ models.Redirects st <->
      exists id r rd, redirects (proxy w) !! id = Some r /\ heap w !! r = Some rd /\
        s = getRedirectStatusModel getLocation getRulesModel rd.
Proof.
  intros w. assert (WF w) as HW by apply WF_run, WF_start.
  destruct (getRedirectsStatusModel_WF w HW) as [sts Hsts].
  unfold GetStatusModel. rewrite Hsts. simpl. eexists. split; [done|]. simpl.
  split; [done|]. split.
  { unfold portRangeString. unfold w.
    destruct (run_fixed ops (startWorld minPort maxPort dir lf labels seed now))
      as (_&_&->&->&_). done. }
  apply getRedirectsStatusModel_Some in Hsts.
  split.
  { rewrite <- (Forall2_length _ _ _ Hsts). apply length_map_to_list. }
  intros s. split.
  - intros Hs. apply list_elem_of_lookup in Hs as [i Hi].
    destruct (Forall2_lookup_r _ _ _ _ _ Hsts Hi) as ([id r]&Hir&rd&Hr&->).
    exists id, r, rd. split; [|done].
    apply elem_of_map_to_list. by eapply list_elem_of_lookup_2.
  - intros (id&r&rd&Hid&Hr&->).
    apply elem_of_map_to_list, list_elem_of_lookup in Hid as [i Hi].
    destruct (Forall2_lookup_l _ _ _ _ _ Hsts Hi) as (s&Hs&rd'&Hr'&->).
    simpl in Hr'. unfold loc in *. assert (rd' = rd) as -> by congruence.
    by eapply list_elem_of_lookup_2.
Qed.

(** In any process the manager's operations can reach, no two entries of
    the status report the same allocated proxy port, and when the range is
    well formed every reported port lies inside it. *)
Theorem status_ports_distinct_in_range minPort maxPort dir lf labels seed now ops st :
  let w := run ops (startWorld minPort maxPort dir lf labels seed now) in
  GetStatusModel getLocation getRulesModel internalIPv4 w = Some st ->
  NoDup (models.AllocatedProxyPort <$> models.Redirects st) /\
  (is_uint16 minPort -> is_uint16 maxPort -> minPort <= maxPort ->
   forall s, s ∈ models.Redirects st ->
     minPort <= models.AllocatedProxyPort s <= maxPort).
Proof.
  intros w Hst. assert (WF w) as HW by apply WF_run, WF_start.
  assert (forall to, is_Some (allocatedPorts (proxy w) !! to) -> is_uint16 to) as Hu16.
  { apply reserved_uint16_run. intros to [r Hr]. simpl in Hr. by rewrite lookup_empty in Hr. }
  revert Hst. unfold GetStatusModel.
  destruct (getRedirectsStatusModel _ _ w) as [sts|] eqn:Hsts; [|discriminate].
  simpl. intros [= <-]. simpl.
  apply getRedirectsStatusModel_Some in Hsts.
  assert (forall i s, sts !! i = Some s ->
    exists id r rd, map_to_list (redirects (proxy w)) !! i = Some (id, r) /\
      redirects (proxy w) !! id = Some r /\ heap w !! r = Some rd /\
      allocatedPorts (proxy w) !! ProxyPort rd = Some r /\
      models.AllocatedProxyPort s = ProxyPort rd) as Hentry.
  { intros i s Hi.
    destruct (Forall2_lookup_r _ _ _ _ _ Hsts Hi) as ([id r]&Hir&rd&Hr&->).
    assert (redirects (proxy w) !! id = Some r) as Hid.
    { apply elem_of_map_to_list. by eapply list_elem_of_lookup_2. }
    destruct (wf_redirects w HW id r Hid) as (rd0&Hr0&Ha&_).
    simpl in Hr. unfold loc in *. assert (rd0 = rd) as -> by congruence.
    exists id, r, rd. repeat split; try done. simpl.
    apply int64_uint16, Hu16. by rewrite Ha. }
  split.
  - apply NoDup_alt. intros i j to Hi Hj.
    apply list_lookup_fmap_Some in Hi as (si&->&Hsi).
    apply list_lookup_fmap_Some in Hj as (sj&Heq&Hsj).
    destruct (Hentry i si Hsi) as (id1&r1&rd1&Hl1&Hid1&Hr1&Ha1&Hp1).
    destruct (Hentry j sj Hsj) as (id2&r2&rd2&Hl2&Hid2&Hr2&Ha2&Hp2).
    rewrite Hp1, Hp2 in Heq. rewrite Heq, Ha2 in Ha1. injection Ha1 as <-.
    assert (id1 = id2) as <- by (by eapply (wf_indexed_once w HW)).
    pose proof (NoDup_fst_map_to_list (redirects (proxy w))) as Hnd.
    apply (proj1 (NoDup_alt _) Hnd i j id1); rewrite list_lookup_fmap.
    + by rewrite Hl1.
    + by rewrite Hl2.
  - intros Hmin Hmax Hle s Hs. apply list_elem_of_lookup in Hs as [i Hi].
    destruct (Hentry i s Hi) as (id&r&rd&_&_&_&Ha&->).
    assert (inRange w) as Hin.
    { apply inRange_run; try done. intros to [r0 H0]. simpl in H0. by rewrite lookup_empty in H0. }
    destruct (run_fixed ops (startWorld minPort maxPort dir lf labels seed now))
      as (_&_&Hrmin&Hrmax&_).
    specialize (Hin (ProxyPort rd)). fold w in Hrmin, Hrmax.
    rewrite Hrmin, Hrmax in Hin. apply Hin. by rewrite Ha.
Qed.

End StatusProperties.

(** ** The port range as a string *)

Lemma hasDash_app s1 s2 : hasDash (s1 +:+ s2) = hasDash s1 || hasDash s2.
Proof. induction s1 as [|c s1 IH]; simpl; [done|]. by case_decide. Qed.

Lemma pretty_N_char_no_dash x : pretty_N_char x <> "-"%char.
Proof. unfold pretty_N_char. by repeat case_match. Qed.

Lemma pretty_N_go_no_dash x : forall s, hasDash s = false -> hasDash (pretty_N_go x s) = false.
Proof.
  induction (N.lt_wf_0 x) as [x _ IH]; intros s Hs.
  assert (x = 0 \/ 0 < x)%N as [->|Hx] by lia.
  - by rewrite pretty_N_go_0.
  - rewrite pretty_N_go_step by done. apply IH; [by apply N.div_lt|].
    simpl. rewrite decide_False; [done|]. apply pretty_N_char_no_dash.
Qed.

Lemma pretty_Z_no_dash z : 0 <= z -> hasDash (pretty z) = false.
Proof.
  intros Hz. destruct z as [|p|p]; [done| |lia].
  unfold pretty, pretty_Z, pretty, pretty_positive, pretty, pretty_N.
  case_decide; [done|]. by apply pretty_N_go_no_dash.
Qed.

Lemma dash_separated_inj a a' b b' :
  hasDash a = false -> hasDash a' = false ->
  a +:+ "-" +:+ b = a' +:+ "-" +:+ b' -> a = a' /\ b = b'.
Proof.
  revert a'. induction a as [|c a IH]; intros [|c' a'] Ha Ha' Heq; simpl in *.
  - injection Heq as Heq. by subst.
  - injection Heq as Hc _. subst c'. by rewrite decide_True in Ha'.
  - injection Heq as Hc _. subst c. by rewrite decide_True in Ha.
  - injection Heq as Hc Heq. subst c'. case_decide; [done|].
    destruct (IH a' Ha Ha' Heq) as [Ha0 Hb0]. by subst.
Qed.

(** The port range string of the status identifies the range: two managers
    whose bounds are not negative (they are [uint16]) and whose status
    gives the same port range have the same bounds. *)
Theorem portRangeString_inj p p' :
  0 <= rangeMin p -> 0 <= rangeMax p -> 0 <= rangeMin p' -> 0 <= rangeMax p' ->
  portRangeString p = portRangeString p' ->
  rangeMin p = rangeMin p' /\ rangeMax p = rangeMax p'.
Proof.
  intros H1 H2 H3 H4 Heq. unfold portRangeString in Heq.
  apply dash_separated_inj in Heq as [Hmin Hmax]; try by apply pretty_Z_no_dash.
  split; by apply (inj pretty).
Qed.

(** ** The further properties at concrete processes *)

(** The first creation of "ep1-egress" on a fresh manager. *)
Lemma create_publishes_filter_witness :
  let w := exampleStart in
  let l4 := httpFilter ∅ in
  let w' := fst (CreateOrUpdateRedirect l4 "ep1-egress" ep1 1%nat 2%nat goodBackend w) in
  exists to impl,
    0%nat = length (heap w) /\
    allocatedPorts (proxy w) !! to = None /\
    heap w' = heap w ++
      [ {| redirectID := "ep1-egress"; port := wrap16 (Port l4); source := ep1;
           ProxyPort := to; endpointID := GetID ep1; ingress := Ingress l4;
           parserType := L7Parser l4; rules := L7RulesPerEp l4;
           implementation := Some impl; created := clock w;
           lastUpdated := clock w |} ] /\
    allocatedPorts (proxy w') = <[to := 0%nat]> (allocatedPorts (proxy w)) /\
    redirects (proxy w') = <["ep1-egress" := 0%nat]> (redirects (proxy w)) /\
    releaseTasks w' = releaseTasks w.
Proof.
  intros w l4 w'.
  apply (create_publishes_filter l4 "ep1-egress" ep1 1%nat 2%nat goodBackend w w' 0%nat).
  - vm_compute. reflexivity.
  - vm_compute. reflexivity.
Defined.

(** A creation through a backend that fails twice and then succeeds: three
    constructions. *)
Lemma create_retries_until_success_witness :
  exists w' r rd,
    CreateOrUpdateRedirect (httpFilter ∅) "ep1-egress" ep1 1%nat 2%nat flakyBackend
      exampleStart = (w', Returns (Ok r)) /\
    constructionAttempts (trace w') = (constructionAttempts (trace exampleStart) + 3)%nat /\
    redirects (proxy w') !! "ep1-egress" = Some r /\
    heap w' !! r = Some rd /\ implementation rd = Some 2%nat /\
    allocatedPorts (proxy w') !! ProxyPort rd = Some r /\
    allocatedPorts (proxy exampleStart) !! ProxyPort rd = None.
Proof.
  apply (create_retries_until_success (httpFilter ∅) "ep1-egress" ep1 1%nat 2%nat
           flakyBackend (fun _ => ErrBackend "busy") 2%nat 2%nat exampleStart).
  - reflexivity.
  - left. reflexivity.
  - unfold redirectCreationAttempts. lia.
  - intros n rd Hn. unfold factoryFor. simpl.
    destruct (decide (n < 2)%nat); [reflexivity|lia].
  - intros rd. reflexivity.
  - intros g. apply (allocatePort_free (proxy exampleStart) g 10000);
      unfold is_uint16; simpl; (lia || reflexivity).
Defined.

(** "ep1-egress" removed twice in a row. *)
Lemma RemoveRedirect_twice_witness :
  let w' := fst (RemoveRedirect "ep1-egress" 3%nat exampleActive) in
  RemoveRedirect "ep1-egress" 4%nat w' =
    (w', Returns (Err (ErrRedirectNotFound "ep1-egress"))) /\
  length (releaseTasks w') = S (length (releaseTasks exampleActive)).
Proof.
  intros w'.
  apply (RemoveRedirect_twice "ep1-egress" 3%nat 4%nat exampleActive w').
  vm_compute. reflexivity.
Defined.


(** One microsecond after the removal of "ep1-egress", the allocator does
    not hand out its port. *)
Lemma port_not_reallocated_in_grace_witness :
  let w := run (callCreateOrUpdate (httpFilter ∅) "ep1-egress" ep1 1%nat 2%nat goodBackend)
             (startWorld 10000 10002 "/var/run/cilium" "" [] [5; 7; 11; 2]%nat 1000) in
  exists rd, heap w !! 0%nat = Some rd /\ 10002 <> ProxyPort rd.
Proof.
  intros w.
  assert (exists rd, heap w !! 0%nat = Some rd) as [rd Hr].
  { eexists. vm_compute. reflexivity. }
  exists rd. split; [exact Hr|].
  apply (port_not_reallocated_in_grace 10000 10002 "/var/run/cilium" "" []
           [5; 7; 11; 2]%nat 1000
           (callCreateOrUpdate (httpFilter ∅) "ep1-egress" ep1 1%nat 2%nat goodBackend)
           "ep1-egress" 3%nat 0%nat rd [OpTick 1000] [3; 1; 4]%nat 10002).
  - vm_compute. reflexivity.
  - exact Hr.
  - vm_compute. reflexivity.
  - vm_compute. reflexivity.
Defined.

(** The status of a manager with two redirects on [10000, 10002]. *)
Lemma status_ports_distinct_in_range_witness :
  let ops := callCreateOrUpdate (httpFilter ∅) "ep1-egress" ep1 1%nat 2%nat goodBackend
             ++ callCreateOrUpdate (kafkaFilter ∅) "ep2-ingress" ep1 1%nat 2%nat goodBackend in
  let w := run ops (startWorld 10000 10002 "/var/run/cilium" "" [] [5; 7; 11; 2]%nat 1000) in
  exists st,
    GetStatusModel (fun _ => "") (fun _ => []) "10.0.0.1" w = Some st /\
    NoDup (models.AllocatedProxyPort <$> models.Redirects st) /\
    (is_uint16 10000 -> is_uint16 10002 -> 10000 <= 10002 ->
     forall s, s ∈ models.Redirects st ->
       10000 <= models.AllocatedProxyPort s <= 10002).
Proof.
  intros ops w.
  assert (exists st, GetStatusModel (fun _ => "") (fun _ => []) "10.0.0.1" w = Some st)
    as [st Hst].
  { eexists. vm_compute. reflexivity. }
  exists st. split; [exact Hst|].
  apply (status_ports_distinct_in_range (fun _ => "") (fun _ => []) "10.0.0.1"
           10000 10002 "/var/run/cilium" "" [] [5; 7; 11; 2]%nat 1000 ops st).
  exact Hst.
Defined.

(** The port range strings of two managers on [10000, 10002]. *)
Lemma portRangeString_inj_witness :
  rangeMin (proxy exampleStart) = rangeMin (proxy exampleActive) /\
  rangeMax (proxy exampleStart) = rangeMax (proxy exampleActive).
Proof.
  apply (portRangeString_inj (proxy exampleStart) (proxy exampleActive)).
  - vm_compute. discriminate.
  - vm_compute. discriminate.
  - vm_compute. discriminate.
  - vm_compute. discriminate.
  - vm_compute. reflexivity.
Defined.
